(** * smallsh: a shallow embedding of [smallsh.c]

    The development follows the source file top to bottom.  C strings on the
    heap are [string]s, the line buffer of [main] is a list of characters
    addressed by offsets (so that pointers into it alias as they do in C),
    [int] values are [Z], and everything the operating system decides
    (allocation, [fork], [waitpid], [chdir], the line read) is supplied by
    an explicit record of answers. *)

From Stdlib Require Import Ascii String ZArith Lia.
From stdpp Require Import base list strings.

Local Open Scope string_scope.

(** ** Constants of the source *)

Definition MAX_CMD_LEN : nat := 2048.
Definition MAX_ARGS : nat := 512.

Definition SIGKILL : Z := 9.
Definition WNOHANG : Z := 1.
Definition STDOUT_FILENO : Z := 1.

(** ** The C library: characters, strings, formatting *)

Module Libc.

Definition NUL : ascii := Ascii.zero.
Definition SPACE : ascii := " "%char.
Definition LF : ascii := ascii_of_nat 10.
Definition nl : string := String LF "".

Definition is_nul (c : ascii) : bool := Ascii.eqb c NUL.

(** [strcmp a b == 0] *)
Definition streq (a b : string) : bool := String.eqb a b.

(** [strstr haystack needle]: offset of the first occurrence. *)
Fixpoint strstr (haystack needle : string) : option nat :=
  if String.prefix needle haystack then Some 0%nat
  else match haystack with
       | EmptyString => None
       | String _ rest => option_map S (strstr rest needle)
       end.

(** The first [n] characters of a string; [string_drop] skips them. *)
Fixpoint string_take (n : nat) (s : string) : string :=
  match n, s with
  | S n', String c r => String c (string_take n' r)
  | _, _ => EmptyString
  end.

Fixpoint string_drop (n : nat) (s : string) : string :=
  match n, s with
  | S n', String _ r => string_drop n' r
  | _, _ => s
  end.

(** Digits of a non-negative number, most significant first.  The fuel
    bounds the number of digits produced. *)
Definition digit_char (d : Z) : ascii := ascii_of_nat (48 + Z.to_nat d).

Fixpoint decimal_digits (fuel : nat) (n : Z) : string :=
  match fuel with
  | O => EmptyString
  | S fuel' =>
      if (n <? 10)%Z then String (digit_char n) EmptyString
      else decimal_digits fuel' (n / 10) +:+ String (digit_char (n mod 10)) EmptyString
  end.

(** The conversion ["%d"] of an [int]: ten digits suffice below [2^31]. *)
Definition format_d (n : Z) : string :=
  if (n <? 0)%Z then "-" +:+ decimal_digits 10 (- n) else decimal_digits 10 n.

(** [snprintf(buf, size, ...)] keeps at most [size - 1] characters of the
    formatted text. *)
Definition snprintf (size : nat) (formatted : string) : string :=
  string_take (size - 1) formatted.


End Libc.

Import Libc.

(** ** Wait statuses ([<sys/wait.h>], Linux encoding) *)

Module WaitStatus.

(** How a child ended, as the kernel knows it. *)
Inductive termination :=
| Exited (code : Z)
| Signaled (sig : Z) (core : bool).

(** The [int] that [waitpid] stores for it. *)
Definition wstatus (t : termination) : Z :=
  match t with
  | Exited code => Z.shiftl (Z.land code 255) 8
  | Signaled sig core => Z.lor sig (if core then 128 else 0)
  end.

Definition WTERMSIG (status : Z) : Z := Z.land status 127.
Definition WEXITSTATUS (status : Z) : Z := Z.shiftr (Z.land status 65280) 8.
Definition WIFEXITED (status : Z) : bool := (WTERMSIG status =? 0)%Z.

(** [((signed char) ((status & 0x7f) + 1) >> 1) > 0] *)
Definition WIFSIGNALED (status : Z) : bool :=
  let x := (Z.land status 127 + 1)%Z in
  let as_signed_char := if (128 <=? x)%Z then (x - 256)%Z else x in
  (0 <? Z.shiftr as_signed_char 1)%Z.

Definition valid_exit_code (code : Z) : Prop := (0 <= code <= 255)%Z.
Definition valid_signal (sig : Z) : Prop := (1 <= sig <= 64)%Z.

Definition valid_termination (t : termination) : Prop :=
  match t with
  | Exited code => valid_exit_code code
  | Signaled sig _ => valid_signal sig
  end.

End WaitStatus.

Import WaitStatus.

(** ** Observable actions *)

(** Where a standard descriptor of a child points after its set-up. *)
Inductive redirect :=
| Inherit
| FromPath (path : string)
| DevNull.

(** The child side of [executeCommand], lines 294-362: the disposition it
    gives [SIGINT], what it puts on descriptors 0 and 1, and the vector it
    hands to [execvp].  A step that fails ends the child alone with
    [exit(1)]. *)
Record spawn := {
  sp_sigint_ignored : bool;
  sp_stdin : redirect;
  sp_stdout : redirect;
  sp_argv : list (option string) }.

(** What the shell does to the outside world, in program order.  The
    answers of the system calls are recorded with the calls. *)
Inductive event :=
| Printf (text : string)                       (* buffered standard output *)
| Fflush
| RawWrite (fd : Z) (text : string)            (* write(2), unbuffered *)
| Perror (prefix : string)                     (* message on standard error *)
| Chdir (path : option string) (ret : Z)
| WaitpidAny (want_status : bool) (options : Z) (ret : Z)   (* waitpid(-1, ..) *)
| WaitpidChild (pid : Z) (options : Z)
| Kill (pid : Z) (sig : Z)
| Fork (child : spawn) (ret : Z).

(** A call either returns to its caller or ends the process with
    [exit(code)]. *)
Inductive outcome (A : Type) :=
| Returns (a : A)
| Exits (code : Z).
Arguments Returns {A} a.
Arguments Exits {A} code.

(** ** [expandPID] *)

(** [pid] is the answer of [getpid()]; [alloc_ok] tells whether the one
    allocation of the call ([strdup] or [malloc]) succeeds.  A [NULL]
    result is [None]. *)
Definition expandPID (pid : Z) (alloc_ok : bool) (token : string)
  : list event * outcome (option string) :=
  match strstr token "$$" with
  | None => ([], Returns (if alloc_ok then Some token else None))
  | Some pos =>
      let pid_str := snprintf 16 (format_d pid) in
      let new_length := (String.length token - 2 + String.length pid_str)%nat in
      if alloc_ok then
        ([], Returns (Some (snprintf (new_length + 1)
                              (string_take pos token +:+ pid_str
                               +:+ string_drop (pos + 2) token))))
      else ([Perror "malloc"], Exits 1)
  end.

(** ** The line buffer and [strtok] *)

(** [char input[MAX_CMD_LEN]] is a list of cells; a [char *] into it is an
    offset.  Tokens, [inputFile] and [outputFile] are such pointers: they
    name whatever the buffer holds now, not what it held when they were
    taken. *)
Module Buffer.

Definition peek (buf : list ascii) (p : nat) : ascii := default NUL (buf !! p).

Fixpoint c_str_cells (cells : list ascii) : string :=
  match cells with
  | [] => EmptyString
  | c :: rest => if is_nul c then EmptyString else String c (c_str_cells rest)
  end.

(** The C string that starts at offset [p]. *)
Definition c_str (buf : list ascii) (p : nat) : string := c_str_cells (drop p buf).

(** [strspn(s, d)] for a one-character [d]. *)
Fixpoint strspn (d : ascii) (cells : list ascii) : nat :=
  match cells with
  | c :: rest => if Ascii.eqb c d then S (strspn d rest) else 0
  | [] => 0
  end.

(** [strcspn(s, d)] for a one-character [d]. *)
Fixpoint strcspn (d : ascii) (cells : list ascii) : nat :=
  match cells with
  | c :: rest => if is_nul c || Ascii.eqb c d then 0 else S (strcspn d rest)
  | [] => 0
  end.

(** One call of [strtok] with delimiter [d], continuing from the saved
    position [olds]: the token found (if any), the buffer with the
    delimiter after the token overwritten, and the new saved position. *)
Definition strtok (d : ascii) (buf : list ascii) (olds : nat)
  : option nat * list ascii * nat :=
  let s := olds + strspn d (drop olds buf) in
  if is_nul (peek buf s) then (None, buf, s)
  else
    let e := s + strcspn d (drop s buf) in
    if is_nul (peek buf e) then (Some s, buf, e)
    else (Some s, <[e := NUL]> buf, S e).

(** [fgets(input, MAX_CMD_LEN, stdin)] when the stream holds [pending]:
    at most [MAX_CMD_LEN - 1] characters, up to and including the first
    line feed, are stored from offset 0 and followed by a [NUL]; the cells
    behind keep their old contents. *)
Fixpoint upto_lf (cells : list ascii) : list ascii :=
  match cells with
  | [] => []
  | c :: rest => if Ascii.eqb c LF then [c] else c :: upto_lf rest
  end.

Definition fgets (buf : list ascii) (pending : string) : list ascii :=
  let data := upto_lf (take (MAX_CMD_LEN - 1) (list_ascii_of_string pending)) in
  data ++ NUL :: drop (S (length data)) buf.

End Buffer.

Import Buffer.

(** ** [parseInput] *)

(** The variables [parseInput] works on: the buffer and [strtok]'s saved
    position, the argument array filled so far ([argCount] is its length),
    and the three locations of [main] it writes through pointers. *)
Record parser := {
  p_buf : list ascii;
  p_olds : nat;
  p_args : list (option string);
  p_inputFile : option nat;
  p_outputFile : option nat;
  p_background : Z }.

(** [strtok(NULL, " ")] *)
Definition next_token (p : parser) : option nat * parser :=
  let '(t, buf, olds) := strtok SPACE (p_buf p) (p_olds p) in
  (t, {| p_buf := buf; p_olds := olds; p_args := p_args p;
         p_inputFile := p_inputFile p; p_outputFile := p_outputFile p;
         p_background := p_background p |}).

Definition set_inputFile (t : option nat) (p : parser) : parser :=
  {| p_buf := p_buf p; p_olds := p_olds p; p_args := p_args p;
     p_inputFile := t; p_outputFile := p_outputFile p;
     p_background := p_background p |}.

Definition set_outputFile (t : option nat) (p : parser) : parser :=
  {| p_buf := p_buf p; p_olds := p_olds p; p_args := p_args p;
     p_inputFile := p_inputFile p; p_outputFile := t;
     p_background := p_background p |}.

Definition set_background (b : Z) (p : parser) : parser :=
  {| p_buf := p_buf p; p_olds := p_olds p; p_args := p_args p;
     p_inputFile := p_inputFile p; p_outputFile := p_outputFile p;
     p_background := b |}.

Definition push_arg (a : option string) (p : parser) : parser :=
  {| p_buf := p_buf p; p_olds := p_olds p; p_args := p_args p ++ [a];
     p_inputFile := p_inputFile p; p_outputFile := p_outputFile p;
     p_background := p_background p |}.

Section Parser.

(** The shell-wide flag as [parseInput] reads it, the answer of
    [getpid()], and the fate of the allocation made for argument [k]. *)
Variable fgOnlyMode : Z.
Variable pid : Z.
Variable heap : nat -> bool.

(** The body of the [while] loop for the token at [tok]: the events of
    the round, and either the end of the process or the token for the next
    round with the variables as the round leaves them. *)
Definition parse_body (tok : nat) (p : parser)
  : list event * outcome (option nat * parser) :=
  if streq (c_str (p_buf p) tok) "<" then
    let '(t, p1) := next_token p in
    ([], Returns (next_token (set_inputFile t p1)))
  else if streq (c_str (p_buf p) tok) ">" then
    let '(t, p1) := next_token p in
    ([], Returns (next_token (set_outputFile t p1)))
  else
    (* [strcmp(token, "&") == 0 && strtok(NULL, " ") == NULL]: the second
       call is made only for an ampersand, and it consumes a token *)
    let '(last_amp, p1) :=
      if streq (c_str (p_buf p) tok) "&" then
        let '(t, p') := next_token p in
        (match t with None => true | Some _ => false end, p')
      else (false, p) in
    if last_amp then
      ([], Returns (next_token
                      (if (fgOnlyMode =? 0)%Z then set_background 1 p1 else p1)))
    else
      match expandPID pid (heap (length (p_args p1))) (c_str (p_buf p1) tok) with
      | (tr, Exits code) => (tr, Exits code)
      | (tr, Returns expanded) => (tr, Returns (next_token (push_arg expanded p1)))
      end.

(** The [while] loop.  Every round moves on to a later token, so the
    length of the buffer bounds the rounds; [None] means the fuel was too
    small. *)
Fixpoint parse_loop (fuel : nat) (token : option nat) (p : parser)
  : option (list event * outcome parser) :=
  match token with
  | None => Some ([], Returns p)
  | Some tok =>
      if negb (length (p_args p) <? MAX_ARGS - 1)%nat then Some ([], Returns p)
      else
        match fuel with
        | O => None
        | S fuel' =>
            match parse_body tok p with
            | (tr, Exits code) => Some (tr, Exits code)
            | (tr, Returns (next, p')) =>
                match parse_loop fuel' next p' with
                | Some (tr', r) => Some ((tr ++ tr')%list, r)
                | None => None
                end
            end
        end
  end.

(** What [parseInput] leaves behind: its return value, the buffer as
    [strtok] rewrote it, the arguments up to the terminating [NULL], and
    the three locations of the caller. *)
Record parsed := {
  r_ret : Z;
  r_input : list ascii;
  r_args : list (option string);
  r_inputFile : option nat;
  r_outputFile : option nat;
  r_background : Z }.

(** [args[i]], with the terminating [NULL] at [argCount]. *)
Definition arg (args : list (option string)) (i : nat) : option string :=
  mjoin (args !! i).

(** [args[0] == NULL || args[0][0] == '#' ? 0 : 1] *)
Definition parse_verdict (args : list (option string)) : Z :=
  match arg args 0 with
  | None => 0
  | Some (String c _) => if Ascii.eqb c "#"%char then 0 else 1
  | Some EmptyString => 1
  end.

Definition parseInput (input : list ascii) (inputFile outputFile : option nat)
    (background : Z) : option (list event * outcome parsed) :=
  let background := 0%Z in   (* *background = 0 *)
  let '(token, p) :=
    next_token {| p_buf := input; p_olds := 0; p_args := [];
                  p_inputFile := inputFile; p_outputFile := outputFile;
                  p_background := background |} in
  match parse_loop (length input) token p with
  | None => None
  | Some (tr, Exits code) => Some (tr, Exits code)
  | Some (tr, Returns q) =>
      Some (tr, Returns {| r_ret := parse_verdict (p_args q);
                           r_input := p_buf q;
                           r_args := p_args q;
                           r_inputFile := p_inputFile q;
                           r_outputFile := p_outputFile q;
                           r_background := p_background q |})
  end.

End Parser.

(** The buffer after [fgets] and [input[strcspn(input, "\n")] = '\0']. *)
Definition read_line (buf : list ascii) (pending : string) : list ascii :=
  let b := fgets buf pending in
  <[strcspn LF b := NUL]> b.

Definition blank : list ascii := replicate MAX_CMD_LEN NUL.

(** ** The globals and the signal handler *)

Record globals := {
  fgOnlyMode : Z;
  lastStatus : Z }.

Definition msg_entering : string :=
  nl +:+ "Entering foreground-only mode (& is now ignored)" +:+ nl.
Definition msg_exiting : string :=
  nl +:+ "Exiting foreground-only mode" +:+ nl.

(** [handle_SIGTSTP]; [write_ok] tells whether its [write] succeeds. *)
Definition handle_SIGTSTP (write_ok : bool) (g : globals) : list event * globals :=
  if (fgOnlyMode g =? 0)%Z then
    (RawWrite STDOUT_FILENO msg_entering :: (if write_ok then [] else [Perror "write"]),
     {| fgOnlyMode := 1; lastStatus := lastStatus g |})
  else
    (RawWrite STDOUT_FILENO msg_exiting :: (if write_ok then [] else [Perror "write"]),
     {| fgOnlyMode := 0; lastStatus := lastStatus g |}).

(** Several deliveries of the signal, one after the other. *)
Fixpoint deliver (writes : list bool) (g : globals) : list event * globals :=
  match writes with
  | [] => ([], g)
  | ok :: rest =>
      let '(tr, g1) := handle_SIGTSTP ok g in
      let '(tr', g2) := deliver rest g1 in
      ((tr ++ tr')%list, g2)
  end.

(** ** Deliveries at any time *)

(** [SIGTSTP] is handled whenever it arrives, so the handler can run
    between any two steps of the code below.  A [schedule] gives, for the
    successive points at which a piece of code can be interrupted, the
    deliveries handled there, one boolean per delivery (whether the
    [write] of the handler succeeds); when it is used up nothing more
    arrives.  The signal is blocked while it is handled, so the handler
    runs to its end before the interrupted code goes on. *)
Definition schedule : Type := list (list bool).

Record machine := {
  m_globals : globals;
  m_pending : schedule }.

(** What the handler does at the next point of interruption, and the
    machine behind that point. *)
Definition handled (m : machine) : list event :=
  fst (deliver (hd [] (m_pending m)) (m_globals m)).

Definition after (m : machine) : machine :=
  {| m_globals := snd (deliver (hd [] (m_pending m)) (m_globals m));
     m_pending := tl (m_pending m) |}.

(** Code that runs on the globals and can be interrupted. *)
Definition action (A : Type) : Type := machine -> list event * A * machine.

Definition ret {A : Type} (a : A) : action A := fun m => ([], a, m).

Definition bind {A B : Type} (x : action A) (f : A -> action B) : action B :=
  fun m =>
    let '(tr, a, m1) := x m in
    let '(tr', b, m2) := f a m1 in
    ((tr ++ tr')%list, b, m2).

Declare Scope action_scope.
Delimit Scope action_scope with action.
Notation "x <- c1 ;; c2" := (bind c1 (fun x => c2))
  (at level 100, c1 at next level, right associativity) : action_scope.
Notation "c1 ;; c2" := (bind c1 (fun _ => c2))
  (at level 100, right associativity) : action_scope.
Local Open Scope action_scope.

(** A point of interruption on its own; a call of the library or of the
    system, and a read of [fgOnlyMode], each behind a point of
    interruption; the store of a wait status into [lastStatus]. *)
Definition interrupt : action unit := fun m => (handled m, tt, after m).

Definition call (e : event) : action unit :=
  fun m => ((handled m ++ [e])%list, tt, after m).

Definition read_fgOnlyMode : action Z :=
  fun m => (handled m, fgOnlyMode (m_globals (after m)), after m).

Definition store_lastStatus (status : Z) : action unit :=
  fun m => ([], tt,
            {| m_globals := {| fgOnlyMode := fgOnlyMode (m_globals m);
                               lastStatus := status |};
               m_pending := m_pending m |}).

Fixpoint calls (es : list event) : action unit :=
  match es with
  | [] => ret tt
  | e :: rest => call e ;; calls rest
  end.

(** ** The two reaper loops *)

(** The answer of [waitpid(-1, .., WNOHANG)] once no terminated child is
    left: [-1] without children, [0] while some still run. *)
Definition idle_answer (no_children : bool) : Z := if no_children then (-1) else 0.

(** The calls of lines 418-431, the report for one reaped child. *)
Definition report_done (pid : Z) (childStatus : Z) : list event :=
  (Printf ("background pid " +:+ format_d pid +:+ " is done: ")
   :: (if WIFEXITED childStatus then
         [Printf ("exit value " +:+ format_d (WEXITSTATUS childStatus) +:+ nl)]
       else if WIFSIGNALED childStatus then
         [Printf ("terminated by signal " +:+ format_d (WTERMSIG childStatus) +:+ nl)]
       else []) ++ [Fflush])%list.

(** [checkBackgroundProcesses]; [zombies] are the terminated children the
    kernel holds, in the order it hands them out.  Line 417 reads the
    flag anew for every child. *)
Fixpoint checkBackgroundProcesses (zombies : list (positive * termination))
    (no_children : bool) : action unit :=
  match zombies with
  | [] => call (WaitpidAny true WNOHANG (idle_answer no_children))
  | (pid, t) :: rest =>
      call (WaitpidAny true WNOHANG (Z.pos pid)) ;;
      mode <- read_fgOnlyMode ;;
      (if (mode =? 0)%Z then calls (report_done (Z.pos pid) (wstatus t)) else ret tt) ;;
      checkBackgroundProcesses rest no_children
  end.

(** [killBackgroundProcesses] *)
Fixpoint killBackgroundProcesses (zombies : list positive) (no_children : bool)
  : list event :=
  match zombies with
  | [] => [WaitpidAny false WNOHANG (idle_answer no_children)]
  | pid :: rest =>
      WaitpidAny false WNOHANG (Z.pos pid) :: Kill (Z.pos pid) SIGKILL
      :: killBackgroundProcesses rest no_children
  end.

(** ** The helpers for the builtins *)

(** [chdir(path)] against the directories that can be entered; a [NULL]
    path fails. *)
Definition chdir (dirs : string -> bool) (path : option string) : Z :=
  match path with
  | Some d => if dirs d then 0 else (-1)
  | None => (-1)
  end.

(** [changeDirectory] *)
Definition changeDirectory (dirs : string -> bool) (home : option string)
    (args : list (option string)) : list event :=
  match arg args 1 with
  | None => [Chdir home (chdir dirs home)]
  | Some d =>
      Chdir (Some d) (chdir dirs (Some d))
      :: (if (chdir dirs (Some d) =? 0)%Z then [] else [Perror "smallsh"])
  end.

(** [displayStatus] *)
Definition displayStatus (g : globals) : list event :=
  [ if WIFEXITED (lastStatus g) then
      Printf ("exit value " +:+ format_d (WEXITSTATUS (lastStatus g)) +:+ nl)
    else
      Printf ("terminated by signal " +:+ format_d (WTERMSIG (lastStatus g)) +:+ nl);
    Fflush ].

(** ** [executeCommand] *)

(** The value of [background] after lines 281-285. *)
Definition effective_background (g : globals) (background : Z) : Z :=
  if (fgOnlyMode g =? 1)%Z then 0 else background.

(** What the child does with a given [background]. *)
Definition child_setup (args : list (option string))
    (inputFile outputFile : option string) (background : Z) : spawn :=
  {| sp_sigint_ignored := negb (background =? 0)%Z;
     sp_stdin := match inputFile with
                 | Some path => FromPath path
                 | None => if (background =? 0)%Z then Inherit else DevNull
                 end;
     sp_stdout := match outputFile with
                  | Some path => FromPath path
                  | None => if (background =? 0)%Z then Inherit else DevNull
                  end;
     sp_argv := args |}.

(** Lines 287-380 as the parent runs them, with the child and the value
    of [background] that lines 281-285 left.  [fork_answer] is [None]
    when [fork] fails and the child's identity otherwise; [fate] is how a
    child that is waited for ends.  Line 366 reads the flag only when
    [background] is not 0.  The event of a call stands for its return:
    what is delivered while [waitpid] waits is handled before it, the
    call being restarted ([SA_RESTART]); [waitpid] itself stores the
    status into [lastStatus], and one more point of interruption lies
    between its return and the test of line 373. *)
Definition fork_and_wait (child : spawn) (background : Z)
    (fork_answer : option positive) (fate : termination)
  : action (outcome unit) :=
  match fork_answer with
  | None => call (Fork child (-1)) ;; call (Perror "fork") ;; ret (Exits 1)
  | Some spawnpid =>
      call (Fork child (Z.pos spawnpid)) ;;
      in_background <- (if (background =? 0)%Z then ret false
                        else mode <- read_fgOnlyMode ;; ret (mode =? 0)%Z) ;;
      if in_background : bool then
        call (Printf ("background pid is " +:+ format_d (Z.pos spawnpid) +:+ nl)) ;;
        call Fflush ;;
        ret (Returns tt)
      else
        let status := wstatus fate in
        call (WaitpidChild (Z.pos spawnpid) 0) ;;
        store_lastStatus status ;;
        interrupt ;;
        (if WIFSIGNALED status then
           call (Printf ("terminated by signal " +:+ format_d (WTERMSIG status) +:+ nl)) ;;
           call Fflush
         else ret tt) ;;
        ret (Returns tt)
  end.

(** [g] holds the globals when line 281 tests the flag, [pending] the
    deliveries at the points of interruption behind that test.  The
    paths are the strings the two pointers denote when the call is
    made. *)
Definition executeCommand (g : globals) (pending : schedule)
    (args : list (option string))
    (inputFile outputFile : option string) (background : Z)
    (fork_answer : option positive) (fate : termination)
  : list event * outcome globals :=
  let background := effective_background g background in
  let child := child_setup args inputFile outputFile background in
  let '(tr, o, m) :=
    fork_and_wait child background fork_answer fate
      {| m_globals := g; m_pending := pending |} in
  (tr, match o with
       | Returns _ => Returns (m_globals m)
       | Exits code => Exits code
       end).

(** ** [main] *)

(** The globals together with the variables of [main] that live across
    rounds of its loop.  [args] is rewritten by every call of [parseInput]
    before it is read, so it is not part of the state. *)
Record shell := {
  sh_globals : globals;
  sh_input : list ascii;
  sh_inputFile : option nat;
  sh_outputFile : option nat;
  sh_background : Z }.

Definition initial_shell (stack_garbage : list ascii) : shell :=
  {| sh_globals := {| fgOnlyMode := 0; lastStatus := 0 |};
     sh_input := stack_garbage;
     sh_inputFile := None;
     sh_outputFile := None;
     sh_background := 0 |}.

(** Everything the outside decides during one round of the loop.  The
    four fields for [SIGTSTP] cover the round: [w_tstp_sweep] has one
    entry for each point of interruption of the sweep and of the prompt;
    [w_tstp_reading] holds the deliveries from there on, while [fgets]
    waits and until [parseInput] has read the flag; [w_tstp_dispatch]
    those between that read and the next thing the round does, which is
    the call of a builtin or the test of line 281; [w_tstp_launch] has
    one entry for each point of interruption of [executeCommand] behind
    that test.  What is delivered behind the last call of a round is
    handled before the first call of the next one, and is the first
    entry of its [w_tstp_sweep]. *)
Record world := {
  w_zombies : list (positive * termination);  (* terminated children at the sweep *)
  w_no_children : bool;                       (* no child at all is left after it *)
  w_tstp_sweep : schedule;                    (* deliveries during the sweep and the prompt *)
  w_tstp_reading : list bool;                 (* deliveries while [fgets] waits *)
  w_line : option string;                     (* the text [fgets] finds; [None] at end of file *)
  w_heap : nat -> bool;                       (* fate of the allocation for argument [k] *)
  w_tstp_dispatch : list bool;                (* deliveries between parsing and dispatch *)
  w_tstp_launch : schedule;                   (* deliveries during [executeCommand] *)
  w_home : option string;                     (* [getenv("HOME")] *)
  w_dirs : string -> bool;                    (* directories [chdir] can enter *)
  w_fork : option positive;                   (* answer of [fork] in the parent *)
  w_fate : termination }.                     (* end of a child that is waited for *)

(** How a round ends: the loop goes on, or the process is over with an
    exit code. *)
Inductive step :=
| Continue (s : shell)
| Terminated (code : Z).

(** The string a pointer into the line buffer denotes. *)
Definition deref (buf : list ascii) (p : option nat) : option string :=
  option_map (c_str buf) p.

(** Lines 98-105: the sweep, the prompt, and the wait for a line in
    [fgets]; the trace, and the globals when [fgets] returns. *)
Definition read_round (s : shell) (w : world) : list event * globals :=
  let '(tr, _, m) :=
    (checkBackgroundProcesses (w_zombies w) (w_no_children w) ;;
     call (Printf ": ") ;;
     call Fflush)
      {| m_globals := sh_globals s; m_pending := w_tstp_sweep w |} in
  let '(tr_sig, g) := deliver (w_tstp_reading w) (m_globals m) in
  ((tr ++ tr_sig)%list, g).

Section Main.

Variable pid : Z.   (* getpid() *)

(** Lines 118-136: the builtins, the launcher, and the reset after them. *)
Definition dispatch (w : world) (g : globals) (r : parsed) (cmd : string)
  : list event * step :=
  let reset g' :=
    Continue {| sh_globals := g'; sh_input := r_input r;
                sh_inputFile := None; sh_outputFile := None;
                sh_background := 0 |} in
  if streq cmd "exit" then ([], Terminated 0)
  else if streq cmd "cd" then
    let path := match arg (r_args r) 1 with
                | Some d => Some d
                | None => w_home w
                end in
    ([Chdir path (chdir (w_dirs w) path)], reset g)
  else if streq cmd "status" then
    ([Printf ("exit value " +:+ format_d (WEXITSTATUS (lastStatus g)) +:+ nl)], reset g)
  else
    match executeCommand g (w_tstp_launch w) (r_args r)
            (deref (r_input r) (r_inputFile r)) (deref (r_input r) (r_outputFile r))
            (r_background r) (w_fork w) (w_fate w) with
    | (tr, Exits code) => (tr, Terminated code)
    | (tr, Returns g') => (tr, reset g')
    end.

(** One round of [while (1)], lines 96-137. *)
Definition main_iteration (s : shell) (w : world) : option (list event * step) :=
  let '(tr_head, g) := read_round s w in
  match w_line w with
  | None =>
      Some (tr_head,
            Continue {| sh_globals := g; sh_input := sh_input s;
                        sh_inputFile := sh_inputFile s;
                        sh_outputFile := sh_outputFile s;
                        sh_background := sh_background s |})
  | Some pending =>
      let buf := read_line (sh_input s) pending in
      match parseInput (fgOnlyMode g) pid (w_heap w) buf
              (sh_inputFile s) (sh_outputFile s) (sh_background s) with
      | None => None
      | Some (tr_parse, Exits code) =>
          Some ((tr_head ++ tr_parse)%list, Terminated code)
      | Some (tr_parse, Returns r) =>
          let '(tr_sig', g') := deliver (w_tstp_dispatch w) g in
          let skipped :=
            Continue {| sh_globals := g'; sh_input := r_input r;
                        sh_inputFile := r_inputFile r;
                        sh_outputFile := r_outputFile r;
                        sh_background := r_background r |} in
          let before := (tr_head ++ tr_parse ++ tr_sig')%list in
          if (r_ret r =? 0)%Z then Some (before, skipped)
          else
            match arg (r_args r) 0 with
            | None => Some (before, skipped)   (* not reached: a null args[0] returns 0 *)
            | Some cmd =>
                let '(tr, st) := dispatch w g' r cmd in
                Some ((before ++ tr)%list, st)
            end
      end
  end.

(** The loop over successive rounds, until the process ends or the
    supplied rounds are used up. *)
Fixpoint run (s : shell) (ws : list world) : option (list event * step) :=
  match ws with
  | [] => Some ([], Continue s)
  | w :: rest =>
      match main_iteration s w with
      | None => None
      | Some (tr, Terminated code) => Some (tr, Terminated code)
      | Some (tr, Continue s') =>
          match run s' rest with
          | None => None
          | Some (tr', st) => Some ((tr ++ tr')%list, st)
          end
      end
  end.

End Main.

(** A quiet round that reads [line]: nothing to reap, no signal, every
    allocation and the fork succeed, and a child that is waited for ends
    as [fate]. *)
Definition typed (line : string) (fate : termination) : world :=
  {| w_zombies := []; w_no_children := true; w_tstp_sweep := []; w_tstp_reading := [];
     w_line := Some (line +:+ nl); w_heap := fun _ => true;
     w_tstp_dispatch := []; w_tstp_launch := []; w_home := Some "/root";
     w_dirs := fun d => String.eqb d "/root" || String.eqb d "/tmp";
     w_fork := Some 4243%positive; w_fate := fate |}.

(** * The vocabulary of the statements *)

(** ** Strings and lines *)

(** A string contains the needle when it splits around it. *)
Definition occurs_in (needle s : string) : Prop :=
  exists a b, s = a +:+ needle +:+ b.

(** The words of the C string held in [cells]: maximal runs of characters
    other than the space, up to the first [NUL]. *)
Fixpoint tokens (cells : list ascii) : list string :=
  match cells with
  | [] => []
  | c :: rest =>
      if is_nul c then []
      else if Ascii.eqb c SPACE then tokens rest
      else
        match rest with
        | c' :: _ =>
            if is_nul c' || Ascii.eqb c' SPACE then String c "" :: tokens rest
            else match tokens rest with
                 | w :: ws => String c w :: ws
                 | [] => [String c ""]
                 end
        | [] => [String c ""]
        end
  end.

(** The words that are still to be handled when a round starts: the
    current token and what [strtok] has not looked at yet. *)
Definition ahead (token : option nat) (p : parser) : list string :=
  (match token with Some s => [c_str (p_buf p) s] | None => [] end
   ++ tokens (drop (p_olds p) (p_buf p)))%list.

(** The token at [tok] ends at a [NUL] that [strtok] has already passed:
    what it writes later cannot change the token. *)
Definition terminated (buf : list ascii) (tok olds : nat) : Prop :=
  exists j, tok <= j /\ j <= olds /\ is_nul (peek buf j) = true.

(** ** Traces *)

(** The raw writes of a trace, in order. *)
Definition raw_writes (tr : list event) : list (Z * string) :=
  flat_map (fun e => match e with RawWrite fd text => [(fd, text)] | _ => [] end) tr.

(** The answers of the polls for any child, the waits that could block
    (a [waitpid] without [WNOHANG]; the read of the line is no event of a
    trace), and the text sent to buffered output. *)
Definition poll_answers (tr : list event) : list Z :=
  flat_map (fun e => match e with WaitpidAny _ _ ret => [ret] | _ => [] end) tr.

Definition may_block (e : event) : bool :=
  match e with
  | WaitpidAny _ options _ => negb (options =? WNOHANG)%Z
  | WaitpidChild _ options => negb (options =? WNOHANG)%Z
  | _ => false
  end.

Definition printed (tr : list event) : list string :=
  flat_map (fun e => match e with Printf text => [text] | _ => [] end) tr.

(** The children forked in a trace. *)
Definition spawned (tr : list event) : list spawn :=
  flat_map (fun e => match e with Fork child _ => [child] | _ => [] end) tr.

(** The calls that only the shutdown loop makes: a poll that asks for no
    status, and a kill. *)
Definition shutdown_calls (tr : list event) : list event :=
  List.filter (fun e => match e with
                        | WaitpidAny false _ _ | Kill _ _ => true
                        | _ => false
                        end) tr.

Definition outcome_text (t : termination) : string :=
  match t with
  | Exited code => "exit value " +:+ format_d code +:+ nl
  | Signaled sig _ => "terminated by signal " +:+ format_d sig +:+ nl
  end.

(** What the shell says about one finished background child. *)
Definition completion_text (z : positive * termination) : list string :=
  ["background pid " +:+ format_d (Z.pos (fst z)) +:+ " is done: "; outcome_text (snd z)].

(** ** Rounds of the main loop *)

(** The parse of the line of a round, as [main] calls it after the
    signals that arrived during the read. *)
Definition round_parse (pid : Z) (s : shell) (w : world)
  : option (list event * outcome parsed) :=
  match w_line w with
  | None => None
  | Some pending =>
      parseInput (fgOnlyMode (snd (read_round s w)))
        pid (w_heap w) (read_line (sh_input s) pending)
        (sh_inputFile s) (sh_outputFile s) (sh_background s)
  end.

Definition is_builtin (cmd : string) : bool :=
  streq cmd "exit" || streq cmd "cd" || streq cmd "status".

(** A round in which a background child is still running. *)
Definition typed_with_job (line : string) : world :=
  {| w_zombies := []; w_no_children := false; w_tstp_sweep := []; w_tstp_reading := [];
     w_line := Some (line +:+ nl); w_heap := fun _ => true;
     w_tstp_dispatch := []; w_tstp_launch := []; w_home := Some "/root";
     w_dirs := fun d => String.eqb d "/root" || String.eqb d "/tmp";
     w_fork := Some 4243%positive; w_fate := Exited 0 |}.



(** The shell as some rounds leave it. *)
Definition shell_after (pid : Z) (s : shell) (ws : list world) : shell :=
  match run pid s ws with
  | Some (_, Continue s') => s'
  | _ => s
  end.

(** The parse of a round, when there is one. *)
Definition parsed_of (x : option (list event * outcome parsed)) : option parsed :=
  match x with
  | Some (_, Returns r) => Some r
  | _ => None
  end.

(** ** Three readings that are too strong *)



(** After the skipped line [line1], the command [line2] runs with its
    input taken from the file [path] named on the skipped line. *)
Definition skipped_path_applies (pid : Z) (line1 line2 path : string) : Prop :=
  exists tr st child,
    run pid (initial_shell blank) [typed line1 (Exited 0); typed line2 (Exited 0)]
    = Some (tr, st)
    /\ spawned tr = [child] /\ sp_stdin child = FromPath path.

(** ** The parser read on the words of the line *)

(** What one call of [parseInput] did to [*inputFile] or [*outputFile]:
    left it alone, stored [NULL], or stored a pointer to a word. *)
Inductive slot :=
| Kept
| Null
| Points (word : string).

(** The variables of [parseInput] without the buffer: the arguments so
    far, the two locations, and [*background]. *)
Record words_state := {
  ws_args : list (option string);
  ws_in : slot;
  ws_out : slot;
  ws_bg : Z }.

Definition with_in (x : slot) (st : words_state) : words_state :=
  {| ws_args := ws_args st; ws_in := x; ws_out := ws_out st; ws_bg := ws_bg st |}.

Definition with_out (x : slot) (st : words_state) : words_state :=
  {| ws_args := ws_args st; ws_in := ws_in st; ws_out := x; ws_bg := ws_bg st |}.

Definition with_bg (b : Z) (st : words_state) : words_state :=
  {| ws_args := ws_args st; ws_in := ws_in st; ws_out := ws_out st; ws_bg := b |}.

Definition with_arg (a : option string) (st : words_state) : words_state :=
  {| ws_args := ws_args st ++ [a]; ws_in := ws_in st; ws_out := ws_out st;
     ws_bg := ws_bg st |}.

Section WordsParser.

Variable fg : Z.
Variable pid : Z.
Variable heap : nat -> bool.

(** The loop of lines 154-190 when the successive answers of [strtok] are
    the words [toks]: the word after ["<"] or [">"] is taken as the path,
    the word after an ampersand is taken by the test for "last", and every
    other word is expanded and stored. *)
Fixpoint parse_words (toks : list string) (st : words_state)
  : list event * outcome words_state :=
  match toks with
  | [] => ([], Returns st)
  | t :: rest =>
      if negb (length (ws_args st) <? MAX_ARGS - 1)%nat then ([], Returns st)
      else if streq t "<" then
        match rest with
        | [] => ([], Returns (with_in Null st))
        | f :: rest' => parse_words rest' (with_in (Points f) st)
        end
      else if streq t ">" then
        match rest with
        | [] => ([], Returns (with_out Null st))
        | f :: rest' => parse_words rest' (with_out (Points f) st)
        end
      else if streq t "&" then
        match rest with
        | [] => ([], Returns (if (fg =? 0)%Z then with_bg 1 st else st))
        | _ :: rest' =>
            match expandPID pid (heap (length (ws_args st))) t with
            | (tr, Exits code) => (tr, Exits code)
            | (tr, Returns expanded) =>
                let '(tr', o) := parse_words rest' (with_arg expanded st) in
                ((tr ++ tr')%list, o)
            end
        end
      else
        match expandPID pid (heap (length (ws_args st))) t with
        | (tr, Exits code) => (tr, Exits code)
        | (tr, Returns expanded) =>
            let '(tr', o) := parse_words rest (with_arg expanded st) in
            ((tr ++ tr')%list, o)
        end
  end.

End WordsParser.

(** A location of [main] after the call, against what the call did to it:
    [before] is the pointer the call found there. *)
Definition denotes (buf : list ascii) (before after : option nat) (x : slot) : Prop :=
  match x with
  | Kept => after = before
  | Null => after = None
  | Points word => exists off, after = Some off /\ c_str buf off = word
  end.

(** The same while the loop runs: a word pointed to has its end behind
    it. *)
Definition slot_of (buf : list ascii) (olds : nat) (before now : option nat)
    (x : slot) : Prop :=
  match x with
  | Kept => now = before
  | Null => now = None
  | Points word =>
      exists off, now = Some off /\ c_str buf off = word /\ terminated buf off olds
  end.

Definition related (inF outF : option nat) (p : parser) (st : words_state) : Prop :=
  ws_args st = p_args p /\ ws_bg st = p_background p
  /\ slot_of (p_buf p) (p_olds p) inF (p_inputFile p) (ws_in st)
  /\ slot_of (p_buf p) (p_olds p) outF (p_outputFile p) (ws_out st).

(** Where the loop stands: its current token has its end behind it, or
    no word is left. *)
Definition cursor_ok (token : option nat) (p : parser) : Prop :=
  match token with
  | Some tok => terminated (p_buf p) tok (p_olds p)
  | None => tokens (drop (p_olds p) (p_buf p)) = []
  end.

(** The word-level state a call starts from, and a result of the call
    against a result of the loop over the words. *)
Definition initial_words : words_state :=
  {| ws_args := []; ws_in := Kept; ws_out := Kept; ws_bg := 0 |}.

Definition parsed_matches (inF outF : option nat) (o : outcome parsed)
    (o' : outcome words_state) : Prop :=
  match o, o' with
  | Returns r, Returns st =>
      r_args r = ws_args st /\ r_background r = ws_bg st
      /\ r_ret r = parse_verdict (ws_args st)
      /\ denotes (r_input r) inF (r_inputFile r) (ws_in st)
      /\ denotes (r_input r) outF (r_outputFile r) (ws_out st)
  | Exits c, Exits c' => c = c'
  | _, _ => False
  end.

(** The text [expandPID] makes of a word when its allocation succeeds. *)
Definition expand_word (pid : Z) (w : string) : string :=
  match strstr w "$$" with
  | None => w
  | Some k => string_take k w +:+ format_d pid +:+ string_drop (k + 2) w
  end.

Definition is_operator (w : string) : bool :=
  streq w "<" || streq w ">" || streq w "&".

(** A word that is none of the three operators. *)
Definition plain (w : string) : Prop := is_operator w = false.

(** [n] copies of a word, each followed by a space. *)
Fixpoint repeat_word (n : nat) (w : string) : string :=
  match n with
  | O => EmptyString
  | S n' => w +:+ " " +:+ repeat_word n' w
  end.

(** The words [op path] of a redirection, when there is one. *)
Definition redirection (op : string) (path : option string) : list string :=
  match path with
  | Some f => [op; f]
  | None => []
  end.

Definition starts_with (c : ascii) (w : string) : bool :=
  match w with
  | String c' _ => Ascii.eqb c' c
  | EmptyString => false
  end.

(** The text of a line as the shell sees it: the characters before the
    first line feed or [NUL]. *)
Fixpoint line_of (s : string) : string :=
  match s with
  | EmptyString => EmptyString
  | String c rest =>
      if is_nul c || Ascii.eqb c LF then EmptyString else String c (line_of rest)
  end.

(** Typed text: a word is a non-empty run of characters other than the
    space, the line feed and [NUL]; [unwords] puts single spaces between
    words. *)
Definition word_char (c : ascii) : bool :=
  negb (is_nul c || Ascii.eqb c SPACE || Ascii.eqb c LF).

Definition line_char (c : ascii) : bool := negb (is_nul c || Ascii.eqb c LF).

Fixpoint all_chars (p : ascii -> bool) (s : string) : bool :=
  match s with
  | EmptyString => true
  | String c rest => p c && all_chars p rest
  end.

Definition is_word (w : string) : Prop :=
  w <> EmptyString /\ all_chars word_char w = true.

Fixpoint unwords (ws : list string) : string :=
  match ws with
  | [] => EmptyString
  | w :: rest =>
      match rest with
      | [] => w
      | _ :: _ => w +:+ " " +:+ unwords rest
      end
  end.

(** ** More on traces and rounds *)

(** The children the shell waits for, and the children it signals. *)
Definition waited (tr : list event) : list Z :=
  flat_map (fun e => match e with WaitpidChild pid _ => [pid] | _ => [] end) tr.

Definition killed (tr : list event) : list (Z * Z) :=
  flat_map (fun e => match e with Kill pid sig => [(pid, sig)] | _ => [] end) tr.

(** The globals when the line of a round has been read, and when its
    command is dispatched. *)
Definition globals_at_read (s : shell) (w : world) : globals :=
  snd (read_round s w).

Definition globals_at_dispatch (s : shell) (w : world) : globals :=
  snd (deliver (w_tstp_dispatch w) (globals_at_read s w)).

(** The globals that line 366 of [executeCommand] finds when the call
    started on [g]: two points of interruption lie before the test, the
    one before [fork] and the one before the read of the flag. *)
Definition globals_at_parent (g : globals) (pending : schedule) : globals :=
  m_globals (after (after {| m_globals := g; m_pending := pending |})).

(** The trace of a round up to the end of the read, and up to the
    dispatch of its command. *)
Definition round_head (s : shell) (w : world) : list event :=
  fst (read_round s w).

Definition round_prefix (s : shell) (w : world) : list event :=
  (round_head s w ++ fst (deliver (w_tstp_dispatch w) (globals_at_read s w)))%list.

(** The shell as a round leaves it: at the end of the input, when the
    line is skipped, and after a dispatch that left the globals [g]. *)
Definition shell_at_eof (s : shell) (w : world) : shell :=
  {| sh_globals := globals_at_read s w; sh_input := sh_input s;
     sh_inputFile := sh_inputFile s; sh_outputFile := sh_outputFile s;
     sh_background := sh_background s |}.

Definition shell_skipping (s : shell) (w : world) (r : parsed) : shell :=
  {| sh_globals := globals_at_dispatch s w; sh_input := r_input r;
     sh_inputFile := r_inputFile r; sh_outputFile := r_outputFile r;
     sh_background := r_background r |}.

Definition shell_reset (g : globals) (r : parsed) : shell :=
  {| sh_globals := g; sh_input := r_input r;
     sh_inputFile := None; sh_outputFile := None; sh_background := 0 |}.

(** The four ways through one round of the loop: no line to read, an
    allocation that fails in the parser, a line that is skipped, and a
    command that is dispatched. *)
Inductive round_shape (pid : Z) (s : shell) (w : world)
  : list event -> step -> Prop :=
| EndOfInput :
    w_line w = None ->
    round_shape pid s w (round_head s w) (Continue (shell_at_eof s w))
| ParserExit :
    round_parse pid s w = Some ([Perror "malloc"], Exits 1) ->
    round_shape pid s w (round_head s w ++ [Perror "malloc"]) (Terminated 1)
| LineSkipped (r : parsed) :
    round_parse pid s w = Some ([], Returns r) ->
    r_ret r = 0%Z ->
    round_shape pid s w (round_prefix s w) (Continue (shell_skipping s w r))
| CommandDispatched (r : parsed) (cmd : string) (tr : list event) (st : step) :
    round_parse pid s w = Some ([], Returns r) ->
    r_ret r <> 0%Z ->
    arg (r_args r) 0 = Some cmd ->
    dispatch w (globals_at_dispatch s w) r cmd = (tr, st) ->
    round_shape pid s w (round_prefix s w ++ tr) st.

(** The system calls a round may make: polls for any child ask for the
    status and never block, the only wait for one child is the wait for
    the child the round forked, and no signal is sent. *)
Definition round_call_ok (w : world) (e : event) : bool :=
  match e with
  | WaitpidAny want_status options _ => want_status && (options =? WNOHANG)%Z
  | WaitpidChild p options =>
      (options =? 0)%Z
      && match w_fork w with
         | Some child => (p =? Z.pos child)%Z
         | None => false
         end
  | Kill _ _ => false
  | _ => true
  end.

(** Whether the child of a round is set up for the background: the
    line ends with the ampersand, and the flag is off both when the
    parser reads it and when line 281 of [executeCommand] does. *)
Definition runs_in_background (s : shell) (w : world) (amp : bool) : bool :=
  amp && (fgOnlyMode (globals_at_read s w) =? 0)%Z
  && (fgOnlyMode (globals_at_dispatch s w) =? 0)%Z.

(** Whether the parent leaves the child of a round in the background:
    the child was set up for it, and the flag is still off when line 366
    reads it. *)
Definition left_in_background (s : shell) (w : world) (amp : bool) : bool :=
  runs_in_background s w amp
  && (fgOnlyMode (globals_at_parent (globals_at_dispatch s w) (w_tstp_launch w)) =? 0)%Z.

(** The standard stream of a child: the file named on the line, else the
    null device in the background and the shell's own stream in the
    foreground. *)
Definition stream_of (path : option string) (in_background : bool) : redirect :=
  match path with
  | Some f => FromPath f
  | None => if in_background then DevNull else Inherit
  end.

(** Output, and polls that ask for the status and do not block: all
    that happens in a round outside the dispatch of its command. *)
Definition passive (e : event) : bool :=
  match e with
  | Printf _ | Fflush | RawWrite _ _ | Perror _ => true
  | WaitpidAny want_status options _ => want_status && (options =? WNOHANG)%Z
  | _ => false
  end.

(** A round in which the signal arrives: [reading] while the shell
    waits for the line, [dispatch] between the parse and the dispatch. *)
Definition typed_under_signals (line : string) (reading dispatch : list bool)
  : world :=
  {| w_zombies := []; w_no_children := true;
     w_tstp_sweep := []; w_tstp_reading := reading;
     w_line := Some (line +:+ nl); w_heap := fun _ => true;
     w_tstp_dispatch := dispatch; w_tstp_launch := []; w_home := Some "/root";
     w_dirs := fun d => String.eqb d "/root" || String.eqb d "/tmp";
     w_fork := Some 4243%positive; w_fate := Exited 0 |}.

(** A round in which the signal arrives while the launcher runs:
    [launch] holds the deliveries at its points of interruption, the
    first of which lies before [fork] returns and the second before line
    366 reads the flag. *)
Definition typed_during_launch (line : string) (launch : schedule)
    (fate : termination) : world :=
  {| w_zombies := []; w_no_children := true;
     w_tstp_sweep := []; w_tstp_reading := [];
     w_line := Some (line +:+ nl); w_heap := fun _ => true;
     w_tstp_dispatch := []; w_tstp_launch := launch; w_home := Some "/root";
     w_dirs := fun d => String.eqb d "/root" || String.eqb d "/tmp";
     w_fork := Some 4243%positive; w_fate := fate |}.

(** The messages of [n] successive deliveries of the signal, from the
    mode [m]. *)
Fixpoint mode_messages (m : Z) (n : nat) : list string :=
  match n with
  | O => []
  | S k => (if (m =? 0)%Z then msg_entering else msg_exiting)
           :: mode_messages (if (m =? 0)%Z then 1 else 0) k
  end.

(** A round at the end of the input, with children reaped and signals
    delivered. *)
Definition end_of_input (zombies : list (positive * termination))
    (reading : list bool) : world :=
  {| w_zombies := zombies; w_no_children := false;
     w_tstp_sweep := []; w_tstp_reading := reading;
     w_line := None; w_heap := fun _ => true;
     w_tstp_dispatch := []; w_tstp_launch := []; w_home := None;
     w_dirs := fun _ => false;
     w_fork := None; w_fate := Exited 0 |}.

Definition is_chdir (e : event) : bool :=
  match e with Chdir _ _ => true | _ => false end.

(** ** Code that can be interrupted *)

(** Code made of points of interruption, of calls that are [allowed]
    and of stores into [lastStatus]: whatever is kept by doing nothing,
    by doing one thing after the other, by the handler, by each allowed
    call and by such a store, is kept by the code. *)
Definition interruptible {A : Type} (allowed : event -> Prop) (x : action A)
  : Prop :=
  forall holds : machine -> list event -> machine -> Prop,
    (forall m, holds m [] m) ->
    (forall m tr m1 tr' m2,
        holds m tr m1 -> holds m1 tr' m2 -> holds m (tr ++ tr')%list m2) ->
    (forall m, holds m (handled m) (after m)) ->
    (forall m e, allowed e -> holds m [e] m) ->
    (forall m status, holds m [] (snd (store_lastStatus status m))) ->
    forall m, holds m (fst (fst (x m))) (snd (x m)).

(** The calls of the handler, and the trace without them: what the
    interrupted code itself does. *)
Definition from_handler (e : event) : bool :=
  match e with
  | RawWrite _ _ => true
  | Perror prefix => String.eqb prefix "write"
  | _ => false
  end.

Definition own (tr : list event) : list event :=
  List.filter (fun e => negb (from_handler e)) tr.

(** The calls of the parent in [executeCommand] when [fork] answered
    [fork_answer]. *)
Definition launch_call (fork_answer : option positive) (e : event) : Prop :=
  match e with
  | Fork _ _ | Printf _ | Fflush => True
  | Perror prefix => prefix = "fork"
  | WaitpidChild p options =>
      options = 0%Z /\ exists child, fork_answer = Some child /\ p = Z.pos child
  | _ => False
  end.

(** The calls of the sweep and of the prompt. *)
Definition sweep_call (e : event) : Prop :=
  (exists ret, e = WaitpidAny true WNOHANG ret)
  \/ (exists text, e = Printf text)
  \/ e = Fflush.

(** The flag that line 417 finds for each child of a sweep that starts
    on the machine [m]: two points of interruption lie before each test
    (one before the poll, one before the read of the flag), and one
    before each call of the report when there is one. *)
Fixpoint flags_read (m : machine) (zombies : list (positive * termination))
  : list Z :=
  match zombies with
  | [] => []
  | (pid, t) :: rest =>
      let m1 := after (after m) in
      let mode := fgOnlyMode (m_globals m1) in
      mode :: flags_read
                (if (mode =? 0)%Z
                 then Nat.iter (length (report_done (Z.pos pid) (wstatus t))) after m1
                 else m1)
                rest
  end.

(** What a sweep prints about a child for which line 417 found [mode]. *)
Definition report_text (z : positive * termination) (mode : Z) : list string :=
  if (mode =? 0)%Z then completion_text z else [].

(** A round at the end of the input. *)
Definition at_eof (w : world) : Prop := w_line w = None.

(** The mode is Normal or foreground-only. *)
Definition mode_ok (g : globals) : Prop :=
  fgOnlyMode g = 0%Z \/ fgOnlyMode g = 1%Z.

(** * Properties *)

(** ** Strings and formatting *)

Lemma app_cons (c : ascii) (a b : string) : String c a +:+ b = String c (a +:+ b).
Proof. reflexivity. Qed.

Lemma app_nil (b : string) : "" +:+ b = b.
Proof. reflexivity. Qed.

Lemma prefix_app (n h : string) :
  String.prefix n h = true <-> exists b, h = n +:+ b.
Proof.
  revert h. induction n as [|c n IH]; intros h.
  - destruct h; simpl; split; eauto.
  - destruct h as [|c' h]; simpl.
    + split; [discriminate | intros [b Hb]; discriminate].
    + destruct (Ascii.ascii_dec c c') as [->|Hne].
      * rewrite IH. split; intros [b Hb]; exists b;
          rewrite app_cons in *; congruence.
      * split; [discriminate | intros [b Hb]; rewrite app_cons in Hb; congruence].
Qed.

Lemma strstr_Some (h n : string) (k : nat) :
  strstr h n = Some k ->
  exists b, h = string_take k h +:+ n +:+ b /\ String.length (string_take k h) = k.
Proof.
  revert k. induction h as [|c h IH]; intros k; cbn [strstr].
  - destruct (String.prefix n "") eqn:Hp; [|discriminate].
    intros [= <-]. apply prefix_app in Hp as [b Hb]. exists b. auto.
  - destruct (String.prefix n (String c h)) eqn:Hp.
    + intros [= <-]. apply prefix_app in Hp as [b Hb]. exists b. auto.
    + destruct (strstr h n) as [j|] eqn:Hs; simpl; [|discriminate].
      intros [= <-]. destruct (IH j eq_refl) as (b & Hb & Hl).
      exists b. simpl. rewrite app_cons. split; congruence.
Qed.

Lemma strstr_None (h n : string) : strstr h n = None <-> ~ occurs_in n h.
Proof.
  split.
  - induction h as [|c h IH]; cbn [strstr].
    + destruct (String.prefix n "") eqn:Hp; [discriminate|].
      intros _ (a & b & Hab). destruct a; [|discriminate].
      rewrite app_nil in Hab.
      assert (String.prefix n "" = true) by (apply prefix_app; eauto).
      congruence.
    + destruct (String.prefix n (String c h)) eqn:Hp; [discriminate|].
      destruct (strstr h n) eqn:Hs; simpl; [discriminate|].
      intros _ (a & b & Hab). destruct a as [|c' a].
      * rewrite app_nil in Hab.
        assert (String.prefix n (String c h) = true) by (apply prefix_app; eauto).
        congruence.
      * rewrite app_cons in Hab. injection Hab as -> Hh.
        apply IH; [reflexivity|]. exists a, b. exact Hh.
  - intros Hno. destruct (strstr h n) as [k|] eqn:Hs; [|reflexivity].
    exfalso. apply Hno. apply strstr_Some in Hs as (b & Hb & _).
    exists (string_take k h), b. exact Hb.
Qed.

Lemma string_take_length (n : nat) (s : string) :
  (String.length (string_take n s) <= n)%nat.
Proof.
  revert s. induction n as [|n IH]; intros [|c s]; simpl; try lia.
  specialize (IH s). lia.
Qed.

Lemma string_take_all (n : nat) (s : string) :
  (String.length s <= n)%nat -> string_take n s = s.
Proof.
  revert s. induction n as [|n IH]; intros [|c s]; simpl; intros H;
    try reflexivity; try lia.
  f_equal. apply IH. lia.
Qed.

Lemma string_app_length (a b : string) :
  String.length (a +:+ b) = (String.length a + String.length b)%nat.
Proof.
  induction a as [|c a IH]; [reflexivity|].
  rewrite app_cons. simpl. rewrite IH. reflexivity.
Qed.

Lemma decimal_digits_length (fuel : nat) (n : Z) :
  (String.length (decimal_digits fuel n) <= fuel)%nat.
Proof.
  revert n. induction fuel as [|f IH]; intros n; simpl; [lia|].
  destruct (n <? 10)%Z; simpl; [lia|].
  rewrite string_app_length. simpl. specialize (IH (n / 10)%Z). lia.
Qed.

(** A formatted [int] has at most eleven characters, so the sixteen
    bytes of [pid_str] hold it whole. *)
Lemma format_d_length (n : Z) : (String.length (format_d n) <= 11)%nat.
Proof.
  unfold format_d. destruct (n <? 0)%Z.
  - rewrite string_app_length. change (String.length "-") with 1%nat.
    pose proof (decimal_digits_length 10 (- n)). lia.
  - pose proof (decimal_digits_length 10 n). lia.
Qed.





Lemma string_drop_app (a s : string) (n : nat) :
  string_drop (String.length a + n) (a +:+ s) = string_drop n s.
Proof.
  induction a as [|c a IH]; [reflexivity|].
  rewrite app_cons. simpl. exact IH.
Qed.

Lemma string_take_app (a s : string) :
  string_take (String.length a) (a +:+ s) = a.
Proof.
  induction a as [|c a IH]; [destruct s; reflexivity|].
  rewrite app_cons. simpl. f_equal. exact IH.
Qed.

Lemma snprintf_fits (size : nat) (s : string) :
  (String.length s < size)%nat -> snprintf size s = s.
Proof. intros H. unfold snprintf. apply string_take_all. lia. Qed.

Lemma pid_str_whole (pid : Z) : snprintf 16 (format_d pid) = format_d pid.
Proof. apply snprintf_fits. pose proof (format_d_length pid). lia. Qed.

(** ** [expandPID] *)

(** When the first marker sits right behind [a] and the allocation
    succeeds, exactly that occurrence is replaced and nothing is cut off. *)
Lemma expandPID_first_marker (pid : Z) (a b : string) :
  strstr (a +:+ "$$" +:+ b) "$$" = Some (String.length a) ->
  expandPID pid true (a +:+ "$$" +:+ b)
  = ([], Returns (Some (a +:+ format_d pid +:+ b))).
Proof.
  intros Hs. unfold expandPID. rewrite Hs, pid_str_whole.
  rewrite string_take_app.
  rewrite (string_drop_app a ("$$" +:+ b) 2). change (string_drop 2 ("$$" +:+ b)) with b.
  rewrite snprintf_fits; [reflexivity|].
  rewrite !string_app_length. simpl. lia.
Qed.




(** ** Wait statuses *)

(** A property checked on every number below [n] holds below [n]. *)
Lemma checked_below (P : Z -> bool) (n : nat) :
  forallb P (map Z.of_nat (seq 0 n)) = true ->
  forall z, (0 <= z < Z.of_nat n)%Z -> P z = true.
Proof.
  intros Hall z Hz. rewrite forallb_forall in Hall. apply Hall.
  apply in_map_iff. exists (Z.to_nat z). split; [lia|].
  apply in_seq. lia.
Qed.

Lemma exited_status (code : Z) :
  valid_exit_code code ->
  WIFEXITED (wstatus (Exited code)) = true
  /\ WIFSIGNALED (wstatus (Exited code)) = false
  /\ WEXITSTATUS (wstatus (Exited code)) = code.
Proof.
  intros Hc.
  pose (P := fun c => WIFEXITED (wstatus (Exited c))
                      && negb (WIFSIGNALED (wstatus (Exited c)))
                      && (WEXITSTATUS (wstatus (Exited c)) =? c)%Z).
  assert (HP : P code = true).
  { apply (checked_below P 256); [vm_compute; reflexivity|].
    unfold valid_exit_code in Hc. lia. }
  unfold P in HP. apply andb_prop in HP as [HP H3]. apply andb_prop in HP as [H1 H2].
  apply negb_true_iff in H2. apply Z.eqb_eq in H3. auto.
Qed.

Lemma signaled_status (sig : Z) (core : bool) :
  valid_signal sig ->
  WIFEXITED (wstatus (Signaled sig core)) = false
  /\ WIFSIGNALED (wstatus (Signaled sig core)) = true
  /\ WTERMSIG (wstatus (Signaled sig core)) = sig
  /\ WEXITSTATUS (wstatus (Signaled sig core)) = 0%Z.
Proof.
  intros Hs.
  pose (P := fun s => (s =? 0)%Z
                      || (negb (WIFEXITED (wstatus (Signaled s core)))
                          && WIFSIGNALED (wstatus (Signaled s core))
                          && (WTERMSIG (wstatus (Signaled s core)) =? s)%Z
                          && (WEXITSTATUS (wstatus (Signaled s core)) =? 0)%Z)).
  assert (HP : P sig = true).
  { apply (checked_below P 65); [destruct core; vm_compute; reflexivity|].
    unfold valid_signal in Hs. lia. }
  unfold P in HP. apply orb_prop in HP as [HP|HP].
  - apply Z.eqb_eq in HP. unfold valid_signal in Hs. lia.
  - apply andb_prop in HP as [HP H4]. apply andb_prop in HP as [HP H3].
    apply andb_prop in HP as [H1 H2].
    apply negb_true_iff in H1. apply Z.eqb_eq in H3. apply Z.eqb_eq in H4. auto.
Qed.

(** ** The signal handler *)

Lemma handle_SIGTSTP_frame (ok : bool) (g : globals) :
  lastStatus (snd (handle_SIGTSTP ok g)) = lastStatus g.
Proof. unfold handle_SIGTSTP. destruct (fgOnlyMode g =? 0)%Z; reflexivity. Qed.

Lemma handle_SIGTSTP_mode (ok : bool) (g : globals) :
  fgOnlyMode (snd (handle_SIGTSTP ok g)) = 0%Z
  \/ fgOnlyMode (snd (handle_SIGTSTP ok g)) = 1%Z.
Proof. unfold handle_SIGTSTP. destruct (fgOnlyMode g =? 0)%Z; simpl; auto. Qed.

(** C9: on a mode that is Normal (0) or foreground-only (1), two
    deliveries of SIGTSTP give back the globals they started from; from
    Normal the two raw writes are the entering notice and then the exiting
    notice; and one delivery flips the flag and leaves [lastStatus], the
    only other variable in the handler's reach, as it was. *)
Theorem mode_toggle_involution (g : globals) (ok1 ok2 : bool) :
  fgOnlyMode g = 0%Z \/ fgOnlyMode g = 1%Z ->
  snd (deliver [ok1; ok2] g) = g
  /\ (fgOnlyMode g = 0%Z ->
      raw_writes (fst (deliver [ok1; ok2] g))
      = [(STDOUT_FILENO, msg_entering); (STDOUT_FILENO, msg_exiting)])
  /\ fgOnlyMode (snd (handle_SIGTSTP ok1 g)) = (1 - fgOnlyMode g)%Z
  /\ lastStatus (snd (handle_SIGTSTP ok1 g)) = lastStatus g.
Proof.
  destruct g as [fg st]. cbn [fgOnlyMode]. intros [-> | ->].
  - repeat split; destruct ok1, ok2; reflexivity.
  - repeat split; try discriminate; destruct ok1, ok2; reflexivity.
Qed.

Lemma mode_toggle_involution_witness :
  snd (deliver [true; true] {| fgOnlyMode := 0; lastStatus := 15 |})
  = {| fgOnlyMode := 0; lastStatus := 15 |}.
Proof.
  apply (mode_toggle_involution {| fgOnlyMode := 0; lastStatus := 15 |} true true).
  left. reflexivity.
Defined.

(** ** Traces *)

Lemma poll_answers_app (a b : list event) :
  poll_answers (a ++ b) = (poll_answers a ++ poll_answers b)%list.
Proof. apply flat_map_app. Qed.

Lemma printed_app (a b : list event) :
  printed (a ++ b) = (printed a ++ printed b)%list.
Proof. apply flat_map_app. Qed.

Lemma shutdown_calls_app (a b : list event) :
  shutdown_calls (a ++ b) = (shutdown_calls a ++ shutdown_calls b)%list.
Proof. apply List.filter_app. Qed.

Lemma spawned_app (a b : list event) : spawned (a ++ b) = (spawned a ++ spawned b)%list.
Proof. apply flat_map_app. Qed.

Lemma killed_app (a b : list event) : killed (a ++ b) = (killed a ++ killed b)%list.
Proof. apply flat_map_app. Qed.

Lemma waited_app (a b : list event) : waited (a ++ b) = (waited a ++ waited b)%list.
Proof. apply flat_map_app. Qed.

Lemma raw_writes_app (a b : list event) :
  raw_writes (a ++ b) = (raw_writes a ++ raw_writes b)%list.
Proof. apply flat_map_app. Qed.

Lemma flat_map_quiet {A : Type} (f : event -> list A) (tr : list event) :
  (forall e, passive e = true -> f e = []) ->
  forallb passive tr = true -> flat_map f tr = [].
Proof.
  intros Hf. induction tr as [|e tr IH]; [reflexivity|].
  cbn [forallb flat_map]. intros H. apply andb_true_iff in H as (He & Htr).
  rewrite (Hf e He), (IH Htr). reflexivity.
Qed.

Lemma waited_passive (tr : list event) :
  forallb passive tr = true -> waited tr = [].
Proof. apply flat_map_quiet. intros [ | | | | | | | | ]; (discriminate || reflexivity). Qed.

Lemma spawned_passive (tr : list event) :
  forallb passive tr = true -> spawned tr = [].
Proof. apply flat_map_quiet. intros [ | | | | | | | | ]; (discriminate || reflexivity). Qed.

Lemma killed_passive (tr : list event) :
  forallb passive tr = true -> killed tr = [].
Proof. apply flat_map_quiet. intros [ | | | | | | | | ]; (discriminate || reflexivity). Qed.

(** ** Deliveries at any time *)

(** The flag stays 0 or 1: only the handler writes it. *)
Lemma deliver_mode (writes : list bool) (g : globals) :
  fgOnlyMode g = 0%Z \/ fgOnlyMode g = 1%Z ->
  fgOnlyMode (snd (deliver writes g)) = 0%Z \/ fgOnlyMode (snd (deliver writes g)) = 1%Z.
Proof.
  revert g. induction writes as [|ok rest IH]; intros g Hg; [exact Hg|].
  cbn [deliver]. pose proof (handle_SIGTSTP_mode ok g) as Hm.
  destruct (handle_SIGTSTP ok g) as [tr g1]. cbn [snd] in Hm.
  specialize (IH g1 Hm). destruct (deliver rest g1) as [tr' g2]. exact IH.
Qed.

Lemma deliver_frame (writes : list bool) (g : globals) :
  lastStatus (snd (deliver writes g)) = lastStatus g.
Proof.
  revert g. induction writes as [|ok rest IH]; intros g; [reflexivity|].
  cbn [deliver]. pose proof (handle_SIGTSTP_frame ok g) as H.
  destruct (handle_SIGTSTP ok g) as [tr g1]. cbn [snd] in H.
  specialize (IH g1). destruct (deliver rest g1) as [tr' g2]. cbn [snd] in *.
  congruence.
Qed.

Lemma handle_SIGTSTP_passive (ok : bool) (g : globals) :
  forallb passive (fst (handle_SIGTSTP ok g)) = true.
Proof. unfold handle_SIGTSTP. destruct (fgOnlyMode g =? 0)%Z, ok; reflexivity. Qed.

Lemma deliver_passive (writes : list bool) (g : globals) :
  forallb passive (fst (deliver writes g)) = true.
Proof.
  revert g. induction writes as [|ok rest IH]; intros g; [reflexivity|].
  cbn [deliver]. pose proof (handle_SIGTSTP_passive ok g) as H.
  destruct (handle_SIGTSTP ok g) as [tr g1]. cbn [fst] in H.
  specialize (IH g1). destruct (deliver rest g1) as [tr' g2]. cbn [fst] in *.
  rewrite forallb_app, H, IH. reflexivity.
Qed.

Lemma deliver_makes_no_shutdown_call (writes : list bool) (g : globals) :
  shutdown_calls (fst (deliver writes g)) = [].
Proof.
  revert g. induction writes as [|ok rest IH]; intros g; [reflexivity|].
  cbn [deliver]. destruct (handle_SIGTSTP ok g) as [tr g1] eqn:Hh.
  specialize (IH g1). destruct (deliver rest g1) as [tr' g2]. cbn [fst] in *.
  rewrite shutdown_calls_app, IH, app_nil_r.
  unfold handle_SIGTSTP in Hh.
  destruct (fgOnlyMode g =? 0)%Z; injection Hh as <- _; destruct ok; reflexivity.
Qed.

Lemma deliver_spawns_nothing (writes : list bool) (g : globals) :
  spawned (fst (deliver writes g)) = [].
Proof.
  revert g. induction writes as [|ok rest IH]; intros g; [reflexivity|].
  cbn [deliver]. destruct (handle_SIGTSTP ok g) as [tr g1] eqn:Hh.
  specialize (IH g1). destruct (deliver rest g1) as [tr' g2]. cbn [fst] in *.
  rewrite spawned_app, IH, app_nil_r.
  unfold handle_SIGTSTP in Hh.
  destruct (fgOnlyMode g =? 0)%Z; injection Hh as <- _; destruct ok; reflexivity.
Qed.

(** How many times the handler ran shows in the raw writes. *)
Lemma deliver_raw_writes (writes : list bool) (g : globals) :
  length (raw_writes (fst (deliver writes g))) = length writes.
Proof.
  revert g. induction writes as [|ok rest IH]; intros g; [reflexivity|].
  cbn [deliver]. specialize (IH (snd (handle_SIGTSTP ok g))).
  destruct (handle_SIGTSTP ok g) as [tr g1] eqn:Hh. cbn [snd] in IH.
  destruct (deliver rest g1) as [tr' g2]. cbn [fst] in *.
  rewrite raw_writes_app, length_app, IH. cbn [length]. f_equal.
  unfold handle_SIGTSTP in Hh.
  destruct (fgOnlyMode g =? 0)%Z, ok; injection Hh as <- _; reflexivity.
Qed.

Lemma flip_parity (m n : Z) :
  (0 <= n)%Z -> (m = 0 \/ m = 1)%Z ->
  ((1 - m + n) mod 2 = (m + (n + 1)) mod 2)%Z.
Proof.
  intros Hn [-> | ->].
  - f_equal; lia.
  - replace (1 + (n + 1))%Z with (n + 1 * 2)%Z by lia.
    rewrite Z.mod_add by lia. f_equal; lia.
Qed.

Lemma deliver_parity (writes : list bool) (g : globals) :
  mode_ok g ->
  fgOnlyMode (snd (deliver writes g))
  = ((fgOnlyMode g + Z.of_nat (length writes)) mod 2)%Z.
Proof.
  revert g. induction writes as [|ok rest IH]; intros g Hg.
  - cbn [deliver snd length Z.of_nat]. rewrite Z.add_0_r.
    destruct Hg as [-> | ->]; reflexivity.
  - cbn [deliver].
    assert (Hflip : fgOnlyMode (snd (handle_SIGTSTP ok g)) = (1 - fgOnlyMode g)%Z).
    { unfold handle_SIGTSTP. destruct Hg as [-> | ->]; reflexivity. }
    pose proof (handle_SIGTSTP_mode ok g) as Hg1.
    destruct (handle_SIGTSTP ok g) as [tr g1]. cbn [snd] in *.
    specialize (IH g1 Hg1). destruct (deliver rest g1) as [tr' g2]. cbn [snd] in *.
    rewrite IH, Hflip. cbn [length]. rewrite Nat2Z.inj_succ.
    rewrite flip_parity by (auto; lia). f_equal; lia.
Qed.

Lemma parity_mode (m n : Z) : mode_ok {| fgOnlyMode := (m mod 2)%Z; lastStatus := n |}.
Proof.
  unfold mode_ok. cbn [fgOnlyMode].
  pose proof (Z.mod_pos_bound m 2 ltac:(lia)). lia.
Qed.

Lemma deliver_nil (g : globals) : deliver [] g = ([], g).
Proof. reflexivity. Qed.

(** The handler makes no call of the library but [write] and [perror]. *)
Lemma deliver_silent {A : Type} (f : event -> list A) (writes : list bool)
    (g : globals) :
  (forall e, passive e = true -> f e = []) ->
  flat_map f (fst (deliver writes g)) = [].
Proof. intros Hf. apply flat_map_quiet; [exact Hf | apply deliver_passive]. Qed.

Lemma deliver_prints_nothing (writes : list bool) (g : globals) :
  printed (fst (deliver writes g)) = [].
Proof.
  revert g. induction writes as [|ok rest IH]; intros g; [reflexivity|].
  cbn [deliver]. destruct (handle_SIGTSTP ok g) as [tr g1] eqn:Hh.
  specialize (IH g1). destruct (deliver rest g1) as [tr' g2]. cbn [fst] in *.
  rewrite printed_app, IH, app_nil_r.
  unfold handle_SIGTSTP in Hh.
  destruct (fgOnlyMode g =? 0)%Z; injection Hh as <- _; destruct ok; reflexivity.
Qed.

Lemma deliver_polls_nothing (writes : list bool) (g : globals) :
  poll_answers (fst (deliver writes g)) = []
  /\ forallb (fun e => negb (may_block e)) (fst (deliver writes g)) = true.
Proof.
  revert g. induction writes as [|ok rest IH]; intros g; [split; reflexivity|].
  cbn [deliver]. destruct (handle_SIGTSTP ok g) as [tr g1] eqn:Hh.
  destruct (IH g1) as (IH1 & IH2). destruct (deliver rest g1) as [tr' g2].
  cbn [fst] in *. rewrite poll_answers_app, forallb_app, IH1, IH2, app_nil_r, andb_true_r.
  unfold handle_SIGTSTP in Hh.
  destruct (fgOnlyMode g =? 0)%Z; injection Hh as <- _; destruct ok; split; reflexivity.
Qed.

(** *** One point of interruption *)

Lemma handled_passive (m : machine) : forallb passive (handled m) = true.
Proof. apply deliver_passive. Qed.

Lemma printed_handled (m : machine) : printed (handled m) = [].
Proof. apply deliver_prints_nothing. Qed.

Lemma poll_answers_handled (m : machine) : poll_answers (handled m) = [].
Proof. apply deliver_polls_nothing. Qed.

Lemma spawned_handled (m : machine) : spawned (handled m) = [].
Proof. apply deliver_spawns_nothing. Qed.

Lemma waited_handled (m : machine) : waited (handled m) = [].
Proof. apply waited_passive, handled_passive. Qed.

Lemma killed_handled (m : machine) : killed (handled m) = [].
Proof. apply killed_passive, handled_passive. Qed.

Lemma shutdown_calls_handled (m : machine) : shutdown_calls (handled m) = [].
Proof. apply deliver_makes_no_shutdown_call. Qed.

Lemma after_frame (m : machine) :
  lastStatus (m_globals (after m)) = lastStatus (m_globals m).
Proof. apply deliver_frame. Qed.

Lemma after_mode (m : machine) : mode_ok (m_globals m) -> mode_ok (m_globals (after m)).
Proof. apply deliver_mode. Qed.

Lemma after_parity (m : machine) :
  mode_ok (m_globals m) ->
  fgOnlyMode (m_globals (after m))
  = ((fgOnlyMode (m_globals m) + Z.of_nat (length (raw_writes (handled m)))) mod 2)%Z.
Proof.
  intros H. unfold handled, after. cbn [m_globals].
  rewrite deliver_raw_writes. apply deliver_parity, H.
Qed.

(** Without a delivery nothing happens at the point. *)
Lemma handled_quiet (m : machine) : hd [] (m_pending m) = [] -> handled m = [].
Proof. unfold handled. intros ->. reflexivity. Qed.

Lemma after_quiet (m : machine) :
  hd [] (m_pending m) = [] -> m_globals (after m) = m_globals m.
Proof. unfold after. intros ->. reflexivity. Qed.

Lemma after_pending (m : machine) : m_pending (after m) = tl (m_pending m).
Proof. reflexivity. Qed.

(** *** Code that can be interrupted *)

Lemma interruptible_ret {A : Type} (allowed : event -> Prop) (a : A) :
  interruptible allowed (ret a).
Proof. intros holds Hrefl _ _ _ _ m. apply Hrefl. Qed.

Lemma interruptible_bind {A B : Type} (allowed : event -> Prop)
    (x : action A) (f : A -> action B) :
  interruptible allowed x -> (forall a, interruptible allowed (f a)) ->
  interruptible allowed (bind x f).
Proof.
  intros Hx Hf holds Hrefl Htrans Hhandler Hevent Hstore m. unfold bind.
  specialize (Hx holds Hrefl Htrans Hhandler Hevent Hstore m).
  destruct (x m) as [[tr a] m1].
  specialize (Hf a holds Hrefl Htrans Hhandler Hevent Hstore m1).
  destruct (f a m1) as [[tr' b] m2]. cbn [fst snd] in *.
  exact (Htrans _ _ _ _ _ Hx Hf).
Qed.

Lemma interruptible_interrupt (allowed : event -> Prop) :
  interruptible allowed interrupt.
Proof. intros holds _ _ Hhandler _ _ m. apply Hhandler. Qed.

Lemma interruptible_read (allowed : event -> Prop) :
  interruptible allowed read_fgOnlyMode.
Proof. intros holds _ _ Hhandler _ _ m. apply Hhandler. Qed.

Lemma interruptible_call (allowed : event -> Prop) (e : event) :
  allowed e -> interruptible allowed (call e).
Proof.
  intros He holds _ Htrans Hhandler Hevent _ m. cbn [call fst snd].
  exact (Htrans _ _ _ _ _ (Hhandler m) (Hevent (after m) e He)).
Qed.

Lemma interruptible_store (allowed : event -> Prop) (status : Z) :
  interruptible allowed (store_lastStatus status).
Proof. intros holds _ _ _ _ Hstore m. apply Hstore. Qed.

Lemma interruptible_calls (allowed : event -> Prop) (es : list event) :
  Forall allowed es -> interruptible allowed (calls es).
Proof.
  induction 1 as [|e rest He _ IH]; [apply interruptible_ret|].
  cbn [calls]. apply interruptible_bind; [apply interruptible_call, He | intros _; exact IH].
Qed.

Lemma report_done_calls_allowed (pid status : Z) :
  Forall sweep_call (report_done pid status).
Proof.
  unfold report_done.
  destruct (WIFEXITED status); [|destruct (WIFSIGNALED status)]; cbn [app];
    repeat (constructor; [unfold sweep_call; eauto|]); constructor.
Qed.

Lemma interruptible_sweep (zombies : list (positive * termination))
    (no_children : bool) :
  interruptible sweep_call (checkBackgroundProcesses zombies no_children).
Proof.
  induction zombies as [|[pid t] rest IH].
  - apply interruptible_call. left. eauto.
  - cbn [checkBackgroundProcesses].
    apply interruptible_bind; [apply interruptible_call; left; eauto | intros _].
    apply interruptible_bind; [apply interruptible_read | intros mode].
    apply interruptible_bind; [|intros _; exact IH].
    destruct (mode =? 0)%Z; [|apply interruptible_ret].
    apply interruptible_calls, report_done_calls_allowed.
Qed.

(** Three things that are kept: a test that also the handler's calls
    pass; [lastStatus]; the flag as the messages of the handler count
    it. *)
Lemma interruptible_every {A : Type} (allowed : event -> Prop) (x : action A)
    (P : event -> bool) :
  interruptible allowed x ->
  (forall fd text, P (RawWrite fd text) = true) ->
  (forall prefix, P (Perror prefix) = true) ->
  (forall e, allowed e -> P e = true) ->
  forall m, forallb P (fst (fst (x m))) = true.
Proof.
  intros Hx Hw He Ha m.
  apply (Hx (fun _ tr _ => forallb P tr = true)).
  - reflexivity.
  - intros _ tr _ tr' _ H1 H2. rewrite forallb_app, H1, H2. reflexivity.
  - intros m0. unfold handled.
    generalize (m_globals m0). induction (hd [] (m_pending m0)) as [|ok rest IH];
      intros g; [reflexivity|].
    cbn [deliver]. destruct (handle_SIGTSTP ok g) as [tr g1] eqn:Hh.
    specialize (IH g1). destruct (deliver rest g1) as [tr' g2]. cbn [fst] in *.
    rewrite forallb_app, IH, andb_true_r. unfold handle_SIGTSTP in Hh.
    destruct (fgOnlyMode g =? 0)%Z; injection Hh as <- _; destruct ok; cbn;
      rewrite ?Hw, ?He; reflexivity.
  - intros _ e H. cbn. rewrite (Ha e H). reflexivity.
  - reflexivity.
Qed.

Lemma parity_refl (mode : Z) : (mode = 0 \/ mode = 1)%Z -> mode = ((mode + 0) mod 2)%Z.
Proof. intros [-> | ->]; reflexivity. Qed.

Lemma interruptible_parity {A : Type} (allowed : event -> Prop) (x : action A) :
  interruptible allowed x ->
  (forall e, allowed e -> raw_writes [e] = []) ->
  forall m, mode_ok (m_globals m) ->
    mode_ok (m_globals (snd (x m)))
    /\ fgOnlyMode (m_globals (snd (x m)))
       = ((fgOnlyMode (m_globals m)
           + Z.of_nat (length (raw_writes (fst (fst (x m)))))) mod 2)%Z.
Proof.
  intros Hx Ha m.
  apply (Hx (fun m0 tr m1 =>
               mode_ok (m_globals m0) ->
               mode_ok (m_globals m1)
               /\ fgOnlyMode (m_globals m1)
                  = ((fgOnlyMode (m_globals m0)
                      + Z.of_nat (length (raw_writes tr))) mod 2)%Z)).
  - intros m0 H. split; [exact H | apply parity_refl, H].
  - intros m0 tr m1 tr' m2 H1 H2 H0.
    destruct (H1 H0) as (Hm1 & E1). destruct (H2 Hm1) as (Hm2 & E2).
    split; [exact Hm2|].
    rewrite E2, E1, raw_writes_app, length_app, Nat2Z.inj_add.
    rewrite Z.add_mod_idemp_l by lia. f_equal; lia.
  - intros m0 H. split; [apply after_mode, H | apply after_parity, H].
  - intros m0 e He H. rewrite (Ha e He). split; [exact H | apply parity_refl, H].
  - intros m0 status H. split; [exact H | apply parity_refl, H].
Qed.

Lemma interruptible_silent {A B : Type} (allowed : event -> Prop) (x : action A)
    (f : event -> list B) :
  interruptible allowed x ->
  (forall e, passive e = true -> f e = []) ->
  (forall e, allowed e -> f e = []) ->
  forall m, flat_map f (fst (fst (x m))) = [].
Proof.
  intros Hx Hp Ha m.
  apply (Hx (fun _ tr _ => flat_map f tr = [])).
  - reflexivity.
  - intros _ tr _ tr' _ H1 H2. rewrite flat_map_app, H1, H2. reflexivity.
  - intros m0. apply deliver_silent, Hp.
  - intros _ e H. cbn. rewrite (Ha e H). reflexivity.
  - reflexivity.
Qed.

Lemma interruptible_launch (child : spawn) (background : Z)
    (fork_answer : option positive) (fate : termination) :
  interruptible (launch_call fork_answer)
    (fork_and_wait child background fork_answer fate).
Proof.
  unfold fork_and_wait. destruct fork_answer as [spawnpid|].
  - apply interruptible_bind; [apply interruptible_call; exact I | intros _].
    apply interruptible_bind.
    { destruct (background =? 0)%Z; [apply interruptible_ret|].
      apply interruptible_bind; [apply interruptible_read | intros mode].
      apply interruptible_ret. }
    intros [|].
    + apply interruptible_bind; [apply interruptible_call; exact I | intros _].
      apply interruptible_bind; [apply interruptible_call; exact I | intros _].
      apply interruptible_ret.
    + cbv zeta.
      apply interruptible_bind; [apply interruptible_call; cbn; eauto | intros _].
      apply interruptible_bind; [apply interruptible_store | intros _].
      apply interruptible_bind; [apply interruptible_interrupt | intros _].
      apply interruptible_bind; [|intros _; apply interruptible_ret].
      destruct (WIFSIGNALED _); [|apply interruptible_ret].
      apply interruptible_bind; [apply interruptible_call; exact I | intros _].
      apply interruptible_call; exact I.
  - apply interruptible_bind; [apply interruptible_call; exact I | intros _].
    apply interruptible_bind; [apply interruptible_call; reflexivity | intros _].
    apply interruptible_ret.
Qed.

(** *** The trace without the handler *)

Lemma own_app (a b : list event) : own (a ++ b) = (own a ++ own b)%list.
Proof. apply List.filter_app. Qed.

Lemma own_deliver (writes : list bool) (g : globals) : own (fst (deliver writes g)) = [].
Proof.
  revert g. induction writes as [|ok rest IH]; intros g; [reflexivity|].
  cbn [deliver]. destruct (handle_SIGTSTP ok g) as [tr g1] eqn:Hh.
  specialize (IH g1). destruct (deliver rest g1) as [tr' g2]. cbn [fst] in *.
  rewrite own_app, IH, app_nil_r. unfold handle_SIGTSTP in Hh.
  destruct (fgOnlyMode g =? 0)%Z; injection Hh as <- _; destruct ok; reflexivity.
Qed.

Lemma own_handled (m : machine) : own (handled m) = [].
Proof. apply own_deliver. Qed.

Lemma flat_map_own {A : Type} (f : event -> list A) (tr : list event) :
  (forall e, from_handler e = true -> f e = []) ->
  flat_map f tr = flat_map f (own tr).
Proof.
  intros Hf. induction tr as [|e tr IH]; [reflexivity|].
  unfold own. cbn [flat_map List.filter]. fold (own tr).
  destruct (from_handler e) eqn:He; cbn [negb flat_map].
  - rewrite (Hf e He). exact IH.
  - rewrite IH. reflexivity.
Qed.

Lemma spawned_own (tr : list event) : spawned tr = spawned (own tr).
Proof. apply flat_map_own. intros [ | | | | | | | | ]; (discriminate || reflexivity). Qed.

Lemma waited_own (tr : list event) : waited tr = waited (own tr).
Proof. apply flat_map_own. intros [ | | | | | | | | ]; (discriminate || reflexivity). Qed.

Lemma printed_own (tr : list event) : printed tr = printed (own tr).
Proof. apply flat_map_own. intros [ | | | | | | | | ]; (discriminate || reflexivity). Qed.

Lemma poll_answers_own (tr : list event) : poll_answers tr = poll_answers (own tr).
Proof. apply flat_map_own. intros [ | | | | | | | | ]; (discriminate || reflexivity). Qed.

Lemma own_calls (es : list event) :
  Forall (fun e => from_handler e = false) es ->
  forall m, own (fst (fst (calls es m))) = es.
Proof.
  induction 1 as [|e rest He _ IH]; intros m; [reflexivity|].
  cbn [calls bind call]. specialize (IH (after m)).
  destruct (calls rest (after m)) as [[tr u] m']. cbn [fst] in *.
  rewrite !own_app, own_handled, IH. unfold own at 1. cbn [List.filter].
  rewrite He. reflexivity.
Qed.

(** ** The sweep *)

Lemma report_done_text (pid : positive) (t : termination) :
  valid_termination t ->
  printed (report_done (Z.pos pid) (wstatus t)) = completion_text (pid, t).
Proof.
  intros Hv. unfold report_done, completion_text. destruct t as [code|sig core].
  - destruct (exited_status code Hv) as (H1 & _ & H3).
    rewrite H1, H3. reflexivity.
  - destruct (signaled_status sig core Hv) as (H1 & H2 & H3 & _).
    rewrite H1, H2, H3. reflexivity.
Qed.

Lemma report_done_calls (pid status : Z) :
  poll_answers (report_done pid status) = []
  /\ forallb (fun e => negb (may_block e)) (report_done pid status) = true.
Proof.
  unfold report_done.
  destruct (WIFEXITED status); [split; reflexivity|].
  destruct (WIFSIGNALED status); split; reflexivity.
Qed.

(** The report, as code that can be interrupted. *)
Lemma calls_flat_map {A : Type} (f : event -> list A) (es : list event) :
  (forall m, flat_map f (handled m) = []) ->
  forall m, flat_map f (fst (fst (calls es m))) = flat_map f es.
Proof.
  intros Hf. induction es as [|e rest IH]; intros m; [reflexivity|].
  cbn [calls bind call]. specialize (IH (after m)).
  destruct (calls rest (after m)) as [[tr u] m']. cbn [fst] in *.
  rewrite !flat_map_app, Hf, IH. cbn [flat_map app]. rewrite app_nil_r. reflexivity.
Qed.

Lemma calls_machine (es : list event) (m : machine) :
  snd (calls es m) = Nat.iter (length es) after m.
Proof.
  revert m. induction es as [|e rest IH]; intros m; [reflexivity|].
  cbn [calls bind call length]. specialize (IH (after m)).
  destruct (calls rest (after m)) as [[tr u] m']. cbn [snd] in *.
  rewrite IH. symmetry. apply Nat.iter_succ_r.
Qed.

(** One turn of the loop of lines 411-434. *)
Lemma sweep_cons (pid : positive) (t : termination)
    (rest : list (positive * termination)) (no_children : bool) (m : machine) :
  checkBackgroundProcesses ((pid, t) :: rest) no_children m
  = let body :=
      (if (fgOnlyMode (m_globals (after (after m))) =? 0)%Z
       then calls (report_done (Z.pos pid) (wstatus t))
       else ret tt) (after (after m)) in
    let r := checkBackgroundProcesses rest no_children (snd body) in
    (((handled m ++ [WaitpidAny true WNOHANG (Z.pos pid)])
      ++ handled (after m) ++ fst (fst body) ++ fst (fst r))%list,
     tt, snd r).
Proof.
  cbn [checkBackgroundProcesses]. unfold bind, call, read_fgOnlyMode.
  cbv beta iota zeta.
  destruct ((if (fgOnlyMode (m_globals (after (after m))) =? 0)%Z
             then calls (report_done (Z.pos pid) (wstatus t))
             else ret tt) (after (after m))) as [[tr u] m1].
  cbn [fst snd].
  destruct (checkBackgroundProcesses rest no_children m1) as [[tr' []] m2].
  reflexivity.
Qed.

Lemma sweep_nil (no_children : bool) (m : machine) :
  checkBackgroundProcesses [] no_children m
  = ((handled m ++ [WaitpidAny true WNOHANG (idle_answer no_children)])%list,
     tt, after m).
Proof. reflexivity. Qed.

Lemma flags_read_cons (pid : positive) (t : termination)
    (rest : list (positive * termination)) (m : machine) :
  flags_read m ((pid, t) :: rest)
  = fgOnlyMode (m_globals (after (after m)))
    :: flags_read
         (snd ((if (fgOnlyMode (m_globals (after (after m))) =? 0)%Z
                then calls (report_done (Z.pos pid) (wstatus t))
                else ret tt) (after (after m))))
         rest.
Proof.
  cbn [flags_read]. f_equal.
  destruct (fgOnlyMode (m_globals (after (after m))) =? 0)%Z;
    [rewrite calls_machine|]; reflexivity.
Qed.

Lemma sweep_polls (zombies : list (positive * termination)) (no_children : bool) :
  forall m,
    poll_answers (fst (fst (checkBackgroundProcesses zombies no_children m)))
    = (map (fun z => Z.pos (fst z)) zombies ++ [idle_answer no_children])%list.
Proof.
  induction zombies as [|[pid t] rest IH]; intros m.
  - rewrite sweep_nil. cbn [fst]. rewrite poll_answers_app, poll_answers_handled.
    reflexivity.
  - rewrite sweep_cons. cbv zeta. cbn [fst map].
    rewrite !poll_answers_app, !poll_answers_handled, IH. cbn [app poll_answers flat_map].
    f_equal.
    destruct (fgOnlyMode (m_globals (after (after m))) =? 0)%Z; [|reflexivity].
    unfold poll_answers at 1. rewrite calls_flat_map by apply poll_answers_handled.
    destruct (report_done_calls (Z.pos pid) (wstatus t)) as [H _].
    unfold poll_answers in H. rewrite H. reflexivity.
Qed.

Lemma sweep_prints (zombies : list (positive * termination)) (no_children : bool) :
  Forall (fun z => valid_termination (snd z)) zombies ->
  forall m,
    printed (fst (fst (checkBackgroundProcesses zombies no_children m)))
    = concat (zip_with report_text zombies (flags_read m zombies)).
Proof.
  induction 1 as [|[pid t] rest Ht _ IH]; intros m.
  - rewrite sweep_nil. cbn [fst]. rewrite printed_app, printed_handled. reflexivity.
  - rewrite sweep_cons, flags_read_cons. cbv zeta. cbn [fst zip_with concat].
    rewrite !printed_app, !printed_handled, IH. cbn [app printed flat_map].
    f_equal. unfold report_text.
    destruct (fgOnlyMode (m_globals (after (after m))) =? 0)%Z; [|reflexivity].
    unfold printed at 1. rewrite calls_flat_map by apply printed_handled.
    apply (report_done_text pid t Ht).
Qed.

Lemma flags_read_length (zombies : list (positive * termination)) :
  forall m, length (flags_read m zombies) = length zombies.
Proof.
  induction zombies as [|[pid t] rest IH]; intros m; [reflexivity|].
  cbn [flags_read length]. rewrite IH. reflexivity.
Qed.

(** A sweep during which nothing is delivered. *)
Lemma after_undisturbed (m : machine) :
  Forall (fun batch => batch = []) (m_pending m) ->
  m_globals (after m) = m_globals m
  /\ Forall (fun batch => batch = []) (m_pending (after m)).
Proof.
  intros H. destruct m as [g pending]. cbn [m_pending] in H.
  destruct H as [|batch rest -> Hrest]; split; try reflexivity; auto.
Qed.

Lemma iter_after_undisturbed (n : nat) (m : machine) :
  Forall (fun batch => batch = []) (m_pending m) ->
  m_globals (Nat.iter n after m) = m_globals m
  /\ Forall (fun batch => batch = []) (m_pending (Nat.iter n after m)).
Proof.
  intros H. induction n as [|n (IH1 & IH2)]; [split; [reflexivity | exact H]|].
  rewrite Nat.iter_succ. destruct (after_undisturbed _ IH2) as (E & F).
  split; [rewrite E; exact IH1 | exact F].
Qed.

Lemma flags_read_undisturbed (zombies : list (positive * termination)) :
  forall m,
    Forall (fun batch => batch = []) (m_pending m) ->
    flags_read m zombies = map (fun _ => fgOnlyMode (m_globals m)) zombies.
Proof.
  induction zombies as [|[pid t] rest IH]; intros m H; [reflexivity|].
  cbn [flags_read map].
  destruct (iter_after_undisturbed 2 m H) as (E & F).
  change (Nat.iter 2 after m) with (after (after m)) in E, F.
  rewrite E. f_equal.
  destruct (fgOnlyMode (m_globals m) =? 0)%Z.
  - destruct (iter_after_undisturbed
                (length (report_done (Z.pos pid) (wstatus t))) _ F) as (E' & F').
    rewrite (IH _ F'), E', E. reflexivity.
  - rewrite (IH _ F), E. reflexivity.
Qed.

(** C7: a sweep makes no call that can block; its polls answer with the
    terminated children one by one and then once with a non-positive
    value, so none is left pending; for every child what it prints is
    the completion message of that child when line 417 finds the flag
    off for it, and nothing when it finds the flag on, the flag being
    read anew for every child and the handler being free to run at any
    point of the sweep; when nothing is delivered during the sweep this
    is every message or none, by the flag the sweep starts with; and a
    sweep that finds no terminated child prints nothing. *)
Theorem sweep_reaps_and_reports (m : machine)
    (zombies : list (positive * termination)) (no_children : bool) :
  Forall (fun z => valid_termination (snd z)) zombies ->
  let tr := fst (fst (checkBackgroundProcesses zombies no_children m)) in
  forallb (fun e => negb (may_block e)) tr = true
  /\ poll_answers tr
     = (map (fun z => Z.pos (fst z)) zombies ++ [idle_answer no_children])%list
  /\ (idle_answer no_children <= 0)%Z
  /\ printed tr = concat (zip_with report_text zombies (flags_read m zombies))
  /\ length (flags_read m zombies) = length zombies
  /\ (Forall (fun batch => batch = []) (m_pending m) ->
      (fgOnlyMode (m_globals m) = 0%Z -> printed tr = flat_map completion_text zombies)
      /\ (fgOnlyMode (m_globals m) <> 0%Z -> printed tr = []))
  /\ printed (fst (fst (checkBackgroundProcesses [] no_children m))) = [].
Proof.
  intros Hv. cbv zeta.
  split; [|split; [|split; [|split; [|split; [|split]]]]].
  - apply (interruptible_every sweep_call); [apply interruptible_sweep | | |].
    + reflexivity.
    + reflexivity.
    + intros e [(ret & ->) | [(text & ->) | ->]]; reflexivity.
  - apply sweep_polls.
  - destruct no_children; simpl; lia.
  - apply sweep_prints, Hv.
  - apply flags_read_length.
  - intros Hquiet. rewrite (sweep_prints _ _ Hv), (flags_read_undisturbed _ _ Hquiet).
    clear Hv Hquiet. unfold report_text. split.
    + intros ->. induction zombies as [|z rest IH]; [reflexivity|].
      cbn [map zip_with concat flat_map]. rewrite IH. reflexivity.
    + intros Hfg. apply Z.eqb_neq in Hfg.
      induction zombies as [|z rest IH]; [reflexivity|].
      cbn [map zip_with concat]. rewrite Hfg, IH. reflexivity.
  - rewrite sweep_nil. cbn [fst]. rewrite printed_app, printed_handled. reflexivity.
Qed.

Lemma sweep_reaps_and_reports_witness :
  printed (fst (fst (checkBackgroundProcesses
                       [(4243%positive, Exited 0); (4244%positive, Signaled 15 false)]
                       false
                       {| m_globals := {| fgOnlyMode := 0; lastStatus := 0 |};
                          m_pending := [[]; []; []; []; []; [true]] |})))
  = [ "background pid 4243 is done: "; "exit value 0" +:+ nl ]
  /\ printed (fst (fst (checkBackgroundProcesses
                          [(4243%positive, Exited 0); (4244%positive, Signaled 15 false)]
                          false
                          {| m_globals := {| fgOnlyMode := 0; lastStatus := 0 |};
                             m_pending := [] |})))
     = [ "background pid 4243 is done: "; "exit value 0" +:+ nl;
         "background pid 4244 is done: "; "terminated by signal 15" +:+ nl ].
Proof.
  assert (Hv : Forall (fun z : positive * termination => valid_termination (snd z))
                 [(4243%positive, Exited 0); (4244%positive, Signaled 15 false)]).
  { repeat constructor; simpl; unfold valid_exit_code, valid_signal; lia. }
  split.
  - destruct (sweep_reaps_and_reports
                {| m_globals := {| fgOnlyMode := 0; lastStatus := 0 |};
                   m_pending := [[]; []; []; []; []; [true]] |}
                [(4243%positive, Exited 0); (4244%positive, Signaled 15 false)] false Hv)
      as (_ & _ & _ & Hprinted & _).
    rewrite Hprinted. reflexivity.
  - destruct (sweep_reaps_and_reports
                {| m_globals := {| fgOnlyMode := 0; lastStatus := 0 |};
                   m_pending := [] |}
                [(4243%positive, Exited 0); (4244%positive, Signaled 15 false)] false Hv)
      as (_ & _ & _ & _ & _ & Hquiet & _).
    apply Hquiet; [constructor | reflexivity].
Defined.

(** What a sweep and the prompt behind it never do. *)
Lemma filter_none {A : Type} (p : A -> bool) (l : list A) :
  forallb (fun x => negb (p x)) l = true -> List.filter p l = [].
Proof.
  induction l as [|x l IH]; [reflexivity|]. cbn [forallb List.filter].
  intros H. apply andb_true_iff in H as (Hx & Hl).
  apply negb_true_iff in Hx. rewrite Hx. exact (IH Hl).
Qed.

Lemma sweep_passive (zombies : list (positive * termination)) (no_children : bool)
    (m : machine) :
  forallb passive (fst (fst (checkBackgroundProcesses zombies no_children m))) = true.
Proof.
  apply (interruptible_every sweep_call); [apply interruptible_sweep | | |].
  - reflexivity.
  - reflexivity.
  - intros e [(ret & ->) | [(text & ->) | ->]]; reflexivity.
Qed.

(** ** The tokens of a line and [strtok] *)

Lemma peek_drop (buf : list ascii) (n i : nat) : peek (drop n buf) i = peek buf (n + i).
Proof. unfold peek. rewrite lookup_drop. reflexivity. Qed.

Lemma peek_not_nul (buf : list ascii) (i : nat) :
  is_nul (peek buf i) = false -> exists c, buf !! i = Some c /\ is_nul c = false.
Proof.
  unfold peek. destruct (buf !! i) as [c|]; simpl; [eauto | discriminate].
Qed.

Lemma strspn_stops (d : ascii) (cells : list ascii) :
  cells !! strspn d cells <> Some d.
Proof.
  induction cells as [|c rest IH]; simpl; [discriminate|].
  destruct (Ascii.eqb_spec c d) as [->|Hne]; simpl; [exact IH | congruence].
Qed.

Lemma strcspn_stops (d : ascii) (cells : list ascii) (c : ascii) :
  cells !! strcspn d cells = Some c -> is_nul c || Ascii.eqb c d = true.
Proof.
  induction cells as [|c0 rest IH]; simpl; [discriminate|].
  destruct (is_nul c0 || Ascii.eqb c0 d) eqn:H0; simpl; [congruence | exact IH].
Qed.

Lemma tokens_skip (cells : list ascii) :
  tokens cells = tokens (drop (strspn SPACE cells) cells).
Proof.
  induction cells as [|c rest IH]; [reflexivity|].
  cbn [strspn]. destruct (Ascii.eqb_spec c SPACE) as [->|Hne]; [|reflexivity].
  cbn [drop]. rewrite <- IH. reflexivity.
Qed.

Lemma tokens_cons_word (c c' : ascii) (rest : list ascii) :
  is_nul c = false -> Ascii.eqb c SPACE = false ->
  tokens (c :: c' :: rest)
  = if is_nul c' || Ascii.eqb c' SPACE then String c "" :: tokens (c' :: rest)
    else match tokens (c' :: rest) with
         | w :: ws => String c w :: ws
         | [] => [String c ""]
         end.
Proof. intros Hn Hs. cbn [tokens]. rewrite Hn, Hs. reflexivity. Qed.

Lemma strcspn_cons (d c : ascii) (rest : list ascii) :
  strcspn d (c :: rest) = if is_nul c || Ascii.eqb c d then 0 else S (strcspn d rest).
Proof. reflexivity. Qed.

Lemma tokens_word (c : ascii) (rest : list ascii) :
  is_nul c = false -> Ascii.eqb c SPACE = false ->
  tokens (c :: rest)
  = c_str_cells (take (strcspn SPACE (c :: rest)) (c :: rest))
    :: tokens (drop (strcspn SPACE (c :: rest)) (c :: rest)).
Proof.
  revert c. induction rest as [|c' rest' IH]; intros c Hn Hs.
  - cbn. rewrite Hn, Hs. cbn. rewrite Hn. reflexivity.
  - rewrite (tokens_cons_word c c' rest' Hn Hs).
    rewrite (strcspn_cons SPACE c), Hn, Hs. cbn [orb].
    destruct (is_nul c' || Ascii.eqb c' SPACE) eqn:Hc'.
    + rewrite strcspn_cons, Hc'. cbn [take drop c_str_cells]. rewrite Hn. reflexivity.
    + pose proof Hc' as Hc''. apply orb_false_elim in Hc'' as [Hn' Hs'].
      rewrite (IH c' Hn' Hs'). cbn [take drop c_str_cells]. rewrite Hn.
      reflexivity.
Qed.

Lemma c_str_cells_cut (d : ascii) (cells : list ascii) :
  c_str_cells (<[strcspn d cells := NUL]> cells)
  = c_str_cells (take (strcspn d cells) cells).
Proof.
  induction cells as [|c rest IH]; [reflexivity|].
  cbn [strcspn]. destruct (is_nul c) eqn:Hn; cbn [orb].
  - reflexivity.
  - destruct (Ascii.eqb c d); [reflexivity|].
    cbn. rewrite Hn. f_equal. exact IH.
Qed.

Lemma c_str_cells_stop (d : ascii) (cells : list ascii) :
  is_nul (default NUL (cells !! strcspn d cells)) = true ->
  c_str_cells cells = c_str_cells (take (strcspn d cells) cells).
Proof.
  induction cells as [|c rest IH]; [reflexivity|].
  cbn [strcspn]. destruct (is_nul c) eqn:Hn; cbn [orb].
  - intros _. cbn. rewrite Hn. reflexivity.
  - destruct (Ascii.eqb c d) eqn:Hd.
    + cbn. congruence.
    + intros H. cbn. rewrite Hn. f_equal. apply IH. exact H.
Qed.

(** [strtok] hands out the words of the rest of the line one by one: the
    token it returns reads, in the buffer it leaves, as the first word
    behind the saved position, and the other words are still ahead. *)
Lemma strtok_tokens (buf : list ascii) (olds : nat) t buf' olds' :
  strtok SPACE buf olds = (t, buf', olds') ->
  tokens (drop olds buf)
  = (match t with Some s => [c_str buf' s] | None => [] end
     ++ tokens (drop olds' buf'))%list.
Proof.
  unfold strtok. set (s := olds + strspn SPACE (drop olds buf)).
  assert (Hskip : tokens (drop olds buf) = tokens (drop s buf)).
  { rewrite (tokens_skip (drop olds buf)), drop_drop. reflexivity. }
  destruct (is_nul (peek buf s)) eqn:Hs.
  - intros [= <- <- <-]. exact Hskip.
  - destruct (peek_not_nul _ _ Hs) as (c & Hc & Hcn).
    assert (Hcs : Ascii.eqb c SPACE = false).
    { destruct (Ascii.eqb_spec c SPACE) as [->|]; [|reflexivity].
      exfalso. apply (strspn_stops SPACE (drop olds buf)).
      rewrite lookup_drop. exact Hc. }
    assert (Hd : drop s buf = c :: drop (S s) buf) by (apply drop_S; exact Hc).
    set (k := strcspn SPACE (drop s buf)).
    assert (Hw : tokens (drop s buf)
                 = c_str_cells (take k (drop s buf)) :: tokens (drop (s + k) buf)).
    { unfold k. rewrite Hd. rewrite (tokens_word c _ Hcn Hcs), <- Hd, drop_drop.
      reflexivity. }
    destruct (is_nul (peek buf (s + k))) eqn:He.
    + intros [= <- <- <-]. rewrite Hskip, Hw. cbn [app]. f_equal.
      unfold c_str. symmetry. apply c_str_cells_stop.
      fold k. rewrite lookup_drop. exact He.
    + intros [= <- <- <-]. rewrite Hskip, Hw. cbn [app].
      destruct (peek_not_nul _ _ He) as (c' & Hc' & Hcn').
      assert (Hsp : c' = SPACE).
      { pose proof (strcspn_stops SPACE (drop s buf) c') as H.
        fold k in H. rewrite lookup_drop in H. specialize (H Hc').
        rewrite Hcn' in H. cbn [orb] in H.
        destruct (Ascii.eqb_spec c' SPACE); [assumption | discriminate]. }
      f_equal.
      * unfold c_str. rewrite drop_insert_ge by lia.
        replace (s + k - s) with k by lia. unfold k. symmetry.
        apply c_str_cells_cut.
      * rewrite drop_insert_lt by lia.
        rewrite (drop_S buf c' (s + k) Hc'). subst c'. reflexivity.
Qed.

(** [strtok] moves forward: a token lies at or behind the old saved
    position, inside the buffer, and strictly before the new one. *)
Lemma strtok_progress (buf : list ascii) (olds : nat) t buf' olds' :
  strtok SPACE buf olds = (t, buf', olds') ->
  olds <= olds' /\ length buf' = length buf
  /\ forall s, t = Some s -> olds <= s /\ s < olds' /\ s < length buf.
Proof.
  unfold strtok. set (s := olds + strspn SPACE (drop olds buf)).
  destruct (is_nul (peek buf s)) eqn:Hs.
  - intros [= <- <- <-]. split; [lia | split; [reflexivity | discriminate]].
  - destruct (peek_not_nul _ _ Hs) as (c & Hc & Hcn).
    assert (Hcs : Ascii.eqb c SPACE = false).
    { destruct (Ascii.eqb_spec c SPACE) as [->|]; [|reflexivity].
      exfalso. apply (strspn_stops SPACE (drop olds buf)).
      rewrite lookup_drop. exact Hc. }
    assert (Hk : 1 <= strcspn SPACE (drop s buf)).
    { rewrite (drop_S buf c s Hc), strcspn_cons, Hcn, Hcs. cbn. lia. }
    apply lookup_lt_Some in Hc.
    destruct (is_nul (peek buf (s + strcspn SPACE (drop s buf)))).
    + intros [= <- <- <-].
      split; [lia | split; [reflexivity | intros ? [= <-]; lia]].
    + intros [= <- <- <-]. rewrite length_insert.
      split; [lia | split; [reflexivity | intros ? [= <-]; lia]].
Qed.

Lemma strtok_None (buf : list ascii) (olds : nat) buf' olds' :
  strtok SPACE buf olds = (None, buf', olds') -> tokens (drop olds buf) = [].
Proof.
  intros H. rewrite (strtok_tokens _ _ _ _ _ H). cbn [app].
  unfold strtok in H.
  destruct (is_nul (peek buf (olds + strspn SPACE (drop olds buf)))) eqn:Hn.
  - injection H as <- <-. unfold peek in Hn.
    destruct (buf !! (olds + strspn SPACE (drop olds buf))) as [c|] eqn:Hc.
    + rewrite (drop_S _ _ _ Hc). cbn in Hn |- *. rewrite Hn. reflexivity.
    + apply lookup_ge_None in Hc. rewrite drop_ge by lia. reflexivity.
  - match type of H with context [if ?b then _ else _] => destruct b end;
      discriminate H.
Qed.

Lemma c_str_cells_insert_beyond (cells : list ascii) (j e : nat) (x : ascii) :
  j < e -> is_nul (peek cells j) = true ->
  c_str_cells (<[e := x]> cells) = c_str_cells cells.
Proof.
  revert j e. induction cells as [|c rest IH]; intros j e Hje Hj; [reflexivity|].
  destruct e as [|e]; [lia|]. cbn [list_insert insert c_str_cells].
  change (<[S e := x]> (c :: rest)) with (c :: <[e := x]> rest). cbn [c_str_cells].
  destruct (is_nul c) eqn:Hc; [reflexivity|]. f_equal.
  destruct j as [|j]; [unfold peek in Hj; cbn in Hj; congruence|].
  apply (IH j e); [lia | exact Hj].
Qed.

Lemma c_str_insert_beyond (buf : list ascii) (tok j e : nat) (x : ascii) :
  tok <= j -> j < e -> is_nul (peek buf j) = true ->
  c_str (<[e := x]> buf) tok = c_str buf tok.
Proof.
  intros H1 H2 Hj. unfold c_str. rewrite drop_insert_ge by lia.
  apply (c_str_cells_insert_beyond _ (j - tok)); [lia|].
  rewrite peek_drop. replace (tok + (j - tok)) with j by lia. exact Hj.
Qed.

Lemma strtok_keeps (buf : list ascii) (tok olds : nat) t buf' olds' :
  terminated buf tok olds -> strtok SPACE buf olds = (t, buf', olds') ->
  c_str buf' tok = c_str buf tok /\ terminated buf' tok olds'.
Proof.
  intros (j & H1 & H2 & Hj) H.
  pose proof (strtok_progress _ _ _ _ _ H) as (Ho & _ & _).
  unfold strtok in H. set (s := olds + strspn SPACE (drop olds buf)) in H.
  destruct (is_nul (peek buf s)).
  - injection H as <- <- <-. split; [reflexivity|]. exists j. repeat split; auto; lia.
  - set (e := s + strcspn SPACE (drop s buf)) in H.
    destruct (is_nul (peek buf e)) eqn:He.
    + injection H as <- <- <-. split; [reflexivity|]. exists j. repeat split; auto; lia.
    + injection H as <- <- <-.
      assert (Hlt : j < e).
      { destruct (Nat.eq_dec j e) as [->|]; [congruence|]. unfold e, s in *. lia. }
      split; [apply (c_str_insert_beyond _ _ j); auto|].
      exists j. repeat split; [exact H1 | lia |].
      unfold peek. rewrite list_lookup_insert_ne by lia. exact Hj.
Qed.

Lemma strtok_terminated (buf : list ascii) (olds : nat) s buf' olds' :
  strtok SPACE buf olds = (Some s, buf', olds') -> terminated buf' s olds'.
Proof.
  intros H. pose proof (strtok_progress _ _ _ _ _ H) as (_ & _ & Hs).
  destruct (Hs s eq_refl) as (_ & Hlt & _).
  unfold strtok in H. set (s0 := olds + strspn SPACE (drop olds buf)) in H.
  destruct (is_nul (peek buf s0)); [discriminate|].
  set (e := s0 + strcspn SPACE (drop s0 buf)) in H.
  destruct (is_nul (peek buf e)) eqn:He.
  - injection H as <- <- <-. exists e. repeat split; [lia | lia | exact He].
  - injection H as <- <- <-. exists e. repeat split; [lia | lia |].
    destruct (peek_not_nul _ _ He) as (c & Hc & _). apply lookup_lt_Some in Hc.
    unfold peek. rewrite list_lookup_insert_eq by exact Hc. reflexivity.
Qed.

(** ** [parseInput] *)

Section ParserFacts.

Variable fg : Z.
Variable pid : Z.
Variable heap : nat -> bool.

Lemma next_token_spec (p : parser) t p' :
  next_token p = (t, p') ->
  strtok SPACE (p_buf p) (p_olds p) = (t, p_buf p', p_olds p')
  /\ p_args p' = p_args p /\ p_inputFile p' = p_inputFile p
  /\ p_outputFile p' = p_outputFile p /\ p_background p' = p_background p.
Proof.
  unfold next_token. destruct (strtok SPACE (p_buf p) (p_olds p)) as [[t0 b0] o0].
  intros [= <- <-]. cbn. auto.
Qed.

(** Splitting a round of the loop into its cases. *)
Ltac body_cases H :=
  unfold parse_body in H;
  repeat (match type of H with
          | context [streq ?a ?b] => destruct (streq a b) eqn:?
          | context [(fg =? 0)%Z] => destruct (fg =? 0)%Z eqn:?
          | context [match ?t with Some _ => _ | None => _ end] => destruct t
          | context [next_token ?q] =>
              let t := fresh "t" in let q' := fresh "q" in
              destruct (next_token q) as [t q'] eqn:?
          | context [expandPID ?a ?b ?c] =>
              let tr := fresh "tr" in
              destruct (expandPID a b c) as [tr [?|?]] eqn:?
          end; cbv beta iota in H).

Lemma next_token_ahead (p : parser) t p' :
  next_token p = (t, p') -> tokens (drop (p_olds p) (p_buf p)) = ahead t p'.
Proof.
  intros H. apply next_token_spec in H as (H & _). apply strtok_tokens in H.
  exact H.
Qed.

Lemma next_token_progress (p : parser) t p' :
  next_token p = (t, p') ->
  p_olds p <= p_olds p' /\ length (p_buf p') = length (p_buf p)
  /\ forall s, t = Some s -> p_olds p <= s /\ s < p_olds p' /\ s < length (p_buf p').
Proof.
  intros H. apply next_token_spec in H as (H & _).
  apply strtok_progress in H as (H1 & H2 & H3).
  split; [exact H1 | split; [exact H2|]]. intros s Hs. rewrite H2. auto.
Qed.

Lemma ahead_later (t : option nat) (p : parser) (w : string) :
  In w (tokens (drop (p_olds p) (p_buf p))) -> In w (ahead t p).
Proof. intros H. unfold ahead. apply in_or_app. right. exact H. Qed.

(** A round that returns leaves the buffer at its length, moves the saved
    position forward, and its next token lies behind the old position. *)
Lemma parse_body_progress (tok : nat) (p : parser) tr next p' :
  parse_body fg pid heap tok p = (tr, Returns (next, p')) ->
  length (p_buf p') = length (p_buf p)
  /\ forall s, next = Some s -> p_olds p <= s /\ s < p_olds p' /\ s < length (p_buf p').
Proof.
  intros H. body_cases H; try discriminate; injection H as <- <- <-;
    repeat match goal with
           | H : next_token _ = _ |- _ => apply next_token_progress in H; cbn in H
           end;
    intuition (try congruence);
    repeat match goal with
           | H : forall s, ?t = Some s -> _, E : ?t = Some _ |- _ => specialize (H _ E)
           end;
    lia.
Qed.

(** What is ahead after a round was ahead before it. *)
Lemma parse_body_ahead (tok : nat) (p : parser) tr next p' (w : string) :
  parse_body fg pid heap tok p = (tr, Returns (next, p')) ->
  In w (ahead next p') -> In w (tokens (drop (p_olds p) (p_buf p))).
Proof.
  intros H Hw. body_cases H; try discriminate; injection H as <- <- <-;
    repeat match goal with
           | H : next_token _ = _ |- _ =>
               apply next_token_ahead in H;
               cbn [set_inputFile set_outputFile set_background push_arg
                    p_olds p_buf] in H
           end;
    repeat match goal with
           | H : tokens ?x = ahead _ _ |- In _ (tokens ?x) => rewrite H
           | |- In _ (ahead _ _) => first [exact Hw | apply ahead_later]
           end.
Qed.

(** Only the round for ["<"] writes [inputFile], only the round for [">"]
    writes [outputFile], and [background] is only ever set to 1, and that
    only while foreground-only mode is off. *)
Lemma parse_body_frame (tok : nat) (p : parser) tr next p' :
  parse_body fg pid heap tok p = (tr, Returns (next, p')) ->
  (c_str (p_buf p) tok <> "<" -> p_inputFile p' = p_inputFile p)
  /\ (c_str (p_buf p) tok <> ">" -> p_outputFile p' = p_outputFile p)
  /\ (p_background p' = p_background p \/ (p_background p' = 1%Z /\ fg = 0%Z)).
Proof.
  intros H. body_cases H; try discriminate; injection H as <- <- <-;
    repeat match goal with
           | H : next_token _ = _ |- _ => apply next_token_spec in H; cbn in H
           | H : streq _ _ = true |- _ => apply String.eqb_eq in H
           | H : (fg =? 0)%Z = true |- _ => apply Z.eqb_eq in H
           end;
    intuition congruence.
Qed.

(** A round ends the process only through the failed [malloc] of
    [expandPID], with code 1; a round that returns has done nothing
    observable. *)
Lemma expandPID_trace (ok : bool) (token : string) tr o :
  expandPID pid ok token = (tr, o) ->
  match o with
  | Returns _ => tr = []
  | Exits code => code = 1%Z /\ tr = [Perror "malloc"] /\ ok = false
  end.
Proof.
  unfold expandPID. destruct (strstr token "$$"); [destruct ok|];
    intros [= <- <-]; auto.
Qed.

Lemma parse_body_trace (tok : nat) (p : parser) tr o :
  parse_body fg pid heap tok p = (tr, o) ->
  match o with
  | Returns _ => tr = []
  | Exits code => code = 1%Z /\ tr = [Perror "malloc"]
  end.
Proof.
  intros H. body_cases H; injection H as <- <-; try reflexivity;
    match goal with
    | H : expandPID _ _ _ = _ |- _ => apply expandPID_trace in H; cbn in H
    end; intuition.
Qed.

(** An ampersand that is not the last word: the round keeps it as an
    argument, and the word behind it, which the test for "last" has taken
    from [strtok], is neither an argument nor ahead any more. *)
Lemma ampersand_not_last (tok : nat) (p : parser) (w : string) (rest : list string) :
  terminated (p_buf p) tok (p_olds p) ->
  c_str (p_buf p) tok = "&" ->
  tokens (drop (p_olds p) (p_buf p)) = w :: rest ->
  exists next p',
    parse_body fg pid heap tok p = ([], Returns (next, p'))
    /\ p_args p'
       = (p_args p ++ [if heap (length (p_args p)) then Some "&" else None])%list
    /\ ahead next p' = rest
    /\ p_inputFile p' = p_inputFile p /\ p_outputFile p' = p_outputFile p
    /\ p_background p' = p_background p.
Proof.
  intros Hterm Hc Htoks. unfold parse_body. rewrite Hc.
  change (streq "&" "<") with false. change (streq "&" ">") with false.
  change (streq "&" "&") with true. cbv iota.
  destruct (next_token p) as [t p1] eqn:Hn.
  pose proof (next_token_spec _ _ _ Hn) as (Hst & Ha & Hi & Ho & Hb).
  destruct t as [s|]; [|apply strtok_None in Hst; congruence].
  pose proof (strtok_keeps _ _ _ _ _ _ Hterm Hst) as (Hkeep & _).
  pose proof (strtok_tokens _ _ _ _ _ Hst) as Htok. rewrite Htoks in Htok.
  cbn [app] in Htok. injection Htok as _ Hrest.
  cbv iota beta. rewrite Hkeep, Hc. unfold expandPID.
  change (strstr "&" "$$") with (@None nat). cbv iota.
  destruct (next_token (push_arg _ p1)) as [next p'] eqn:Hn2.
  pose proof (next_token_ahead _ _ _ Hn2) as Hah.
  apply next_token_spec in Hn2 as (_ & Ha2 & Hi2 & Ho2 & Hb2).
  cbn [push_arg p_args p_inputFile p_outputFile p_background p_buf p_olds] in *.
  exists next, p'. split; [reflexivity|].
  rewrite Ha2, Ha, Hi2, Hi, Ho2, Ho, Hb2, Hb, <- Hah, <- Hrest. auto.
Qed.

(** The loop ends with the fuel it is given: every round moves the token
    forward in a buffer whose length does not change. *)
Lemma parse_loop_total (fuel : nat) (token : option nat) (p : parser) :
  (forall tok, token = Some tok ->
     tok < p_olds p /\ tok < length (p_buf p) /\ length (p_buf p) - tok <= fuel) ->
  exists r, parse_loop fg pid heap fuel token p = Some r.
Proof.
  revert token p. induction fuel as [|fuel IH]; intros token p Hpos;
    destruct token as [tok|]; cbn [parse_loop]; eauto;
    destruct (negb (length (p_args p) <? MAX_ARGS - 1)%nat); eauto.
  - destruct (Hpos tok eq_refl) as (_ & H1 & H2). lia.
  - destruct (Hpos tok eq_refl) as (H0 & H1 & H2).
    destruct (parse_body fg pid heap tok p) as [tr [[next p']|code]] eqn:Hb; eauto.
    apply parse_body_progress in Hb as (Hlen & Hnext).
    destruct (IH next p') as [[tr' r] Hr].
    + intros s Hs. destruct (Hnext s Hs) as (Ha & Hb & Hc). lia.
    + rewrite Hr. eauto.
Qed.

(** A property of the parser's variables that every round keeps holds
    when the loop returns. *)
Lemma parse_loop_invariant (I : option nat -> parser -> Prop) :
  (forall tok p tr next p',
      I (Some tok) p -> parse_body fg pid heap tok p = (tr, Returns (next, p')) ->
      I next p') ->
  forall fuel token p tr q,
    I token p -> parse_loop fg pid heap fuel token p = Some (tr, Returns q) ->
    exists token', I token' q.
Proof.
  intros Hstep. induction fuel as [|fuel IH]; intros token p tr q HI;
    destruct token as [tok|]; cbn [parse_loop];
    try (intros [= <- <-]; eauto; fail);
    destruct (negb (length (p_args p) <? MAX_ARGS - 1)%nat);
    try (intros [= <- <-]; eauto; fail); try discriminate.
  destruct (parse_body fg pid heap tok p) as [tr0 [[next p']|code]] eqn:Hb;
    [|discriminate].
  destruct (parse_loop fg pid heap fuel next p') as [[tr' r]|] eqn:Hl; [|discriminate].
  intros [= <- ->]. eapply IH; [|exact Hl]. eapply Hstep; eassumption.
Qed.

(** The loop prints nothing unless it ends the process, which it does only
    with code 1 after the report of the failed [malloc]. *)
Lemma parse_loop_trace (fuel : nat) (token : option nat) (p : parser) tr o :
  parse_loop fg pid heap fuel token p = Some (tr, o) ->
  match o with
  | Returns _ => tr = []
  | Exits code => code = 1%Z /\ tr = [Perror "malloc"]
  end.
Proof.
  revert token p tr o. induction fuel as [|fuel IH]; intros token p tr o;
    destruct token as [tok|]; cbn [parse_loop];
    try (intros [= <- <-]; reflexivity);
    destruct (negb (length (p_args p) <? MAX_ARGS - 1)%nat);
    try (intros [= <- <-]; reflexivity); try discriminate.
  destruct (parse_body fg pid heap tok p) as [tr0 [[next p']|code]] eqn:Hb.
  - apply parse_body_trace in Hb. subst tr0.
    destruct (parse_loop fg pid heap fuel next p') as [[tr' r]|] eqn:Hl; [|discriminate].
    intros [= <- <-]. apply IH in Hl. exact Hl.
  - apply parse_body_trace in Hb. intros [= <- <-]. exact Hb.
Qed.

Section Call.

Variable input : list ascii.
Variables inputFile outputFile : option nat.
Variable background : Z.

(** [parseInput] returns or ends the process; it never runs out of
    fuel. *)
Lemma parseInput_total :
  exists tr o, parseInput fg pid heap input inputFile outputFile background = Some (tr, o).
Proof.
  unfold parseInput.
  destruct (next_token _) as [token p] eqn:Hn.
  pose proof (next_token_progress _ _ _ Hn) as (_ & Hlen & Htok). cbn in Hlen, Htok.
  destruct (parse_loop_total (length input) token p) as [[tr [q|code]] Hr].
  - intros tok Htk. destruct (Htok tok Htk) as (_ & H1 & H2). lia.
  - rewrite Hr. eauto.
  - rewrite Hr. eauto.
Qed.

Lemma parseInput_trace tr o :
  parseInput fg pid heap input inputFile outputFile background = Some (tr, o) ->
  match o with
  | Returns _ => tr = []
  | Exits code => code = 1%Z /\ tr = [Perror "malloc"]
  end.
Proof.
  unfold parseInput. destruct (next_token _) as [token p].
  destruct (parse_loop fg pid heap (length input) token p) as [[tr0 [q|code]]|] eqn:Hl;
    [| |discriminate]; intros [= <- <-]; apply parse_loop_trace in Hl; exact Hl.
Qed.

Lemma parseInput_verdict tr r :
  parseInput fg pid heap input inputFile outputFile background = Some (tr, Returns r) ->
  r_ret r = parse_verdict (r_args r).
Proof.
  unfold parseInput. destruct (next_token _) as [token p].
  destruct (parse_loop fg pid heap (length input) token p) as [[tr0 [q|code]]|];
    [|discriminate..]. intros [= <- <-]. reflexivity.
Qed.

(** The value the call was given for [background] plays no part. *)
Lemma parseInput_resets_background (other : Z) :
  parseInput fg pid heap input inputFile outputFile background
  = parseInput fg pid heap input inputFile outputFile other.
Proof. reflexivity. Qed.

(** [background] comes back as 0 or 1, and as 1 only when the flag read
    by the parser is 0. *)
Lemma parseInput_background tr r :
  parseInput fg pid heap input inputFile outputFile background = Some (tr, Returns r) ->
  r_background r = 0%Z \/ (r_background r = 1%Z /\ fg = 0%Z).
Proof.
  unfold parseInput. destruct (next_token _) as [token p] eqn:Hn.
  destruct (parse_loop fg pid heap (length input) token p) as [[tr0 [q|code]]|] eqn:Hl;
    [|discriminate..]. intros [= <- <-]. cbn [r_background].
  apply next_token_spec in Hn as (_ & _ & _ & _ & Hbg). cbn in Hbg.
  destruct (parse_loop_invariant
              (fun _ p => p_background p = 0%Z \/ (p_background p = 1%Z /\ fg = 0%Z)))
    with (fuel := length input) (token := token) (p := p) (tr := tr0) (q := q)
    as [_ H]; auto.
  intros tok p0 tr1 next p' HI Hb. apply parse_body_frame in Hb as (_ & _ & Hb).
  intuition congruence.
Qed.

(** The two path pointers come back as they went in unless the line has
    the operator that sets them. *)
Lemma parseInput_frame tr r :
  parseInput fg pid heap input inputFile outputFile background = Some (tr, Returns r) ->
  (~ In "<" (tokens input) -> r_inputFile r = inputFile)
  /\ (~ In ">" (tokens input) -> r_outputFile r = outputFile).
Proof.
  unfold parseInput. destruct (next_token _) as [token p] eqn:Hn.
  destruct (parse_loop fg pid heap (length input) token p) as [[tr0 [q|code]]|] eqn:Hl;
    [|discriminate..]. intros [= <- <-]. cbn [r_inputFile r_outputFile].
  pose proof (next_token_ahead _ _ _ Hn) as Ha. cbn in Ha.
  apply next_token_spec in Hn as (_ & _ & Hin & Hout & _). cbn in Hin, Hout.
  destruct (parse_loop_invariant
              (fun t p => (forall w, In w (ahead t p) -> In w (tokens input))
                          /\ (~ In "<" (tokens input) -> p_inputFile p = inputFile)
                          /\ (~ In ">" (tokens input) -> p_outputFile p = outputFile)))
    with (fuel := length input) (token := token) (p := p) (tr := tr0) (q := q)
    as [_ (_ & H1 & H2)]; auto.
  - intros tok p0 tr1 next p' (Hsub & Hi & Ho) Hb.
    assert (Hcur : In (c_str (p_buf p0) tok) (tokens input)).
    { apply Hsub. unfold ahead. left. reflexivity. }
    split; [|split].
    + intros w Hw. apply Hsub. apply ahead_later.
      eapply parse_body_ahead; eassumption.
    + intros Hno. apply parse_body_frame in Hb as (Hb & _ & _).
      rewrite Hb; [auto | congruence].
    + intros Hno. apply parse_body_frame in Hb as (_ & Hb & _).
      rewrite Hb; [auto | congruence].
  - split; [|split]; [|congruence..]. intros w Hw. rewrite <- Ha in Hw. exact Hw.
Qed.

End Call.

End ParserFacts.

(** ** The launcher *)



(** A line that ends in a lone ampersand: background with the mode off,
    foreground with it on. *)
Example lone_ampersand_sets_background :
  option_map r_background
    (parsed_of (parseInput 0 4242 (fun _ => true)
                  (read_line blank ("sleep 5 &" +:+ nl)) None None 0)) = Some 1%Z
  /\ option_map r_background
       (parsed_of (parseInput 1 4242 (fun _ => true)
                     (read_line blank ("sleep 5 &" +:+ nl)) None None 0)) = Some 0%Z.
Proof. split; vm_compute; reflexivity. Qed.

(** What the parent does itself, by the answer of [fork] and by the
    flag that line 366 finds. *)
Lemma fork_and_wait_own (child : spawn) (background : Z)
    (fork_answer : option positive) (fate : termination) (m : machine) :
  match fork_answer with
  | None =>
      own (fst (fst (fork_and_wait child background fork_answer fate m)))
      = [Fork child (-1); Perror "fork"]
      /\ snd (fst (fork_and_wait child background fork_answer fate m)) = Exits 1
  | Some spawnpid =>
      snd (fst (fork_and_wait child background fork_answer fate m)) = Returns tt
      /\ if negb (background =? 0)%Z
            && (fgOnlyMode (m_globals (after (after m))) =? 0)%Z
         then
           own (fst (fst (fork_and_wait child background fork_answer fate m)))
           = [Fork child (Z.pos spawnpid);
              Printf ("background pid is " +:+ format_d (Z.pos spawnpid) +:+ nl);
              Fflush]
           /\ lastStatus (m_globals (snd (fork_and_wait child background
                                            fork_answer fate m)))
              = lastStatus (m_globals m)
         else
           own (fst (fst (fork_and_wait child background fork_answer fate m)))
           = Fork child (Z.pos spawnpid) :: WaitpidChild (Z.pos spawnpid) 0
             :: (if WIFSIGNALED (wstatus fate) then
                   [Printf ("terminated by signal "
                            +:+ format_d (WTERMSIG (wstatus fate)) +:+ nl);
                    Fflush]
                 else [])
           /\ lastStatus (m_globals (snd (fork_and_wait child background
                                            fork_answer fate m)))
              = wstatus fate
  end.
Proof.
  unfold fork_and_wait. destruct fork_answer as [spawnpid|].
  - unfold bind, call, read_fgOnlyMode, interrupt, store_lastStatus, ret.
    destruct (background =? 0)%Z; cbv beta iota zeta; cbn [negb andb].
    + destruct (WIFSIGNALED (wstatus fate)); cbv beta iota zeta; cbn [fst snd];
        (split; [reflexivity|]); (split; [|cbn [m_globals lastStatus];
                                           rewrite ?after_frame; reflexivity]);
        rewrite !own_app, !own_handled; reflexivity.
    + destruct (fgOnlyMode (m_globals (after (after m))) =? 0)%Z;
        cbv beta iota zeta; cbn [fst snd].
      * split; [reflexivity|]. split.
        -- rewrite !own_app, !own_handled. reflexivity.
        -- rewrite !after_frame. reflexivity.
      * destruct (WIFSIGNALED (wstatus fate)); cbv beta iota zeta; cbn [fst snd];
          (split; [reflexivity|]); (split; [|cbn [m_globals lastStatus];
                                             rewrite ?after_frame; reflexivity]);
          rewrite !own_app, !own_handled; reflexivity.
  - unfold bind, call, ret. cbv beta iota zeta. cbn [fst snd].
    split; [|reflexivity]. rewrite !own_app, !own_handled. reflexivity.
Qed.

Lemma executeCommand_fork_failed (g : globals) (pending : schedule) args inF outF bg
    fate :
  exists tr0,
    executeCommand g pending args inF outF bg None fate
    = ((tr0 ++ [Perror "fork"])%list, Exits 1).
Proof.
  unfold executeCommand, fork_and_wait, bind, call, ret. cbv beta iota zeta.
  eexists. rewrite app_nil_r, List.app_assoc. reflexivity.
Qed.


(** The result of a call, by the flag of line 366. *)
Lemma executeCommand_own (g : globals) (pending : schedule) args inF outF bg
    (spawnpid : positive) fate :
  exists tr g',
    executeCommand g pending args inF outF bg (Some spawnpid) fate = (tr, Returns g')
    /\ if negb (effective_background g bg =? 0)%Z
          && (fgOnlyMode (globals_at_parent g pending) =? 0)%Z
       then
         own tr
         = [Fork (child_setup args inF outF (effective_background g bg)) (Z.pos spawnpid);
            Printf ("background pid is " +:+ format_d (Z.pos spawnpid) +:+ nl);
            Fflush]
         /\ lastStatus g' = lastStatus g
       else
         own tr
         = Fork (child_setup args inF outF (effective_background g bg)) (Z.pos spawnpid)
           :: WaitpidChild (Z.pos spawnpid) 0
           :: (if WIFSIGNALED (wstatus fate) then
                 [Printf ("terminated by signal "
                          +:+ format_d (WTERMSIG (wstatus fate)) +:+ nl);
                  Fflush]
               else [])
         /\ lastStatus g' = wstatus fate.
Proof.
  unfold executeCommand, globals_at_parent.
  pose proof (fork_and_wait_own
                (child_setup args inF outF (effective_background g bg))
                (effective_background g bg) (Some spawnpid) fate
                {| m_globals := g; m_pending := pending |}) as (Ho & H).
  destruct (fork_and_wait _ _ _ _ _) as [[tr o] m]. cbn [fst snd] in Ho, H.
  subst o. exists tr, (m_globals m). split; [reflexivity | exact H].
Qed.

(** What the launcher forks: one child, whose descriptors follow the two
    paths it was given. *)
Lemma executeCommand_spawn (g : globals) (pending : schedule) args inF outF bg fk fate :
  exists child,
    spawned (fst (executeCommand g pending args inF outF bg fk fate)) = [child]
    /\ (forall path, inF = Some path -> sp_stdin child = FromPath path)
    /\ (forall path, outF = Some path -> sp_stdout child = FromPath path)
    /\ sp_argv child = args.
Proof.
  exists (child_setup args inF outF (effective_background g bg)).
  split; [|split; [|split]]; [|intros path ->; reflexivity ..|reflexivity].
  rewrite spawned_own. unfold executeCommand.
  pose proof (fork_and_wait_own
                (child_setup args inF outF (effective_background g bg))
                (effective_background g bg) fk fate
                {| m_globals := g; m_pending := pending |}) as H.
  destruct (fork_and_wait _ _ _ _ _) as [[tr o] m]. cbn [fst snd] in *.
  destruct fk as [spawnpid|].
  - destruct H as (_ & H). destruct (negb _ && _); destruct H as (-> & _);
      [reflexivity|]. destruct (WIFSIGNALED _); reflexivity.
  - destruct H as (-> & _). reflexivity.
Qed.

(** The parent waits at most once. *)
Lemma executeCommand_waits (g : globals) (pending : schedule) args inF outF bg fk fate :
  length (waited (fst (executeCommand g pending args inF outF bg fk fate))) <= 1.
Proof.
  rewrite waited_own. unfold executeCommand.
  pose proof (fork_and_wait_own
                (child_setup args inF outF (effective_background g bg))
                (effective_background g bg) fk fate
                {| m_globals := g; m_pending := pending |}) as H.
  destruct (fork_and_wait _ _ _ _ _) as [[tr o] m]. cbn [fst snd] in *.
  destruct fk as [spawnpid|].
  - destruct H as (_ & H). destruct (negb _ && _); destruct H as (-> & _);
      [cbn; lia|]. destruct (WIFSIGNALED _); cbn; lia.
  - destruct H as (-> & _). cbn. lia.
Qed.

Lemma launch_call_ok (w : world) (e : event) :
  launch_call (w_fork w) e -> round_call_ok w e = true.
Proof.
  destruct e as [ | | | | | | p options | | ]; cbn; try tauto.
  intros (-> & child & -> & ->). apply Z.eqb_refl.
Qed.

Lemma executeCommand_calls (w : world) (g : globals) args inF outF bg :
  forallb (round_call_ok w)
    (fst (executeCommand g (w_tstp_launch w) args inF outF bg (w_fork w) (w_fate w)))
  = true.
Proof.
  unfold executeCommand.
  pose proof (interruptible_every (launch_call (w_fork w)) _ (round_call_ok w)
                (interruptible_launch
                   (child_setup args inF outF (effective_background g bg))
                   (effective_background g bg) (w_fork w) (w_fate w))
                (fun _ _ => eq_refl) (fun _ => eq_refl) (launch_call_ok w)
                {| m_globals := g; m_pending := w_tstp_launch w |}) as H.
  destruct (fork_and_wait _ _ _ _ _) as [[tr o] m]. exact H.
Qed.

Lemma launch_call_writes (fk : option positive) (e : event) :
  launch_call fk e -> raw_writes [e] = [].
Proof. destruct e; cbn; tauto. Qed.

(** The flag when the launcher returns, from the flag of line 281 and
    the messages of the handler. *)
Lemma executeCommand_parity (g : globals) (pending : schedule) args inF outF bg fk fate
    tr g' :
  mode_ok g ->
  executeCommand g pending args inF outF bg fk fate = (tr, Returns g') ->
  mode_ok g'
  /\ fgOnlyMode g'
     = ((fgOnlyMode g + Z.of_nat (length (raw_writes tr))) mod 2)%Z.
Proof.
  intros Hg. unfold executeCommand.
  pose proof (interruptible_parity (launch_call fk) _
                (interruptible_launch
                   (child_setup args inF outF (effective_background g bg))
                   (effective_background g bg) fk fate)
                (launch_call_writes fk)
                {| m_globals := g; m_pending := pending |} Hg) as H.
  destruct (fork_and_wait _ _ _ _ _) as [[tr0 o] m]. cbn [fst snd m_globals] in H.
  destruct o; [|discriminate]. intros [= <- <-]. exact H.
Qed.

(** [lastStatus] when the launcher returns. *)
Lemma executeCommand_status (g : globals) (pending : schedule) args inF outF bg fk fate
    tr g' :
  executeCommand g pending args inF outF bg fk fate = (tr, Returns g') ->
  (waited tr = [] /\ lastStatus g' = lastStatus g)
  \/ (exists child, fk = Some child /\ waited tr = [Z.pos child]
                    /\ lastStatus g' = wstatus fate).
Proof.
  destruct fk as [spawnpid|].
  - destruct (executeCommand_own g pending args inF outF bg spawnpid fate)
      as (tr0 & g0 & -> & H).
    intros [= <- <-]. rewrite waited_own.
    destruct (negb _ && _); destruct H as (-> & Hl).
    + left. split; [reflexivity | exact Hl].
    + right. exists spawnpid. split; [reflexivity|]. split; [|exact Hl].
      destruct (WIFSIGNALED _); reflexivity.
  - destruct (executeCommand_fork_failed g pending args inF outF bg fate) as (tr0 & ->).
    discriminate.
Qed.

(** ** [main] *)

(** *** The sweep, the prompt and the read *)

Lemma interruptible_prompt (zombies : list (positive * termination))
    (no_children : bool) :
  interruptible sweep_call
    (checkBackgroundProcesses zombies no_children ;;
     call (Printf ": ") ;;
     call Fflush).
Proof.
  apply interruptible_bind; [apply interruptible_sweep | intros _].
  apply interruptible_bind; [apply interruptible_call; right; left; eauto | intros _].
  apply interruptible_call. right. right. reflexivity.
Qed.

Lemma sweep_call_passive (e : event) : sweep_call e -> passive e = true.
Proof. intros [(ret & ->) | [(text & ->) | ->]]; reflexivity. Qed.

Lemma sweep_call_writes (e : event) : sweep_call e -> raw_writes [e] = [].
Proof. intros [(ret & ->) | [(text & ->) | ->]]; reflexivity. Qed.

Lemma iter_after_frame (n : nat) (m : machine) :
  lastStatus (m_globals (Nat.iter n after m)) = lastStatus (m_globals m).
Proof.
  induction n as [|n IH]; [reflexivity|].
  rewrite Nat.iter_succ, after_frame. exact IH.
Qed.

Lemma sweep_frame (zombies : list (positive * termination)) (no_children : bool) :
  forall m,
    lastStatus (m_globals (snd (checkBackgroundProcesses zombies no_children m)))
    = lastStatus (m_globals m).
Proof.
  induction zombies as [|[pid t] rest IH]; intros m.
  - rewrite sweep_nil. apply after_frame.
  - rewrite sweep_cons. cbv zeta. cbn [snd]. rewrite IH.
    destruct (fgOnlyMode (m_globals (after (after m))) =? 0)%Z.
    + rewrite calls_machine, iter_after_frame, !after_frame. reflexivity.
    + cbn [ret snd]. rewrite !after_frame. reflexivity.
Qed.

Lemma read_round_passive (s : shell) (w : world) :
  forallb passive (fst (read_round s w)) = true.
Proof.
  unfold read_round.
  pose proof (interruptible_every sweep_call _ passive
                (interruptible_prompt (w_zombies w) (w_no_children w))
                (fun _ _ => eq_refl) (fun _ => eq_refl) sweep_call_passive
                {| m_globals := sh_globals s; m_pending := w_tstp_sweep w |}) as H.
  destruct (bind _ _ _) as [[tr u] m]. cbn [fst] in H.
  pose proof (deliver_passive (w_tstp_reading w) (m_globals m)) as H'.
  destruct (deliver (w_tstp_reading w) (m_globals m)) as [tr_sig g]. cbn [fst] in *.
  rewrite forallb_app, H, H'. reflexivity.
Qed.

Lemma read_round_frame (s : shell) (w : world) :
  lastStatus (snd (read_round s w)) = lastStatus (sh_globals s).
Proof.
  unfold read_round, bind, call. cbv beta iota zeta.
  pose proof (sweep_frame (w_zombies w) (w_no_children w)
                {| m_globals := sh_globals s; m_pending := w_tstp_sweep w |}) as H.
  destruct (checkBackgroundProcesses _ _ _) as [[tr u] m]. cbn [snd m_globals] in H.
  pose proof (deliver_frame (w_tstp_reading w) (m_globals (after (after m)))) as H'.
  destruct (deliver (w_tstp_reading w) _) as [tr_sig g]. cbn [snd] in *.
  rewrite H', !after_frame. exact H.
Qed.

Lemma read_round_parity (s : shell) (w : world) :
  mode_ok (sh_globals s) ->
  mode_ok (snd (read_round s w))
  /\ fgOnlyMode (snd (read_round s w))
     = ((fgOnlyMode (sh_globals s)
         + Z.of_nat (length (raw_writes (fst (read_round s w))))) mod 2)%Z.
Proof.
  intros Hs. unfold read_round.
  pose proof (interruptible_parity sweep_call _
                (interruptible_prompt (w_zombies w) (w_no_children w))
                sweep_call_writes
                {| m_globals := sh_globals s; m_pending := w_tstp_sweep w |} Hs)
    as (Hm & Hp).
  destruct (bind _ _ _) as [[tr u] m]. cbn [fst snd m_globals] in Hm, Hp.
  pose proof (deliver_mode (w_tstp_reading w) (m_globals m) Hm) as Hm'.
  pose proof (deliver_parity (w_tstp_reading w) (m_globals m) Hm) as Hp'.
  pose proof (deliver_raw_writes (w_tstp_reading w) (m_globals m)) as Hw.
  destruct (deliver (w_tstp_reading w) (m_globals m)) as [tr_sig g]. cbn [fst snd] in *.
  split; [exact Hm'|].
  rewrite Hp', Hp, raw_writes_app, length_app, Nat2Z.inj_add, Hw.
  rewrite Z.add_mod_idemp_l by lia. f_equal; lia.
Qed.

Lemma read_round_prompt (s : shell) (w : world) :
  1 <= length (printed (fst (read_round s w))).
Proof.
  unfold read_round, bind, call. cbv beta iota zeta.
  destruct (checkBackgroundProcesses _ _ _) as [[tr u] m].
  destruct (deliver (w_tstp_reading w) _) as [tr_sig g]. cbn [fst].
  rewrite !printed_app, !length_app. cbn [printed flat_map app length]. lia.
Qed.

(** A round in which nothing is delivered and no child is reaped. *)
Lemma read_round_quiet (s : shell) (w : world) :
  w_zombies w = [] -> w_tstp_sweep w = [] -> w_tstp_reading w = [] ->
  read_round s w
  = ([WaitpidAny true WNOHANG (idle_answer (w_no_children w)); Printf ": "; Fflush],
     sh_globals s).
Proof. unfold read_round. intros -> -> ->. reflexivity. Qed.

Lemma globals_at_read_frame (s : shell) (w : world) :
  lastStatus (globals_at_read s w) = lastStatus (sh_globals s).
Proof. apply read_round_frame. Qed.

Lemma globals_at_dispatch_frame (s : shell) (w : world) :
  lastStatus (globals_at_dispatch s w) = lastStatus (sh_globals s).
Proof.
  unfold globals_at_dispatch. rewrite deliver_frame. apply globals_at_read_frame.
Qed.

Lemma globals_at_read_mode (s : shell) (w : world) :
  mode_ok (sh_globals s) -> mode_ok (globals_at_read s w).
Proof. intros H. apply read_round_parity, H. Qed.

Lemma globals_at_dispatch_mode (s : shell) (w : world) :
  mode_ok (sh_globals s) -> mode_ok (globals_at_dispatch s w).
Proof. intros H. apply deliver_mode, globals_at_read_mode, H. Qed.

Lemma round_head_passive (s : shell) (w : world) :
  forallb passive (round_head s w) = true.
Proof. apply read_round_passive. Qed.

Lemma round_prefix_passive (s : shell) (w : world) :
  forallb passive (round_prefix s w) = true.
Proof.
  unfold round_prefix. rewrite forallb_app, round_head_passive, deliver_passive.
  reflexivity.
Qed.

(** *** The dispatch *)

Lemma dispatch_external (w : world) (g : globals) (r : parsed) (cmd : string) :
  is_builtin cmd = false ->
  dispatch w g r cmd
  = match executeCommand g (w_tstp_launch w) (r_args r)
            (deref (r_input r) (r_inputFile r)) (deref (r_input r) (r_outputFile r))
            (r_background r) (w_fork w) (w_fate w) with
    | (tr, Exits code) => (tr, Terminated code)
    | (tr, Returns g') => (tr, Continue (shell_reset g' r))
    end.
Proof.
  unfold is_builtin, dispatch. intros H.
  apply orb_false_iff in H as (H & H3). apply orb_false_iff in H as (H1 & H2).
  rewrite H1, H2, H3. reflexivity.
Qed.

Lemma dispatch_builtin (w : world) (g : globals) (r : parsed) (cmd : string) :
  is_builtin cmd = true ->
  (cmd = "exit" /\ dispatch w g r cmd = ([], Terminated 0))
  \/ (exists e, dispatch w g r cmd = ([e], Continue (shell_reset g r))
                /\ ((exists path ret, e = Chdir path ret)
                    \/ (exists text, e = Printf text))).
Proof.
  unfold is_builtin, dispatch. intros H.
  destruct (streq cmd "exit") eqn:He.
  { left. apply String.eqb_eq in He. auto. }
  right. destruct (streq cmd "cd"); [eexists; split; [reflexivity | eauto]|].
  destruct (streq cmd "status"); [eexists; split; [reflexivity | eauto]
                                 | discriminate].
Qed.


Lemma passive_call_ok (w : world) (e : event) :
  passive e = true -> round_call_ok w e = true.
Proof. destruct e; cbn; auto; discriminate. Qed.

Lemma passive_calls_ok (w : world) (tr : list event) :
  forallb passive tr = true -> forallb (round_call_ok w) tr = true.
Proof.
  induction tr as [|e tr IH]; [reflexivity|]. cbn [forallb].
  intros H. apply andb_true_iff in H as (He & Htr).
  rewrite (passive_call_ok w e He), (IH Htr). reflexivity.
Qed.

Lemma dispatch_calls (w : world) (g : globals) (r : parsed) (cmd : string) :
  forallb (round_call_ok w) (fst (dispatch w g r cmd)) = true.
Proof.
  destruct (is_builtin cmd) eqn:Hb.
  - destruct (dispatch_builtin w g r cmd Hb)
      as [(_ & ->) | (e & -> & [(path & ret0 & ->) | (text & ->)])]; reflexivity.
  - rewrite (dispatch_external w g r cmd Hb).
    pose proof (executeCommand_calls w g (r_args r)
                  (deref (r_input r) (r_inputFile r))
                  (deref (r_input r) (r_outputFile r)) (r_background r)) as H.
    destruct (executeCommand _ _ _ _ _ _ _ _) as [tr [g'|c]]; exact H.
Qed.

Lemma dispatch_spawn (w : world) (g : globals) (r : parsed) (cmd : string) :
  (is_builtin cmd = true /\ spawned (fst (dispatch w g r cmd)) = [])
  \/ (is_builtin cmd = false
      /\ exists child, spawned (fst (dispatch w g r cmd)) = [child]
                       /\ (forall path, deref (r_input r) (r_inputFile r) = Some path ->
                             sp_stdin child = FromPath path)
                       /\ (forall path, deref (r_input r) (r_outputFile r) = Some path ->
                             sp_stdout child = FromPath path)
                       /\ sp_argv child = r_args r).
Proof.
  destruct (is_builtin cmd) eqn:Hb.
  - left. split; [reflexivity|].
    destruct (dispatch_builtin w g r cmd Hb)
      as [(_ & ->) | (e & -> & [(path & ret0 & ->) | (text & ->)])]; reflexivity.
  - right. split; [reflexivity|]. rewrite (dispatch_external w g r cmd Hb).
    destruct (executeCommand_spawn g (w_tstp_launch w) (r_args r)
                (deref (r_input r) (r_inputFile r))
                (deref (r_input r) (r_outputFile r))
                (r_background r) (w_fork w) (w_fate w)) as (child & H).
    exists child. destruct (executeCommand _ _ _ _ _ _ _ _) as [tr [g'|c]]; exact H.
Qed.

Lemma dispatch_waits (w : world) (g : globals) (r : parsed) (cmd : string) :
  length (waited (fst (dispatch w g r cmd))) <= 1.
Proof.
  destruct (is_builtin cmd) eqn:Hb.
  - destruct (dispatch_builtin w g r cmd Hb)
      as [(_ & ->) | (e & -> & [(path & ret0 & ->) | (text & ->)])]; cbn; lia.
  - rewrite (dispatch_external w g r cmd Hb).
    pose proof (executeCommand_waits g (w_tstp_launch w) (r_args r)
                  (deref (r_input r) (r_inputFile r))
                  (deref (r_input r) (r_outputFile r))
                  (r_background r) (w_fork w) (w_fate w)) as H.
    destruct (executeCommand _ _ _ _ _ _ _ _) as [tr [g'|c]]; exact H.
Qed.

Lemma dispatch_reset (w : world) (g : globals) (r : parsed) (cmd : string) tr s' :
  dispatch w g r cmd = (tr, Continue s') ->
  sh_input s' = r_input r /\ sh_inputFile s' = None /\ sh_outputFile s' = None
  /\ sh_background s' = 0%Z.
Proof.
  destruct (is_builtin cmd) eqn:Hb.
  - destruct (dispatch_builtin w g r cmd Hb) as [(_ & ->) | (e & -> & _)];
      [discriminate|]. intros [= _ <-]. auto.
  - rewrite (dispatch_external w g r cmd Hb).
    destruct (executeCommand _ _ _ _ _ _ _ _) as [tr0 [g'|c]]; [|discriminate].
    intros [= _ <-]. auto.
Qed.

(** The two globals behind a dispatch that goes on. *)
Lemma dispatch_status (w : world) (g : globals) (r : parsed) (cmd : string) tr s' :
  dispatch w g r cmd = (tr, Continue s') ->
  (mode_ok g ->
   mode_ok (sh_globals s')
   /\ fgOnlyMode (sh_globals s')
      = ((fgOnlyMode g + Z.of_nat (length (raw_writes tr))) mod 2)%Z)
  /\ ((waited tr = [] /\ lastStatus (sh_globals s') = lastStatus g)
      \/ (exists child, w_fork w = Some child /\ waited tr = [Z.pos child]
                        /\ lastStatus (sh_globals s') = wstatus (w_fate w))).
Proof.
  destruct (is_builtin cmd) eqn:Hb.
  - destruct (dispatch_builtin w g r cmd Hb)
      as [(_ & ->) | (e & -> & He)]; [discriminate|].
    intros [= <- <-]. cbn [shell_reset sh_globals]. split.
    + intros Hg. split; [exact Hg|].
      destruct He as [(path & ret0 & ->) | (text & ->)]; apply parity_refl, Hg.
    + left. split; [|reflexivity].
      destruct He as [(path & ret0 & ->) | (text & ->)]; reflexivity.
  - rewrite (dispatch_external w g r cmd Hb).
    destruct (executeCommand _ _ _ _ _ _ _ _) as [tr0 [g'|c]] eqn:Hx; [|discriminate].
    intros [= <- <-]. cbn [shell_reset sh_globals]. split.
    + intros Hg. exact (executeCommand_parity _ _ _ _ _ _ _ _ _ _ Hg Hx).
    + exact (executeCommand_status _ _ _ _ _ _ _ _ _ _ Hx).
Qed.

(** *** The four shapes of a round *)

Lemma arg_head (x : option string) (more : list (option string)) :
  arg (x :: more) 0 = x.
Proof. reflexivity. Qed.

Lemma parse_verdict_null (args : list (option string)) :
  arg args 0 = None -> parse_verdict args = 0%Z.
Proof. unfold parse_verdict. intros ->. reflexivity. Qed.

(** Every round is of one of the four shapes. *)
Lemma main_iteration_shape (pid : Z) (s : shell) (w : world) tr st :
  main_iteration pid s w = Some (tr, st) -> round_shape pid s w tr st.
Proof.
  intros H.
  pose proof (EndOfInput pid s w) as Keof.
  pose proof (ParserExit pid s w) as Kexit.
  pose proof (LineSkipped pid s w) as Kskip.
  pose proof (CommandDispatched pid s w) as Kcmd.
  unfold round_prefix, round_head, shell_at_eof, shell_skipping,
    globals_at_dispatch, globals_at_read, round_parse in *.
  unfold main_iteration in H.
  destruct (read_round s w) as [tr_head g].
  cbn [fst snd] in *.
  destruct (w_line w) as [pending|].
  - destruct (parseInput _ _ _ _ _ _ _) as [[tr_p [r|c]]|] eqn:Hp; [| |discriminate].
    + pose proof (parseInput_trace _ _ _ _ _ _ _ _ _ Hp) as Ht. cbn beta iota in Ht.
      subst tr_p.
      pose proof (parseInput_verdict _ _ _ _ _ _ _ _ _ Hp) as Hv.
      specialize (Kskip r eq_refl). specialize (Kcmd r).
      destruct (deliver (w_tstp_dispatch w) g) as [tr_sig' g'].
      cbn [fst snd app] in *.
      destruct (r_ret r =? 0)%Z eqn:Hr.
      * injection H as <- <-. apply Kskip. lia.
      * destruct (arg (r_args r) 0) as [cmd|] eqn:Hcmd.
        -- destruct (dispatch w g' r cmd) as [tr_d st_d] eqn:Hd.
           injection H as <- <-.
           apply (Kcmd cmd tr_d st_d eq_refl); [lia | reflexivity | exact Hd].
        -- rewrite (parse_verdict_null _ Hcmd) in Hv. lia.
    + pose proof (parseInput_trace _ _ _ _ _ _ _ _ _ Hp) as Ht. cbn beta iota in Ht.
      destruct Ht as (-> & ->). injection H as <- <-.
      apply Kexit. reflexivity.
  - injection H as <- <-. apply Keof. reflexivity.
Qed.

Lemma main_iteration_total (pid : Z) (s : shell) (w : world) :
  w_line w <> None -> exists tr st, main_iteration pid s w = Some (tr, st).
Proof.
  intros Hline. unfold main_iteration.
  destruct (read_round s w) as [tr_head g].
  destruct (w_line w) as [pending|]; [|contradiction].
  destruct (parseInput_total (fgOnlyMode g) pid (w_heap w)
              (read_line (sh_input s) pending) (sh_inputFile s) (sh_outputFile s)
              (sh_background s)) as (tr_p & o & ->).
  destruct o as [r|c]; [|eauto].
  destruct (deliver (w_tstp_dispatch w) g) as [tr_sig' g'].
  destruct (r_ret r =? 0)%Z; [eauto|].
  destruct (arg (r_args r) 0) as [cmd|]; [|eauto].
  destruct (dispatch w g' r cmd) as [tr_d st_d]. eauto.
Qed.

Lemma round_parse_line (pid : Z) (s : shell) (w : world) x :
  round_parse pid s w = Some x -> w_line w <> None.
Proof. unfold round_parse. destruct (w_line w); [discriminate|]. discriminate. Qed.

(** The parse of a round answers like [parseInput]. *)
Lemma round_parse_trace (pid : Z) (s : shell) (w : world) tr o :
  round_parse pid s w = Some (tr, o) ->
  match o with
  | Returns r => tr = [] /\ r_ret r = parse_verdict (r_args r)
  | Exits code => code = 1%Z /\ tr = [Perror "malloc"]
  end.
Proof.
  unfold round_parse. destruct (w_line w) as [pending|]; [|discriminate].
  intros Hp. pose proof (parseInput_trace _ _ _ _ _ _ _ _ _ Hp) as Ht.
  destruct o as [r|c]; [|exact Ht].
  split; [exact Ht | exact (parseInput_verdict _ _ _ _ _ _ _ _ _ Hp)].
Qed.

(** A round whose line parses to a command dispatches it. *)
Lemma command_round (pid : Z) (s : shell) (w : world) (r : parsed) (cmd : string) :
  round_parse pid s w = Some ([], Returns r) ->
  r_ret r <> 0%Z -> arg (r_args r) 0 = Some cmd ->
  main_iteration pid s w
  = Some ((round_prefix s w ++ fst (dispatch w (globals_at_dispatch s w) r cmd))%list,
          snd (dispatch w (globals_at_dispatch s w) r cmd)).
Proof.
  intros Hp Hr Hcmd.
  destruct (main_iteration_total pid s w (round_parse_line _ _ _ _ Hp))
    as (tr & st & Hm).
  rewrite Hm. apply main_iteration_shape in Hm.
  destruct Hm as [Hline | Hp' | r' Hp' Hr' | r' cmd' tr' st' Hp' Hr' Hcmd' Hd].
  - unfold round_parse in Hp. rewrite Hline in Hp. discriminate.
  - rewrite Hp in Hp'. discriminate.
  - rewrite Hp in Hp'. injection Hp' as <-. contradiction.
  - rewrite Hp in Hp'. injection Hp' as <-.
    rewrite Hcmd in Hcmd'. injection Hcmd' as <-. rewrite Hd. reflexivity.
Qed.

(** A round whose line is blank or a comment dispatches nothing. *)
Lemma skipped_round (pid : Z) (s : shell) (w : world) (r : parsed) :
  round_parse pid s w = Some ([], Returns r) -> r_ret r = 0%Z ->
  main_iteration pid s w = Some (round_prefix s w, Continue (shell_skipping s w r)).
Proof.
  intros Hp Hr.
  destruct (main_iteration_total pid s w (round_parse_line _ _ _ _ Hp))
    as (tr & st & Hm).
  rewrite Hm. apply main_iteration_shape in Hm.
  destruct Hm as [Hline | Hp' | r' Hp' Hr' | r' cmd' tr' st' Hp' Hr' Hcmd' Hd].
  - unfold round_parse in Hp. rewrite Hline in Hp. discriminate.
  - rewrite Hp in Hp'. discriminate.
  - rewrite Hp in Hp'. injection Hp' as <-. reflexivity.
  - rewrite Hp in Hp'. injection Hp' as <-. contradiction.
Qed.


Lemma run_nil (pid : Z) (s : shell) : run pid s [] = Some ([], Continue s).
Proof. reflexivity. Qed.

Lemma run_cons (pid : Z) (s : shell) (w : world) (rest : list world) :
  run pid s (w :: rest)
  = match main_iteration pid s w with
    | None => None
    | Some (tr, Terminated code) => Some (tr, Terminated code)
    | Some (tr, Continue s') =>
        match run pid s' rest with
        | None => None
        | Some (tr', st) => Some ((tr ++ tr')%list, st)
        end
    end.
Proof. reflexivity. Qed.

(** Every call of a round is one of those a round may make. *)
Lemma main_iteration_calls (pid : Z) (s : shell) (w : world) tr st :
  main_iteration pid s w = Some (tr, st) -> forallb (round_call_ok w) tr = true.
Proof.
  intros H. apply main_iteration_shape in H.
  destruct H as [Hline | Hp | r Hp Hr | r cmd tr st Hp Hr Hcmd Hd].
  - apply passive_calls_ok, round_head_passive.
  - rewrite forallb_app, (passive_calls_ok _ _ (round_head_passive s w)). reflexivity.
  - apply passive_calls_ok, round_prefix_passive.
  - rewrite forallb_app, (passive_calls_ok _ _ (round_prefix_passive s w)).
    pose proof (dispatch_calls w (globals_at_dispatch s w) r cmd) as H.
    rewrite Hd in H. exact H.
Qed.

Lemma calls_never_signal (w : world) (tr : list event) :
  forallb (round_call_ok w) tr = true -> killed tr = [] /\ shutdown_calls tr = [].
Proof.
  induction tr as [|e tr IH]; [split; reflexivity|].
  cbn [forallb]. intros H. apply andb_true_iff in H as (He & Htr).
  destruct (IH Htr) as (Hk & Hs). unfold killed, shutdown_calls in *.
  destruct e as [ | | | | | want options ret | | | ];
    cbn [flat_map List.filter app]; try (split; assumption).
  - cbn [round_call_ok] in He. apply andb_true_iff in He as (-> & _).
    split; assumption.
  - discriminate.
Qed.


(** ** The builtins as [main] runs them *)

(** After a command that exited, the [status] builtin prints its exit
    value. *)
Lemma status_builtin_exited (w : world) (g : globals) (r : parsed) (code : Z) :
  valid_exit_code code -> lastStatus g = wstatus (Exited code) ->
  printed (fst (dispatch w g r "status")) = ["exit value " +:+ format_d code +:+ nl].
Proof.
  intros Hv Hl. destruct (exited_status code Hv) as (_ & _ & H).
  cbn. rewrite Hl, H. reflexivity.
Qed.

(** After a command that a signal killed, it prints an exit value all the
    same, namely 0, where [displayStatus] names the signal. *)
Lemma status_builtin_signaled (w : world) (g : globals) (r : parsed) (sig : Z)
    (core : bool) :
  valid_signal sig -> lastStatus g = wstatus (Signaled sig core) ->
  printed (fst (dispatch w g r "status")) = ["exit value 0" +:+ nl]
  /\ printed (displayStatus g) = ["terminated by signal " +:+ format_d sig +:+ nl].
Proof.
  intros Hv Hl. destruct (signaled_status sig core Hv) as (H1 & _ & H3 & H4).
  unfold displayStatus. cbn. rewrite Hl, H1, H3, H4. split; reflexivity.
Qed.

(** C1 at the failing input: [sleep 100] is killed by signal 15, then
    [status] is typed.  The shell answers "exit value 0"; [displayStatus],
    which [main] never calls, would have answered "terminated by signal
    15". *)
Theorem status_after_signal_prints_exit_value :
  option_map (fun x => printed (fst x))
    (run 4242 (initial_shell blank)
       [typed "sleep 100" (Signaled 15 false); typed "status" (Exited 0)])
  = Some [": "; "terminated by signal 15" +:+ nl; ": "; "exit value 0" +:+ nl]
  /\ printed (displayStatus {| fgOnlyMode := 0;
                               lastStatus := wstatus (Signaled 15 false) |})
     = ["terminated by signal 15" +:+ nl].
Proof. split; vm_compute; reflexivity. Qed.

Lemma sweep_makes_no_shutdown_call zombies (no_children : bool) (m : machine) :
  shutdown_calls (fst (fst (checkBackgroundProcesses zombies no_children m))) = [].
Proof.
  apply (calls_never_signal (typed "" (Exited 0))), passive_calls_ok, sweep_passive.
Qed.

(** Whenever a round ends the process with code 0, that is through
    [exit], its trace holds none of the calls of the shutdown loop. *)
Lemma exit_round_makes_no_shutdown_call (pid : Z) (s : shell) (w : world) tr :
  main_iteration pid s w = Some (tr, Terminated 0) -> shutdown_calls tr = [].
Proof.
  intros H. apply main_iteration_calls in H. apply (calls_never_signal w), H.
Qed.

(** C2 at the failing input: [sleep 100 &] and then [exit].  The process
    ends with code 0 right after the prompt; the loop of
    [killBackgroundProcesses] makes at least one poll whenever it runs, and
    the trace has none. *)
Theorem exit_skips_shutdown :
  run 4242 (initial_shell blank) [typed_with_job "sleep 100 &"; typed_with_job "exit"]
  = Some ([WaitpidAny true WNOHANG 0; Printf ": "; Fflush;
           Fork {| sp_sigint_ignored := true; sp_stdin := DevNull;
                   sp_stdout := DevNull;
                   sp_argv := [Some "sleep"; Some "100"] |} 4243;
           Printf ("background pid is 4243" +:+ nl); Fflush;
           WaitpidAny true WNOHANG 0; Printf ": "; Fflush],
          Terminated 0)
  /\ shutdown_calls (killBackgroundProcesses [] false)
     = [WaitpidAny false WNOHANG 0].
Proof. split; vm_compute; reflexivity. Qed.

(** C3 at the failing input: in [echo & hello world] the ampersand is kept
    as an argument, but the test that decides so has already taken [hello]
    from [strtok], and it is in no argument. *)
Theorem ampersand_swallows_next_token :
  option_map (fun x => match snd x with
                       | Returns r => Some (r_args r, r_background r)
                       | Exits _ => None
                       end)
    (parseInput 0 4242 (fun _ => true)
       (read_line blank ("echo & hello world" +:+ nl)) None None 0)
  = Some (Some ([Some "echo"; Some "&"; Some "world"], 0%Z))
  /\ tokens (read_line blank ("echo & hello world" +:+ nl))
     = ["echo"; "&"; "hello"; "world"].
Proof. split; vm_compute; reflexivity. Qed.

(** The [cd] builtin makes the one call of [chdir] and says nothing,
    whatever the call answers. *)
Lemma cd_builtin_silent (w : world) (g : globals) (r : parsed) :
  exists path ret, fst (dispatch w g r "cd") = [Chdir path ret]
                   /\ path = match arg (r_args r) 1 with
                             | Some d => Some d
                             | None => w_home w
                             end
                   /\ ret = chdir (w_dirs w) path.
Proof. eexists _, _. cbn. split; [reflexivity | split; reflexivity]. Qed.

(** C4 at the failing input: [cd /nonexistent].  [chdir] answers -1 and
    the round goes on to the next prompt without a word; [changeDirectory],
    which [main] never calls, would have reported the failure. *)
Theorem cd_failure_not_reported :
  option_map fst
    (run 4242 (initial_shell blank)
       [typed "cd /nonexistent" (Exited 0); typed "cd" (Exited 0)])
  = Some [WaitpidAny true WNOHANG (-1); Printf ": "; Fflush;
          Chdir (Some "/nonexistent") (-1);
          WaitpidAny true WNOHANG (-1); Printf ": "; Fflush;
          Chdir (Some "/root") 0]
  /\ changeDirectory (w_dirs (typed "" (Exited 0))) (Some "/root")
       [Some "cd"; Some "/nonexistent"]
     = [Chdir (Some "/nonexistent") (-1); Perror "smallsh"].
Proof. split; vm_compute; reflexivity. Qed.

(** ** Redirection pointers across rounds *)

Lemma sweep_spawns_nothing zombies (no_children : bool) (m : machine) :
  spawned (fst (fst (checkBackgroundProcesses zombies no_children m))) = [].
Proof. apply spawned_passive, sweep_passive. Qed.

(** C10, as the code has it.  For a round whose line is parsed: the
    parser leaves each path pointer alone unless the line has the operator
    for it, and hands back 0 or 1 for [background]; a skipped line leaves
    both pointers, and the buffer they point into, to the next round; a
    dispatched line clears them afterwards; and the child forked for a
    command gets as its path the string that the pointer denotes in the
    buffer of this round, after this round's line was read and cut into
    tokens. *)
Theorem redirection_pointer_persists (pid : Z) (s : shell) (w : world)
    (pending : string) tr_p (r : parsed) :
  w_line w = Some pending ->
  round_parse pid s w = Some (tr_p, Returns r) ->
  (~ In "<" (tokens (read_line (sh_input s) pending)) -> r_inputFile r = sh_inputFile s)
  /\ (~ In ">" (tokens (read_line (sh_input s) pending)) ->
      r_outputFile r = sh_outputFile s)
  /\ (r_background r = 0%Z \/ r_background r = 1%Z)
  /\ (r_ret r = 0%Z ->
      exists tr s', main_iteration pid s w = Some (tr, Continue s')
                    /\ sh_input s' = r_input r
                    /\ sh_inputFile s' = r_inputFile r
                    /\ sh_outputFile s' = r_outputFile r)
  /\ (r_ret r <> 0%Z ->
      exists tr st,
        main_iteration pid s w = Some (tr, st)
        /\ (forall s', st = Continue s' ->
              sh_inputFile s' = None /\ sh_outputFile s' = None
              /\ sh_background s' = 0%Z)
        /\ (forall cmd, arg (r_args r) 0 = Some cmd -> is_builtin cmd = false ->
              exists child,
                spawned tr = [child]
                /\ (forall off, r_inputFile r = Some off ->
                      sp_stdin child = FromPath (c_str (r_input r) off))
                /\ (forall off, r_outputFile r = Some off ->
                      sp_stdout child = FromPath (c_str (r_input r) off)))).
Proof.
  intros Hline Hp.
  pose proof (round_parse_trace _ _ _ _ _ Hp) as (-> & Hv).
  assert (Hp' := Hp). unfold round_parse in Hp'. rewrite Hline in Hp'.
  pose proof (parseInput_frame _ _ _ _ _ _ _ _ _ Hp') as (Hfi & Hfo).
  pose proof (parseInput_background _ _ _ _ _ _ _ _ _ Hp') as Hbg.
  split; [exact Hfi | split; [exact Hfo | split; [tauto|]]].
  split.
  - intros Hret. rewrite (skipped_round _ _ _ _ Hp Hret).
    eexists _, _. split; [reflexivity|]. cbn. auto.
  - intros Hret. destruct (arg (r_args r) 0) as [cmd|] eqn:Hcmd.
    + rewrite (command_round _ _ _ _ _ Hp Hret Hcmd).
      eexists _, _. split; [reflexivity|]. split.
      * intros s' Hs'.
        destruct (dispatch w (globals_at_dispatch s w) r cmd) as [tr_d st] eqn:Hd.
        cbn [snd] in Hs'. subst st. apply dispatch_reset in Hd. tauto.
      * intros cmd' [= <-] Hnb.
        destruct (dispatch_spawn w (globals_at_dispatch s w) r cmd)
          as [(Hb & _) | (_ & child & Hsp & Hin & Hout & _)]; [congruence|].
        exists child. split; [|split].
        -- rewrite spawned_app, Hsp,
             (spawned_passive _ (round_prefix_passive s w)). reflexivity.
        -- intros off Hoff. apply Hin. rewrite Hoff. reflexivity.
        -- intros off Hoff. apply Hout. rewrite Hoff. reflexivity.
    + (* a null args[0] makes the parser return 0 *)
      exfalso. apply Hret. rewrite Hv. apply parse_verdict_null, Hcmd.
Qed.

(** After [< file], the command [cat] reads from the file [t]: the
    pointer kept from the skipped line points into the buffer that now
    holds the letters of [cat]. *)
Lemma skipped_path_is_overwritten :
  ~ skipped_path_applies 4242 "< file" "cat" "file"
  /\ skipped_path_applies 4242 "< file" "cat" "t".
Proof.
  assert (Hrun : option_map (fun x => spawned (fst x))
                   (run 4242 (initial_shell blank)
                      [typed "< file" (Exited 0); typed "cat" (Exited 0)])
                 = Some [ {| sp_sigint_ignored := false; sp_stdin := FromPath "t";
                             sp_stdout := Inherit; sp_argv := [Some "cat"] |} ])
    by (vm_compute; reflexivity).
  split.
  - intros (tr & st & child & Hr & Hsp & Hin). rewrite Hr in Hrun.
    cbn [option_map fst] in Hrun.
    rewrite Hsp in Hrun. injection Hrun as ->. discriminate Hin.
  - unfold skipped_path_applies.
    destruct (run 4242 (initial_shell blank) _) as [[tr st]|]; [|discriminate].
    cbn [option_map fst] in Hrun. injection Hrun as Hsp.
    eexists tr, st, _. split; [reflexivity | split; [exact Hsp | reflexivity]].
Qed.

(** The path survives when the next line is too short to reach it: after
    the comment [# note < file], [cat] does read from [file]. *)
Example skipped_path_out_of_reach :
  skipped_path_applies 4242 "# note < file" "cat" "file".
Proof.
  assert (Hrun : option_map (fun x => spawned (fst x))
                   (run 4242 (initial_shell blank)
                      [typed "# note < file" (Exited 0); typed "cat" (Exited 0)])
                 = Some [ {| sp_sigint_ignored := false; sp_stdin := FromPath "file";
                             sp_stdout := Inherit; sp_argv := [Some "cat"] |} ])
    by (vm_compute; reflexivity).
  unfold skipped_path_applies.
  destruct (run 4242 (initial_shell blank) _) as [[tr st]|]; [|discriminate].
  cbn [option_map fst] in Hrun. injection Hrun as Hsp.
  eexists tr, st, _. split; [reflexivity | split; [exact Hsp | reflexivity]].
Qed.

Lemma redirection_pointer_persists_witness :
  exists tr st child,
    main_iteration 4242
      (shell_after 4242 (initial_shell blank) [typed "< file" (Exited 0)])
      (typed "cat" (Exited 0)) = Some (tr, st)
    /\ spawned tr = [child] /\ sp_stdin child = FromPath "t".
Proof.
  pose (s := shell_after 4242 (initial_shell blank) [typed "< file" (Exited 0)]).
  pose (w := typed "cat" (Exited 0)).
  destruct (parsed_of (round_parse 4242 s w)) as [r|] eqn:Hr;
    [|vm_compute in Hr; discriminate Hr].
  assert (Hp : round_parse 4242 s w = Some ([], Returns r)).
  { revert Hr. unfold parsed_of.
    pose proof (round_parse_trace 4242 s w) as Ht.
    destruct (round_parse 4242 s w) as [[tr [r'|c]]|]; try discriminate.
    intros [= ->]. destruct (Ht tr (Returns r) eq_refl) as (-> & _).
    reflexivity. }
  assert (Hfacts : r_ret r = 1%Z /\ arg (r_args r) 0 = Some "cat"
                   /\ r_inputFile r = Some 2 /\ c_str (r_input r) 2 = "t").
  { assert (Hc : option_map (fun r => (r_ret r, arg (r_args r) 0, r_inputFile r,
                                        c_str (r_input r) 2))
                   (parsed_of (round_parse 4242 s w))
                 = Some (1%Z, Some "cat", Some 2, "t")) by (vm_compute; reflexivity).
    rewrite Hr in Hc. cbn in Hc. injection Hc as -> -> -> ->. auto. }
  destruct Hfacts as (Hret & Hcmd & Hoff & Hstr).
  destruct (redirection_pointer_persists 4242 s w ("cat" +:+ nl) [] r eq_refl Hp)
    as (Hframe & _ & _ & _ & Hdispatched).
  assert (Hkept : r_inputFile r = sh_inputFile s).
  { apply Hframe. vm_compute. intuition discriminate. }
  destruct Hdispatched as (tr & st & Hm & _ & Hchild); [rewrite Hret; discriminate|].
  destruct (Hchild "cat" Hcmd eq_refl) as (child & Hsp & Hin & _).
  exists tr, st, child. split; [exact Hm | split; [exact Hsp|]].
  rewrite (Hin 2 Hoff), Hstr. reflexivity.
Defined.

(** * Further properties *)

(** ** [parseInput] is the loop over the words of the line *)

Section WordsFacts.

Variable fg : Z.
Variable pid : Z.
Variable heap : nat -> bool.
Variables inF outF : option nat.

Lemma parse_loop_None (fuel : nat) (p : parser) :
  parse_loop fg pid heap fuel None p = Some ([], Returns p).
Proof. destruct fuel; reflexivity. Qed.

Lemma next_token_cursor (p : parser) t p' :
  next_token p = (t, p') -> cursor_ok t p'.
Proof.
  intros H. pose proof (next_token_ahead _ _ _ H) as Ha.
  apply next_token_spec in H as (H & _). destruct t as [s|]; cbn.
  - apply strtok_terminated in H. exact H.
  - rewrite (strtok_None _ _ _ _ H) in Ha. unfold ahead in Ha. cbn [app] in Ha.
    symmetry. exact Ha.
Qed.

Lemma next_token_at_end (p : parser) t p' :
  tokens (drop (p_olds p) (p_buf p)) = [] -> next_token p = (t, p') -> t = None.
Proof.
  intros He H. apply next_token_ahead in H. rewrite He in H.
  destruct t; [discriminate | reflexivity].
Qed.

Lemma next_token_keeps (p : parser) (tok : nat) t p' :
  terminated (p_buf p) tok (p_olds p) -> next_token p = (t, p') ->
  c_str (p_buf p') tok = c_str (p_buf p) tok /\ terminated (p_buf p') tok (p_olds p').
Proof.
  intros Ht H. apply next_token_spec in H as (H & _).
  exact (strtok_keeps _ _ _ _ _ _ Ht H).
Qed.

Lemma slot_of_next (p : parser) t p' (before now : option nat) (x : slot) :
  next_token p = (t, p') ->
  slot_of (p_buf p) (p_olds p) before now x ->
  slot_of (p_buf p') (p_olds p') before now x.
Proof.
  intros H. destruct x as [| |word]; cbn; auto.
  intros (off & Hn & Hc & Ht). destruct (next_token_keeps _ _ _ _ Ht H) as (Hk & Ht').
  exists off. rewrite Hk. auto.
Qed.

Lemma related_next (p : parser) t p' (st : words_state) :
  next_token p = (t, p') -> related inF outF p st -> related inF outF p' st.
Proof.
  intros H (Ha & Hb & Hi & Ho).
  pose proof (slot_of_next _ _ _ _ _ _ H Hi) as Hi'.
  pose proof (slot_of_next _ _ _ _ _ _ H Ho) as Ho'.
  apply next_token_spec in H as (_ & Ea & Ei & Eo & Eb).
  unfold related. rewrite Ea, Ei, Eo, Eb. auto.
Qed.

Lemma related_in (p : parser) (st : words_state) (t : option nat) (x : slot) :
  related inF outF p st -> slot_of (p_buf p) (p_olds p) inF t x ->
  related inF outF (set_inputFile t p) (with_in x st).
Proof. intros (Ha & Hb & Hi & Ho) Hx. unfold related. cbn. auto. Qed.

Lemma related_out (p : parser) (st : words_state) (t : option nat) (x : slot) :
  related inF outF p st -> slot_of (p_buf p) (p_olds p) outF t x ->
  related inF outF (set_outputFile t p) (with_out x st).
Proof. intros (Ha & Hb & Hi & Ho) Hx. unfold related. cbn. auto. Qed.

Lemma related_bg (p : parser) (st : words_state) (b : Z) :
  related inF outF p st -> related inF outF (set_background b p) (with_bg b st).
Proof. intros (Ha & Hb & Hi & Ho). unfold related. cbn. auto. Qed.

Lemma related_push (p : parser) (st : words_state) (a : option string) :
  related inF outF p st -> related inF outF (push_arg a p) (with_arg a st).
Proof. intros (Ha & Hb & Hi & Ho). unfold related. cbn. rewrite Ha. auto. Qed.

(** The word a token reads as, once [strtok] has returned it. *)
Lemma slot_of_token (p : parser) (s : nat) :
  terminated (p_buf p) s (p_olds p) ->
  forall before, slot_of (p_buf p) (p_olds p) before (Some s) (Points (c_str (p_buf p) s)).
Proof. intros Ht before. exists s. auto. Qed.

Lemma parse_loop_refines (fuel : nat) :
  forall token p st tr o,
    parse_loop fg pid heap fuel token p = Some (tr, o) ->
    cursor_ok token p -> related inF outF p st ->
    exists o',
      parse_words fg pid heap (ahead token p) st = (tr, o')
      /\ match o, o' with
         | Returns q, Returns st' => related inF outF q st'
         | Exits c, Exits c' => c = c'
         | _, _ => False
         end.
Proof.
  induction fuel as [|fuel IH]; intros token p st tr o H Hcur Hrel;
    destruct token as [tok|].
  2, 4: rewrite parse_loop_None in H; injection H as <- <-;
        unfold ahead; cbn in Hcur |- *; rewrite Hcur;
        exists (Returns st); split; [reflexivity | exact Hrel].
  all: assert (Hlen : length (ws_args st) = length (p_args p))
         by (destruct Hrel as (-> & _); reflexivity);
       unfold ahead; cbn [app]; cbn [parse_words parse_loop] in H |- *;
       rewrite Hlen;
       destruct (negb (length (p_args p) <? MAX_ARGS - 1)%nat);
       [injection H as <- <-; exists (Returns st); split; [reflexivity | exact Hrel]|].
  - discriminate.
  - cbn in Hcur. unfold parse_body in H.
    set (t := c_str (p_buf p) tok) in *.
    destruct (streq t "<") eqn:Elt.
    { destruct (next_token p) as [x p1] eqn:H1. cbv iota beta in H.
      destruct (next_token (set_inputFile x p1)) as [next p2] eqn:H2.
      destruct (parse_loop fg pid heap fuel next p2) as [[tr' r]|] eqn:Hl;
        [|discriminate]. injection H as <- <-.
      rewrite (next_token_ahead _ _ _ H1).
      pose proof (next_token_cursor _ _ _ H1) as Hc1.
      pose proof (related_next _ _ _ _ H1 Hrel) as Hr1.
      pose proof (next_token_cursor _ _ _ H2) as Hc2.
      pose proof (next_token_ahead _ _ _ H2) as Ha2. cbn [set_inputFile p_olds p_buf] in Ha2.
      destruct x as [s|]; unfold ahead at 1; cbn [app].
      - rewrite Ha2. apply (IH _ _ _ _ _ Hl Hc2).
        apply (related_next _ _ _ _ H2). apply related_in; [exact Hr1|].
        apply slot_of_token. exact Hc1.
      - cbn in Hc1. rewrite Hc1.
        assert (next = None) as ->
          by (rewrite Hc1 in Ha2; destruct next; [discriminate | reflexivity]).
        rewrite parse_loop_None in Hl. injection Hl as <- <-.
        exists (Returns (with_in Null st)). split; [reflexivity|].
        apply (related_next _ _ _ _ H2). apply related_in; [exact Hr1|].
        reflexivity. }
    destruct (streq t ">") eqn:Egt.
    { destruct (next_token p) as [x p1] eqn:H1. cbv iota beta in H.
      destruct (next_token (set_outputFile x p1)) as [next p2] eqn:H2.
      destruct (parse_loop fg pid heap fuel next p2) as [[tr' r]|] eqn:Hl;
        [|discriminate]. injection H as <- <-.
      rewrite (next_token_ahead _ _ _ H1).
      pose proof (next_token_cursor _ _ _ H1) as Hc1.
      pose proof (related_next _ _ _ _ H1 Hrel) as Hr1.
      pose proof (next_token_cursor _ _ _ H2) as Hc2.
      pose proof (next_token_ahead _ _ _ H2) as Ha2. cbn [set_outputFile p_olds p_buf] in Ha2.
      destruct x as [s|]; unfold ahead at 1; cbn [app].
      - rewrite Ha2. apply (IH _ _ _ _ _ Hl Hc2).
        apply (related_next _ _ _ _ H2). apply related_out; [exact Hr1|].
        apply slot_of_token. exact Hc1.
      - cbn in Hc1. rewrite Hc1.
        assert (next = None) as ->
          by (rewrite Hc1 in Ha2; destruct next; [discriminate | reflexivity]).
        rewrite parse_loop_None in Hl. injection Hl as <- <-.
        exists (Returns (with_out Null st)). split; [reflexivity|].
        apply (related_next _ _ _ _ H2). apply related_out; [exact Hr1|].
        reflexivity. }
    assert (Hargs : ws_args st = p_args p) by (destruct Hrel as (-> & _); reflexivity).
    destruct (streq t "&") eqn:Eamp.
    { destruct (next_token p) as [x p1] eqn:H1. cbv iota beta in H.
      rewrite (next_token_ahead _ _ _ H1).
      pose proof (next_token_cursor _ _ _ H1) as Hc1.
      pose proof (related_next _ _ _ _ H1 Hrel) as Hr1.
      destruct (next_token_keeps _ _ _ _ Hcur H1) as (Hk & _).
      pose proof H1 as H1'. apply next_token_spec in H1' as (_ & Ea1 & _).
      destruct x as [s|]; unfold ahead at 1; cbn [app]; cbv iota beta in H.
      - rewrite Hk, Ea1 in H. fold t in H. try rewrite Hlen.
        destruct (expandPID pid (heap (length (p_args p))) t) as [tr0 [e|c]].
        + destruct (next_token (push_arg e p1)) as [next p3] eqn:H3.
          destruct (parse_loop fg pid heap fuel next p3) as [[tr' r]|] eqn:Hl;
            [|discriminate]. injection H as <- <-.
          pose proof (next_token_ahead _ _ _ H3) as Ha3. cbn [push_arg p_olds p_buf] in Ha3.
          rewrite Ha3.
          destruct (IH _ _ (with_arg e st) _ _ Hl (next_token_cursor _ _ _ H3))
            as (o' & Hw & Ho).
          { apply (related_next _ _ _ _ H3). apply related_push. exact Hr1. }
          exists o'. rewrite Hw. split; [reflexivity | exact Ho].
        + injection H as <- <-. exists (Exits c). split; reflexivity.
      - cbn in Hc1. rewrite Hc1.
        destruct (next_token (if (fg =? 0)%Z then set_background 1 p1 else p1))
          as [next p2] eqn:H2.
        pose proof (next_token_ahead _ _ _ H2) as Ha2.
        assert (Hsame : tokens (drop (p_olds (if (fg =? 0)%Z then set_background 1 p1 else p1))
                                  (p_buf (if (fg =? 0)%Z then set_background 1 p1 else p1)))
                        = []) by (destruct (fg =? 0)%Z; exact Hc1).
        rewrite Hsame in Ha2.
        assert (next = None) as -> by (destruct next; [discriminate | reflexivity]).
        rewrite parse_loop_None in H. injection H as <- <-.
        exists (Returns (if (fg =? 0)%Z then with_bg 1 st else st)).
        split; [reflexivity|]. apply (related_next _ _ _ _ H2).
        destruct (fg =? 0)%Z; [apply related_bg|]; exact Hr1. }
    cbv iota beta in H. fold t in H. try rewrite Hlen.
    destruct (expandPID pid (heap (length (p_args p))) t) as [tr0 [e|c]].
    + destruct (next_token (push_arg e p)) as [next p3] eqn:H3.
      destruct (parse_loop fg pid heap fuel next p3) as [[tr' r]|] eqn:Hl;
        [|discriminate]. injection H as <- <-.
      pose proof (next_token_ahead _ _ _ H3) as Ha3. cbn [push_arg p_olds p_buf] in Ha3.
      rewrite Ha3.
      destruct (IH _ _ (with_arg e st) _ _ Hl (next_token_cursor _ _ _ H3))
        as (o' & Hw & Ho).
      { apply (related_next _ _ _ _ H3). apply related_push. exact Hrel. }
      exists o'. rewrite Hw. split; [reflexivity | exact Ho].
    + injection H as <- <-. exists (Exits c). split; reflexivity.
Qed.

Lemma slot_of_denotes (buf : list ascii) (olds : nat) (before now : option nat)
    (x : slot) :
  slot_of buf olds before now x -> denotes buf before now x.
Proof.
  destruct x as [| |word]; cbn; auto. intros (off & H1 & H2 & _). eauto.
Qed.

(** [parseInput] always answers, and its answer is the answer of the loop
    over the words of the line. *)
Lemma parseInput_words (input : list ascii) (background : Z) :
  exists tr o o',
    parseInput fg pid heap input inF outF background = Some (tr, o)
    /\ parse_words fg pid heap (tokens input) initial_words = (tr, o')
    /\ parsed_matches inF outF o o'.
Proof.
  unfold parseInput.
  destruct (next_token _) as [token p] eqn:Hn.
  pose proof (next_token_progress _ _ _ Hn) as (_ & Hlen & Htok). cbn in Hlen, Htok.
  pose proof (next_token_ahead _ _ _ Hn) as Ha. cbn [p_olds p_buf] in Ha.
  rewrite drop_0 in Ha.
  destruct (parse_loop_total fg pid heap (length input) token p) as [[tr o] Hr].
  { intros tok Htk. destruct (Htok tok Htk) as (_ & H1 & H2). lia. }
  destruct (parse_loop_refines (length input) token p initial_words tr o Hr)
    as (o' & Hw & Ho).
  { exact (next_token_cursor _ _ _ Hn). }
  { apply (related_next _ _ _ _ Hn). unfold related. cbn. auto. }
  rewrite Hr, Ha. destruct o as [q|c].
  - destruct o' as [st'|c']; [|contradiction].
    destruct Ho as (Hargs & Hbg & Hi & Hou).
    eexists tr, _, (Returns st'). split; [reflexivity | split; [exact Hw|]].
    cbn. rewrite Hargs.
    split; [reflexivity | split; [symmetry; exact Hbg | split; [reflexivity|]]].
    split; eapply slot_of_denotes; eassumption.
  - destruct o' as [st'|c']; [contradiction|].
    eexists tr, _, (Exits c'). split; [reflexivity | split; [exact Hw | exact Ho]].
Qed.

End WordsFacts.

(** ** [expandPID] on any word *)

Lemma strstr_zero_starts (w : string) :
  strstr w "$$" = Some 0 -> starts_with "$"%char w = true.
Proof.
  intros H. apply strstr_Some in H as (b & Hb & _). cbn [string_take] in Hb.
  rewrite app_nil in Hb. rewrite Hb. reflexivity.
Qed.

(** With the allocation succeeding, the answer is the word with its
    first marker replaced; the buffer of [new_length + 1] bytes cuts
    nothing off. *)
Lemma expandPID_ok (pid : Z) (w : string) :
  expandPID pid true w = ([], Returns (Some (expand_word pid w))).
Proof.
  unfold expandPID, expand_word. destruct (strstr w "$$") as [k|] eqn:Hs; [|reflexivity].
  rewrite pid_str_whole. apply strstr_Some in Hs as (b & Hw & Hl).
  remember (string_take k w) as a eqn:Ea.
  assert (Hd : string_drop (k + 2) w = b).
  { rewrite Hw, <- Hl. rewrite (string_drop_app a ("$$" +:+ b) 2). reflexivity. }
  assert (Hlen : String.length w = (String.length a + 2 + String.length b)%nat).
  { rewrite Hw at 1. rewrite !string_app_length. cbn. lia. }
  rewrite Hd, snprintf_fits; [reflexivity|].
  rewrite !string_app_length, Hlen. lia.
Qed.

Lemma strstr_first (a b : string) :
  ~ occurs_in "$$" (a +:+ "$") -> strstr (a +:+ "$$" +:+ b) "$$" = Some (String.length a).
Proof.
  induction a as [|c a IH]; intros Hno.
  - rewrite app_nil. destruct b; reflexivity.
  - rewrite app_cons. cbn [strstr].
    destruct (String.prefix "$$" (String c (a +:+ "$$" +:+ b))) eqn:Hp.
    + exfalso. apply Hno. apply prefix_app in Hp as [x Hx].
      change ("$$" +:+ x) with (String "$" (String "$" x)) in Hx.
      injection Hx as -> Hx. destruct a as [|c' a].
      * exists "", "". reflexivity.
      * rewrite app_cons in Hx. injection Hx as -> _.
        exists "", (a +:+ "$"). reflexivity.
    + rewrite IH; [reflexivity|]. intros (x & y & Hxy). apply Hno.
      exists (String c x), y. rewrite (app_cons c x), <- Hxy. reflexivity.
Qed.

(** X6: the first marker of a word, and only the first, is replaced by
    the decimal process id: when the marker first occurs right behind [a],
    the word [a $$ b] becomes [a pid b], whatever [b] holds, and the result
    is as long as the word minus two plus the digits. *)
Theorem expandPID_replaces_first_marker (pid : Z) (a b : string) :
  ~ occurs_in "$$" (a +:+ "$") ->
  expandPID pid true (a +:+ "$$" +:+ b) = ([], Returns (Some (a +:+ format_d pid +:+ b)))
  /\ String.length (a +:+ format_d pid +:+ b)
     = (String.length (a +:+ "$$" +:+ b) - 2 + String.length (format_d pid))%nat.
Proof.
  intros Hno. split.
  - rewrite expandPID_ok. unfold expand_word. rewrite (strstr_first a b Hno).
    rewrite string_take_app, (string_drop_app a ("$$" +:+ b) 2). reflexivity.
  - rewrite !string_app_length. cbn. lia.
Qed.

Lemma expandPID_replaces_first_marker_witness :
  expandPID 4242 true "log$$.$$" = ([], Returns (Some "log4242.$$")).
Proof.
  apply (expandPID_replaces_first_marker 4242 "log" ".$$").
  apply strstr_None. reflexivity.
Defined.

(** ** The loop over the words *)

Lemma limit_open (args : list (option string)) :
  length args < MAX_ARGS - 1 -> negb (length args <? MAX_ARGS - 1)%nat = false.
Proof. intros H. apply negb_false_iff. apply Nat.ltb_lt. exact H. Qed.

Lemma limit_closed (args : list (option string)) :
  MAX_ARGS - 1 <= length args -> negb (length args <? MAX_ARGS - 1)%nat = true.
Proof. intros H. apply negb_true_iff. apply Nat.ltb_ge. exact H. Qed.

Lemma parse_words_full (fg pid : Z) (heap : nat -> bool) (toks : list string)
    (st : words_state) :
  MAX_ARGS - 1 <= length (ws_args st) ->
  parse_words fg pid heap toks st = ([], Returns st).
Proof.
  intros H. destruct toks as [|t rest]; [reflexivity|].
  cbn [parse_words]. rewrite (limit_closed _ H). reflexivity.
Qed.

Lemma plain_tests (w : string) :
  plain w -> streq w "<" = false /\ streq w ">" = false /\ streq w "&" = false.
Proof.
  unfold plain, is_operator. intros H.
  apply orb_false_elim in H as [H H3]. apply orb_false_elim in H as [H1 H2]. auto.
Qed.

(** Words that are no operators are stored one after the other, expanded,
    as long as the array has room. *)
Lemma parse_words_plain (fg pid : Z) (heap : nat -> bool) (ws tail : list string) :
  (forall k, heap k = true) -> Forall plain ws ->
  forall st,
    length (ws_args st) + length ws <= MAX_ARGS - 1 ->
    parse_words fg pid heap (ws ++ tail) st
    = parse_words fg pid heap tail
        {| ws_args := ws_args st ++ map (fun w => Some (expand_word pid w)) ws;
           ws_in := ws_in st; ws_out := ws_out st; ws_bg := ws_bg st |}.
Proof.
  intros Hheap Hplain. induction Hplain as [|w ws Hw _ IH]; intros st Hlen.
  - cbn [app map]. rewrite app_nil_r. destruct st; reflexivity.
  - cbn [app length] in *. cbn [parse_words].
    rewrite limit_open by lia.
    destruct (plain_tests w Hw) as (-> & -> & ->).
    rewrite Hheap, expandPID_ok.
    rewrite IH by (cbn [with_arg ws_args]; rewrite length_app; cbn [length]; lia).
    cbn [with_arg ws_args ws_in ws_out ws_bg map].
    rewrite <- app_assoc. cbn [app].
    destruct (parse_words fg pid heap tail _) as [tr o]. reflexivity.
Qed.

(** A property of the word-level variables that every store keeps holds
    when the loop over the words returns. *)
Lemma parse_words_invariant (fg pid : Z) (heap : nat -> bool)
    (P : words_state -> Prop) :
  (forall st x, P st -> P (with_in x st)) ->
  (forall st x, P st -> P (with_out x st)) ->
  (forall st b, P st -> P (with_bg b st)) ->
  (forall st a, P st -> length (ws_args st) < MAX_ARGS - 1 -> P (with_arg a st)) ->
  forall toks st tr st',
    P st -> parse_words fg pid heap toks st = (tr, Returns st') -> P st'.
Proof.
  intros Hin Hout Hbg Harg toks.
  assert (Hn : exists n, length toks <= n) by eauto.
  destruct Hn as [n Hn]. revert toks Hn.
  induction n as [|n IH]; intros toks Hn st tr st' HP.
  - destruct toks; [|cbn in Hn; lia]. intros [= _ <-]. exact HP.
  - destruct toks as [|t rest]; [intros [= _ <-]; exact HP|].
    cbn [length] in Hn. cbn [parse_words].
    destruct (negb (length (ws_args st) <? MAX_ARGS - 1)%nat) eqn:Hlim;
      [intros [= _ <-]; exact HP|].
    apply negb_false_iff, Nat.ltb_lt in Hlim.
    destruct (streq t "<").
    { destruct rest as [|f rest']; [intros [= _ <-]; auto|].
      cbn [length] in Hn. apply IH; [lia | auto]. }
    destruct (streq t ">").
    { destruct rest as [|f rest']; [intros [= _ <-]; auto|].
      cbn [length] in Hn. apply IH; [lia | auto]. }
    destruct (streq t "&").
    { destruct rest as [|f rest'].
      - intros [= _ <-]. destruct (fg =? 0)%Z; auto.
      - cbn [length] in Hn.
        destruct (expandPID pid _ t) as [tr0 [e|c]]; [|discriminate].
        destruct (parse_words fg pid heap rest' _) as [tr1 o1] eqn:Hr.
        intros [= _ ->]. apply (IH rest' ltac:(lia) _ _ _ (Harg st e HP Hlim) Hr). }
    destruct (expandPID pid _ t) as [tr0 [e|c]]; [|discriminate].
    destruct (parse_words fg pid heap rest _) as [tr1 o1] eqn:Hr.
    intros [= _ ->]. apply (IH rest ltac:(lia) _ _ _ (Harg st e HP Hlim) Hr).
Qed.

Section Answers.

Variable fg : Z.
Variable pid : Z.
Variable heap : nat -> bool.
Variables inF outF : option nat.
Variable input : list ascii.
Variable background : Z.

(** What the loop over the words returns, [parseInput] returns. *)
Lemma parseInput_from_words tr st :
  parse_words fg pid heap (tokens input) initial_words = (tr, Returns st) ->
  exists r,
    parseInput fg pid heap input inF outF background = Some (tr, Returns r)
    /\ r_args r = ws_args st /\ r_background r = ws_bg st
    /\ r_ret r = parse_verdict (ws_args st)
    /\ denotes (r_input r) inF (r_inputFile r) (ws_in st)
    /\ denotes (r_input r) outF (r_outputFile r) (ws_out st).
Proof.
  intros Hw.
  destruct (parseInput_words fg pid heap inF outF input background)
    as (tr' & o & o' & Hp & Hw' & Hm).
  rewrite Hw in Hw'. injection Hw' as <- <-.
  destruct o as [r|c]; [|contradiction]. exists r. split; [exact Hp | exact Hm].
Qed.

(** And the other way round. *)
Lemma parseInput_to_words tr r :
  parseInput fg pid heap input inF outF background = Some (tr, Returns r) ->
  exists st,
    parse_words fg pid heap (tokens input) initial_words = (tr, Returns st)
    /\ r_args r = ws_args st /\ r_background r = ws_bg st
    /\ r_ret r = parse_verdict (ws_args st)
    /\ denotes (r_input r) inF (r_inputFile r) (ws_in st)
    /\ denotes (r_input r) outF (r_outputFile r) (ws_out st).
Proof.
  intros Hp.
  destruct (parseInput_words fg pid heap inF outF input background)
    as (tr' & o & o' & Hp' & Hw & Hm).
  rewrite Hp in Hp'. injection Hp' as <- <-.
  destruct o' as [st|c]; [|contradiction]. exists st. split; [exact Hw | exact Hm].
Qed.

(** X1: [parseInput] always answers, and what it answers is what the
    loop of lines 154-190 gives when it is run over the words of the line
    (the maximal runs of non-space characters): the same events, the same
    end of the process, or on return the same arguments, the same
    [background], the verdict of line 197 on those arguments, and two path
    pointers that are untouched, [NULL], or denote in the returned buffer
    the word that followed the operator. *)
Theorem parseInput_follows_words :
  exists tr o o',
    parseInput fg pid heap input inF outF background = Some (tr, o)
    /\ parse_words fg pid heap (tokens input) initial_words = (tr, o')
    /\ parsed_matches inF outF o o'.
Proof. apply parseInput_words. Qed.

(** X2: the argument array is never overrun.  Whatever the line, the
    arguments [parseInput] returns number at most [MAX_ARGS - 1], so that
    the terminating [NULL] of line 192 is written inside the array. *)
Theorem parseInput_respects_capacity tr r :
  parseInput fg pid heap input inF outF background = Some (tr, Returns r) ->
  length (r_args r) <= MAX_ARGS - 1 /\ length (r_args r) < MAX_ARGS.
Proof.
  intros Hp. apply parseInput_to_words in Hp as (st & Hw & -> & _).
  assert (H : length (ws_args st) <= MAX_ARGS - 1).
  { apply (parse_words_invariant fg pid heap
             (fun st => length (ws_args st) <= MAX_ARGS - 1))
      with (toks := tokens input) (st := initial_words) (tr := tr); auto.
    - intros st0 a H0 Hlt. cbn [with_arg ws_args]. rewrite length_app.
      cbn [length]. lia.
    - cbn [initial_words ws_args length]. lia. }
  split; [exact H | unfold MAX_ARGS in *; lia].
Qed.

(** X3: a line of plain words.  When no word of the line is an operator
    and every allocation succeeds, the arguments are the words of the
    line in order, each with its first marker expanded, cut off without
    notice after [MAX_ARGS - 1] of them; nothing is printed, both path
    pointers are left as they were and [background] is 0. *)
Theorem plain_words_become_arguments :
  (forall k, heap k = true) -> Forall plain (tokens input) ->
  exists r,
    parseInput fg pid heap input inF outF background = Some ([], Returns r)
    /\ r_args r
       = map (fun w => Some (expand_word pid w)) (take (MAX_ARGS - 1) (tokens input))
    /\ r_inputFile r = inF /\ r_outputFile r = outF /\ r_background r = 0%Z.
Proof.
  intros Hheap Hplain.
  assert (Hw : parse_words fg pid heap (tokens input) initial_words
               = ([], Returns
                        {| ws_args := map (fun w => Some (expand_word pid w))
                                        (take (MAX_ARGS - 1) (tokens input));
                           ws_in := Kept; ws_out := Kept; ws_bg := 0 |})).
  { rewrite <- (take_drop (MAX_ARGS - 1) (tokens input)) at 1.
    rewrite parse_words_plain;
      [| exact Hheap | apply Forall_take; exact Hplain
       | cbn [initial_words ws_args length]; rewrite length_take; lia ].
    cbn [initial_words ws_args ws_in ws_out ws_bg app].
    destruct (le_lt_dec (MAX_ARGS - 1) (length (tokens input))) as [Hge|Hlt].
    - apply parse_words_full. cbn [ws_args].
      rewrite length_map, length_take. lia.
    - rewrite drop_ge by lia. reflexivity. }
  destruct (parseInput_from_words _ _ Hw) as (r & Hp & Ha & Hb & _ & Hi & Ho).
  exists r. cbn in Hi, Ho, Ha, Hb. auto.
Qed.

End Answers.

Lemma parseInput_respects_capacity_witness :
  exists tr r,
    parseInput 0 4242 (fun _ => true) (read_line blank (repeat_word 600 "a" +:+ nl))
      None None 0 = Some (tr, Returns r)
    /\ length (tokens (read_line blank (repeat_word 600 "a" +:+ nl))) = 600
    /\ length (r_args r) <= MAX_ARGS - 1.
Proof.
  edestruct (parseInput_from_words 0 4242 (fun _ => true) None None
               (read_line blank (repeat_word 600 "a" +:+ nl)) 0) as (r & Hp & _);
    [vm_compute; reflexivity|].
  eexists _, r. split; [exact Hp | split; [vm_compute; reflexivity|]].
  eapply parseInput_respects_capacity. exact Hp.
Defined.

Lemma plain_words_become_arguments_witness :
  exists r,
    parseInput 0 4242 (fun _ => true) (read_line blank ("echo hello $$" +:+ nl))
      None None 0 = Some ([], Returns r)
    /\ r_args r = [Some "echo"; Some "hello"; Some "4242"].
Proof.
  destruct (plain_words_become_arguments 0 4242 (fun _ => true) None None
              (read_line blank ("echo hello $$" +:+ nl)) 0) as (r & Hp & Ha & _).
  - reflexivity.
  - vm_compute. repeat constructor.
  - exists r. split; [exact Hp|]. rewrite Ha. vm_compute. reflexivity.
Defined.

(** ** Lines that are skipped *)

Lemma expandPID_first_char (pid : Z) (ok : bool) (w : string) tr s :
  starts_with "#"%char w = true ->
  expandPID pid ok w = (tr, Returns (Some s)) -> starts_with "#"%char s = true.
Proof.
  intros Hw. destruct ok.
  - rewrite expandPID_ok. intros [= _ <-]. unfold expand_word.
    destruct (strstr w "$$") as [k|] eqn:Hs; [|exact Hw].
    destruct k as [|k].
    + apply strstr_zero_starts in Hs. destruct w as [|c w']; [discriminate|].
      cbn in Hw, Hs. apply Ascii.eqb_eq in Hw, Hs. congruence.
    + destruct w as [|c w']; [discriminate|]. cbn [string_take].
      rewrite app_cons. exact Hw.
  - unfold expandPID. destruct (strstr w "$$"); discriminate.
Qed.

Lemma comment_is_plain (w : string) :
  starts_with "#"%char w = true -> plain w.
Proof.
  destruct w as [|c w']; [discriminate|]. cbn. intros H.
  apply Ascii.eqb_eq in H. subst c. reflexivity.
Qed.

Lemma verdict_on_comment (e : option string) (more : list (option string)) :
  (forall s, e = Some s -> starts_with "#"%char s = true) ->
  parse_verdict (e :: more) = 0%Z.
Proof.
  intros H. unfold parse_verdict, arg. cbn. destruct e as [s|]; [|reflexivity].
  specialize (H s eq_refl). destruct s as [|c s']; [discriminate|].
  cbn in H. rewrite H. reflexivity.
Qed.

Section Skipped.

Variable fg : Z.
Variable pid : Z.
Variable heap : nat -> bool.
Variables inF outF : option nat.
Variable input : list ascii.
Variable background : Z.

(** X4: lines that are skipped.  A line without a word (empty, or spaces
    only) makes [parseInput] return 0 with no argument, nothing printed,
    both path pointers as they were and [background] 0.  A line whose
    first word starts with [#] makes it return 0 whenever it returns,
    whatever follows on the line and whether or not the allocations
    succeed. *)
Theorem blank_and_comment_lines_return_zero :
  (tokens input = [] ->
   exists r,
     parseInput fg pid heap input inF outF background = Some ([], Returns r)
     /\ r_ret r = 0%Z /\ r_args r = []
     /\ r_inputFile r = inF /\ r_outputFile r = outF /\ r_background r = 0%Z)
  /\ (forall w rest tr r,
        tokens input = w :: rest -> starts_with "#"%char w = true ->
        parseInput fg pid heap input inF outF background = Some (tr, Returns r) ->
        r_ret r = 0%Z).
Proof.
  split.
  - intros Hnone.
    destruct (parseInput_from_words fg pid heap inF outF input background []
                initial_words) as (r & Hp & Ha & Hb & Hv & Hi & Ho).
    { rewrite Hnone. reflexivity. }
    exists r. cbn in Ha, Hb, Hv, Hi, Ho. auto 10.
  - intros w rest tr r Htok Hw Hp.
    apply parseInput_to_words in Hp as (st & Hws & _ & _ & -> & _).
    rewrite Htok in Hws. cbn [parse_words] in Hws.
    rewrite limit_open in Hws by (cbn; unfold MAX_ARGS; lia).
    destruct (plain_tests w (comment_is_plain w Hw)) as (E1 & E2 & E3).
    rewrite E1, E2, E3 in Hws.
    destruct (expandPID pid (heap (length (ws_args initial_words))) w)
      as [tr0 [e|c]] eqn:He; [|discriminate].
    destruct (parse_words fg pid heap rest (with_arg e initial_words))
      as [tr1 o1] eqn:Hrest.
    injection Hws as _ ->.
    assert (Hgrow : exists more, ws_args st = e :: more).
    { apply (parse_words_invariant fg pid heap
               (fun st => exists more, ws_args st = e :: more))
        with (toks := rest) (st := with_arg e initial_words) (tr := tr1); auto.
      - intros st0 a (more & Hm) _. exists (more ++ [a])%list. cbn. rewrite Hm. reflexivity.
      - exists []. reflexivity. }
    destruct Hgrow as (more & ->). apply verdict_on_comment.
    intros s ->. exact (expandPID_first_char _ _ _ _ _ Hw He).
Qed.

End Skipped.

Lemma blank_and_comment_lines_return_zero_witness :
  (exists r,
     parseInput 0 4242 (fun _ => true) (read_line blank ("   " +:+ nl)) None None 0
     = Some ([], Returns r) /\ r_ret r = 0%Z)
  /\ (exists tr r,
        parseInput 0 4242 (fun _ => true)
          (read_line blank ("#note$$ ls > out &" +:+ nl)) None None 0
        = Some (tr, Returns r) /\ r_ret r = 0%Z).
Proof.
  split.
  - destruct (blank_and_comment_lines_return_zero 0 4242 (fun _ => true) None None
                (read_line blank ("   " +:+ nl)) 0) as (Hblank & _).
    destruct Hblank as (r & Hp & Hr & _); [vm_compute; reflexivity|].
    exists r. auto.
  - destruct (blank_and_comment_lines_return_zero 0 4242 (fun _ => true) None None
                (read_line blank ("#note$$ ls > out &" +:+ nl)) 0) as (_ & Hcomment).
    edestruct (parseInput_from_words 0 4242 (fun _ => true) None None
                 (read_line blank ("#note$$ ls > out &" +:+ nl)) 0) as (r & Hp & _);
      [vm_compute; reflexivity|].
    eexists _, r. split; [exact Hp|].
    apply (Hcomment "#note$$" ["ls"; ">"; "out"; "&"] [] r); [| reflexivity | exact Hp].
    vm_compute. reflexivity.
Defined.

(** ** Lines in the documented form *)

Lemma parse_words_grammar (fg pid : Z) (heap : nat -> bool) (ws : list string)
    (fi fo : option string) (amp : bool) (st : words_state) :
  (forall k, heap k = true) -> Forall plain ws ->
  length (ws_args st) + length ws < MAX_ARGS - 1 ->
  parse_words fg pid heap
    (ws ++ redirection "<" fi ++ redirection ">" fo ++ (if amp then ["&"] else [])) st
  = ([], Returns
           {| ws_args := ws_args st ++ map (fun w => Some (expand_word pid w)) ws;
              ws_in := match fi with Some f => Points f | None => ws_in st end;
              ws_out := match fo with Some f => Points f | None => ws_out st end;
              ws_bg := if amp && (fg =? 0)%Z then 1 else ws_bg st |}).
Proof.
  intros Hheap Hplain Hlen.
  rewrite parse_words_plain by (auto; lia).
  assert (Hopen : negb (length (ws_args st
                                ++ map (fun w => Some (expand_word pid w)) ws)
                        <? MAX_ARGS - 1)%nat = false).
  { apply limit_open. rewrite length_app, length_map. lia. }
  destruct fi as [f|], fo as [f'|], amp; cbn [redirection app parse_words];
    cbn [with_in with_out with_bg ws_args ws_in ws_out ws_bg];
    repeat (rewrite Hopen; cbn [streq String.eqb Ascii.eqb Bool.eqb andb
                                parse_words with_in with_out with_bg
                                ws_args ws_in ws_out ws_bg]);
    try (destruct (fg =? 0)%Z); reflexivity.
Qed.

Section Grammar.

Variable fg : Z.
Variable pid : Z.
Variable heap : nat -> bool.
Variables inF outF : option nat.
Variable input : list ascii.
Variable background : Z.

(** X5: a line in the documented form [words < in > out &], each of the
    three tails optional.  When the words are no operators, fewer than
    [MAX_ARGS - 1], and every allocation succeeds, [parseInput] returns
    the words expanded as the arguments; the input pointer denotes [in]
    and the output pointer [out] in the buffer it returns, or is left as
    it was when the redirection is absent; and [background] is 1 exactly
    when the ampersand is there and the flag read is 0. *)
Theorem documented_line_is_parsed (ws : list string) (fi fo : option string)
    (amp : bool) :
  tokens input
  = (ws ++ redirection "<" fi ++ redirection ">" fo
        ++ (if amp then ["&"] else []))%list ->
  (forall k, heap k = true) -> Forall plain ws -> length ws < MAX_ARGS - 1 ->
  exists r,
    parseInput fg pid heap input inF outF background = Some ([], Returns r)
    /\ r_args r = map (fun w => Some (expand_word pid w)) ws
    /\ denotes (r_input r) inF (r_inputFile r)
         (match fi with Some f => Points f | None => Kept end)
    /\ denotes (r_input r) outF (r_outputFile r)
         (match fo with Some f => Points f | None => Kept end)
    /\ r_background r = (if amp && (fg =? 0)%Z then 1 else 0)%Z.
Proof.
  intros Htok Hheap Hplain Hlen.
  destruct (parseInput_from_words fg pid heap inF outF input background []
              {| ws_args := map (fun w => Some (expand_word pid w)) ws;
                 ws_in := match fi with Some f => Points f | None => Kept end;
                 ws_out := match fo with Some f => Points f | None => Kept end;
                 ws_bg := if amp && (fg =? 0)%Z then 1 else 0 |})
    as (r & Hp & Ha & Hb & _ & Hi & Ho).
  { rewrite Htok. rewrite parse_words_grammar by (auto; cbn; lia). reflexivity. }
  exists r. cbn [ws_args ws_in ws_out ws_bg] in *. auto.
Qed.

End Grammar.

Lemma documented_line_is_parsed_witness :
  exists r,
    parseInput 0 4242 (fun _ => true)
      (read_line blank ("sort -r < in$$ > out &" +:+ nl)) None None 0
    = Some ([], Returns r)
    /\ r_args r = [Some "sort"; Some "-r"]
    /\ deref (r_input r) (r_inputFile r) = Some "in$$"
    /\ deref (r_input r) (r_outputFile r) = Some "out"
    /\ r_background r = 1%Z.
Proof.
  destruct (documented_line_is_parsed 0 4242 (fun _ => true) None None
              (read_line blank ("sort -r < in$$ > out &" +:+ nl)) 0
              ["sort"; "-r"] (Some "in$$") (Some "out") true)
    as (r & Hp & Ha & (oi & Hi & Hci) & (oo & Ho & Hco) & Hb).
  - vm_compute. reflexivity.
  - reflexivity.
  - repeat constructor.
  - unfold MAX_ARGS. cbn. lia.
  - exists r. rewrite Hi, Ho. cbn [deref option_map]. rewrite Hci, Hco.
    repeat split; assumption.
Defined.

(** ** The rounds of the main loop *)

Lemma streq_eq (a b : string) : streq a b = true -> a = b.
Proof. apply String.eqb_eq. Qed.

Lemma parse_verdict_command (x : string) (more : list (option string)) :
  starts_with "#"%char x = false -> parse_verdict (Some x :: more) = 1%Z.
Proof.
  unfold parse_verdict. rewrite arg_head.
  destruct x as [|c x]; [reflexivity|]. cbn [starts_with]. intros ->. reflexivity.
Qed.

(** With every allocation successful the loop over the words returns,
    and without an event. *)
Lemma parse_words_returns (fg pid : Z) (heap : nat -> bool) :
  (forall k, heap k = true) ->
  forall n toks st, length toks <= n ->
    exists st', parse_words fg pid heap toks st = ([], Returns st').
Proof.
  intros Hheap. induction n as [|n IH]; intros toks st Hn.
  - destruct toks; [|cbn in Hn; lia]. eexists. reflexivity.
  - destruct toks as [|t rest]; [eexists; reflexivity|].
    cbn [length] in Hn. cbn [parse_words].
    destruct (negb _); [eexists; reflexivity|].
    destruct (streq t "<").
    { destruct rest as [|f rest']; [eexists; reflexivity|].
      apply IH. cbn [length] in Hn. lia. }
    destruct (streq t ">").
    { destruct rest as [|f rest']; [eexists; reflexivity|].
      apply IH. cbn [length] in Hn. lia. }
    rewrite Hheap, expandPID_ok.
    destruct (streq t "&").
    { destruct rest as [|f rest']; [eexists; reflexivity|].
      destruct (IH rest' (with_arg (Some (expand_word pid t)) st)) as (st' & ->);
        [cbn [length] in Hn; lia|].
      eexists. reflexivity. }
    destruct (IH rest (with_arg (Some (expand_word pid t)) st)) as (st' & ->); [lia|].
    eexists. reflexivity.
Qed.

Lemma round_parse_words (pid : Z) (s : shell) (w : world) (pending : string) tr st :
  w_line w = Some pending ->
  parse_words (fgOnlyMode (globals_at_read s w)) pid (w_heap w)
    (tokens (read_line (sh_input s) pending)) initial_words = (tr, Returns st) ->
  exists r,
    round_parse pid s w = Some (tr, Returns r)
    /\ r_args r = ws_args st /\ r_background r = ws_bg st
    /\ r_ret r = parse_verdict (ws_args st)
    /\ denotes (r_input r) (sh_inputFile s) (r_inputFile r) (ws_in st)
    /\ denotes (r_input r) (sh_outputFile s) (r_outputFile r) (ws_out st).
Proof.
  intros Hline Hw. unfold round_parse. rewrite Hline.
  exact (parseInput_from_words _ _ _ _ _ _ _ _ _ Hw).
Qed.

Lemma denotes_deref (buf : list ascii) (before after : option nat)
    (path : option string) :
  denotes buf before after (match path with Some f => Points f | None => Kept end) ->
  before = None -> deref buf after = path.
Proof.
  destruct path as [f|]; cbn [denotes].
  - intros (off & -> & <-) _. reflexivity.
  - intros -> ->. reflexivity.
Qed.

(** ** Reading the line *)

Lemma c_str_cells_line (cells tl : list ascii) :
  c_str_cells (<[strcspn LF (cells ++ NUL :: tl)%list := NUL]>
                 (cells ++ NUL :: tl)%list)
  = line_of (string_of_list_ascii cells).
Proof.
  induction cells as [|c cells IH]; [reflexivity|].
  cbn [app strcspn string_of_list_ascii line_of].
  destruct (is_nul c || Ascii.eqb c LF) eqn:Hc; [reflexivity|].
  cbn [insert list_insert c_str_cells].
  apply orb_false_iff in Hc as (-> & _). f_equal. exact IH.
Qed.

Lemma line_of_upto_lf (cells : list ascii) :
  line_of (string_of_list_ascii (upto_lf cells))
  = line_of (string_of_list_ascii cells).
Proof.
  induction cells as [|c cells IH]; [reflexivity|].
  cbn [upto_lf]. destruct (Ascii.eqb c LF) eqn:Hc.
  - cbn [string_of_list_ascii line_of]. rewrite Hc, orb_true_r. reflexivity.
  - cbn [string_of_list_ascii line_of]. rewrite IH. reflexivity.
Qed.

Lemma take_string (n : nat) (s : string) :
  string_of_list_ascii (take n (list_ascii_of_string s)) = string_take n s.
Proof.
  revert s. induction n as [|n IH]; intros [|c s]; try reflexivity.
  cbn [list_ascii_of_string take string_of_list_ascii string_take]. f_equal. apply IH.
Qed.

(** What the buffer denotes after the read does not depend on what it
    held before. *)
Lemma read_line_text (buf : list ascii) (pending : string) :
  c_str_cells (read_line buf pending)
  = line_of (string_take (MAX_CMD_LEN - 1) pending).
Proof.
  unfold read_line, fgets.
  rewrite c_str_cells_line, line_of_upto_lf, take_string. reflexivity.
Qed.

(** The words of a buffer are the words of the string it denotes. *)
Lemma tokens_c_str (cells : list ascii) :
  tokens cells = tokens (list_ascii_of_string (c_str_cells cells)).
Proof.
  induction cells as [|c rest IH]; [reflexivity|].
  cbn [tokens c_str_cells].
  destruct (is_nul c) eqn:Hc; [reflexivity|].
  cbn [list_ascii_of_string tokens]. rewrite Hc.
  destruct (Ascii.eqb c SPACE); [exact IH|].
  destruct rest as [|c' rest']; [reflexivity|].
  cbn [c_str_cells] in *.
  destruct (is_nul c') eqn:Hc'; [rewrite IH; reflexivity|].
  cbn [list_ascii_of_string] in *. rewrite Hc'.
  cbn [orb]. rewrite <- IH. reflexivity.
Qed.

Lemma tokens_read_line (buf buf' : list ascii) (pending : string) :
  tokens (read_line buf pending) = tokens (read_line buf' pending).
Proof.
  rewrite (tokens_c_str (read_line buf pending)),
    (tokens_c_str (read_line buf' pending)), !read_line_text.
  reflexivity.
Qed.

Lemma line_of_plain (line rest : string) :
  line_of line = line -> line_of (line +:+ String LF rest) = line.
Proof.
  induction line as [|c line IH]; [reflexivity|].
  rewrite app_cons. cbn [line_of].
  destruct (is_nul c || Ascii.eqb c LF); [discriminate|].
  intros [= H]. f_equal. exact (IH H).
Qed.

Lemma string_take_more (n : nat) (a b : string) :
  String.length a <= n -> string_take n (a +:+ b) = a +:+ string_take (n - String.length a) b.
Proof.
  revert n. induction a as [|c a IH]; intros n Hn.
  - rewrite app_nil. cbn [String.length]. rewrite Nat.sub_0_r. reflexivity.
  - destruct n as [|n]; [cbn in Hn; lia|].
    rewrite !app_cons. cbn [string_take String.length Nat.sub]. f_equal.
    apply IH. cbn [String.length] in Hn. lia.
Qed.

(** X7: the read of lines 105-112.  After [fgets] and the cut at the
    line feed, the buffer denotes the first line of the pending text (up
    to its first line feed or [NUL]) cut to [MAX_CMD_LEN - 1] characters,
    whatever the buffer held before: what is left of a longer earlier
    line lies behind the [NUL] and is never seen.  In particular a line
    of at most [MAX_CMD_LEN - 2] characters that is ended by a line feed
    is read back exactly. *)
Theorem read_line_reads_first_line (buf : list ascii) (pending : string) :
  c_str (read_line buf pending) 0 = line_of (string_take (MAX_CMD_LEN - 1) pending)
  /\ tokens (read_line buf pending)
     = tokens (list_ascii_of_string (line_of (string_take (MAX_CMD_LEN - 1) pending)))
  /\ (forall line more,
        pending = line +:+ nl +:+ more -> line_of line = line ->
        String.length line <= MAX_CMD_LEN - 2 ->
        c_str (read_line buf pending) 0 = line).
Proof.
  assert (H : c_str (read_line buf pending) 0
              = line_of (string_take (MAX_CMD_LEN - 1) pending)).
  { unfold c_str. rewrite drop_0. apply read_line_text. }
  split; [exact H|]. split.
  - rewrite tokens_c_str, read_line_text. reflexivity.
  - intros line more -> Hline Hlen. rewrite H. unfold MAX_CMD_LEN in *.
    rewrite string_take_more by lia.
    destruct (2048 - 1 - String.length line) as [|k] eqn:Hk; [lia|].
    unfold nl. rewrite app_cons. cbn [string_take].
    apply line_of_plain. exact Hline.
Qed.

Lemma read_line_reads_first_line_witness :
  c_str (read_line (read_line blank ("a longer line, read before" +:+ nl))
           ("ls -l" +:+ nl)) 0
  = "ls -l".
Proof.
  apply (proj2 (proj2 (read_line_reads_first_line
                         (read_line blank ("a longer line, read before" +:+ nl))
                         ("ls -l" +:+ nl))) "ls -l" "").
  - reflexivity.
  - reflexivity.
  - unfold MAX_CMD_LEN. cbn. lia.
Defined.

(** ** A command line, from the read to the child *)

(** A round that reads a command line in the documented form: what
    the parser hands to [main]. *)
Lemma parsed_round (pid : Z) (s : shell) (w : world) (pending cmd : string)
    (rest : list string) (fi fo : option string) (amp : bool) :
  w_line w = Some pending ->
  tokens (read_line (sh_input s) pending)
  = ((cmd :: rest) ++ redirection "<" fi ++ redirection ">" fo
       ++ (if amp then ["&"] else []))%list ->
  Forall plain (cmd :: rest) -> length (cmd :: rest) < MAX_ARGS - 1 ->
  (forall k, w_heap w k = true) ->
  starts_with "#"%char (expand_word pid cmd) = false ->
  exists r,
    round_parse pid s w = Some ([], Returns r)
    /\ r_args r = map (fun x => Some (expand_word pid x)) (cmd :: rest)
    /\ r_background r
       = (if amp && (fgOnlyMode (globals_at_read s w) =? 0)%Z then 1 else 0)%Z
    /\ r_ret r = 1%Z
    /\ denotes (r_input r) (sh_inputFile s) (r_inputFile r)
         (match fi with Some f => Points f | None => Kept end)
    /\ denotes (r_input r) (sh_outputFile s) (r_outputFile r)
         (match fo with Some f => Points f | None => Kept end).
Proof.
  intros Hline Htok Hplain Hlen Hheap Hhash.
  destruct (round_parse_words pid s w pending []
              {| ws_args := map (fun x => Some (expand_word pid x)) (cmd :: rest);
                 ws_in := match fi with Some f => Points f | None => Kept end;
                 ws_out := match fo with Some f => Points f | None => Kept end;
                 ws_bg := if amp && (fgOnlyMode (globals_at_read s w) =? 0)%Z
                          then 1 else 0 |} Hline)
    as (r & Hp & Ha & Hb & Hv & Hi & Ho).
  { rewrite Htok. rewrite parse_words_grammar by (auto; cbn [initial_words ws_args length]; lia).
    reflexivity. }
  cbn [ws_args ws_in ws_out ws_bg] in Ha, Hb, Hv, Hi, Ho.
  cbn [map] in Hv. rewrite (parse_verdict_command _ _ Hhash) in Hv.
  exists r. auto 10.
Qed.

(** A round that reads a command line in the documented form, from a
    shell whose two path pointers are [NULL]: the call of the launcher it
    leads to. *)
Lemma launch_round (pid : Z) (s : shell) (w : world) (pending cmd : string)
    (rest : list string) (fi fo : option string) (amp : bool) :
  w_line w = Some pending ->
  tokens (read_line (sh_input s) pending)
  = ((cmd :: rest) ++ redirection "<" fi ++ redirection ">" fo
       ++ (if amp then ["&"] else []))%list ->
  Forall plain (cmd :: rest) -> length (cmd :: rest) < MAX_ARGS - 1 ->
  (forall k, w_heap w k = true) ->
  starts_with "#"%char (expand_word pid cmd) = false ->
  is_builtin (expand_word pid cmd) = false ->
  sh_inputFile s = None -> sh_outputFile s = None ->
  exists r tr o,
    executeCommand (globals_at_dispatch s w) (w_tstp_launch w)
      (map (fun x => Some (expand_word pid x)) (cmd :: rest)) fi fo
      (if amp && (fgOnlyMode (globals_at_read s w) =? 0)%Z then 1 else 0)
      (w_fork w) (w_fate w) = (tr, o)
    /\ main_iteration pid s w
       = Some ((round_prefix s w ++ tr)%list,
               match o with
               | Exits code => Terminated code
               | Returns g' => Continue (shell_reset g' r)
               end).
Proof.
  intros Hline Htok Hplain Hlen Hheap Hhash Hbuiltin Hin Hout.
  destruct (parsed_round pid s w pending cmd rest fi fo amp
              Hline Htok Hplain Hlen Hheap Hhash)
    as (r & Hp & Ha & Hb & Hv & Hi & Ho).
  assert (Hcmd : arg (r_args r) 0 = Some (expand_word pid cmd)).
  { rewrite Ha. reflexivity. }
  rewrite (command_round pid s w r _ Hp ltac:(lia) Hcmd).
  rewrite (dispatch_external _ _ _ _ Hbuiltin).
  rewrite Ha, Hb, (denotes_deref _ _ _ _ Hi Hin), (denotes_deref _ _ _ _ Ho Hout).
  destruct (executeCommand _ _ _ _ _ _ _ _) as [tr o] eqn:He.
  exists r, tr, o. split; [reflexivity|]. destruct o; reflexivity.
Qed.

(** The value of [background] behind line 285. *)
Lemma effective_background_runs (s : shell) (w : world) (amp : bool) :
  mode_ok (sh_globals s) ->
  effective_background (globals_at_dispatch s w)
    (if amp && (fgOnlyMode (globals_at_read s w) =? 0)%Z then 1 else 0)
  = (if runs_in_background s w amp then 1 else 0)%Z.
Proof.
  intros H. unfold effective_background, runs_in_background.
  destruct (globals_at_dispatch_mode s w H) as [-> | ->];
    destruct (amp && _); reflexivity.
Qed.

Lemma child_setup_streams (args : list (option string)) (fi fo : option string)
    (b : bool) :
  child_setup args fi fo (if b then 1 else 0)
  = {| sp_sigint_ignored := b; sp_stdin := stream_of fi b;
       sp_stdout := stream_of fo b; sp_argv := args |}.
Proof. destruct b, fi, fo; reflexivity. Qed.

Section Launch.

Variable pid : Z.
Variable s : shell.
Variable w : world.

(** X8: a command line in the documented form, from the read to the
    child.  The shell has both path pointers [NULL] and its mode is 0 or
    1; the line is [cmd args < in > out &] with plain words, each tail
    optional, and [cmd] is no builtin and no comment; the allocations and
    the fork succeed.  Then the round forks exactly one child, whose
    arguments are the words with their first marker expanded.  The child
    is set up for the background when the line ends with the ampersand
    and the flag is off both when the parser and when line 281 read it:
    then it ignores [SIGINT] and its streams are the named files, else
    the null device; otherwise its streams are the named files, else the
    shell's own.  The parent reads the flag again at line 366: it prints
    the child's identity and does not wait when the child was set up for
    the background and the flag is still off; otherwise it waits for
    that child and keeps its status, also when a signal delivered
    between the two tests has left a child set up for the background.
    Either way the round ends with both pointers [NULL] and [background]
    0, and with the flag as the messages of the handler count it. *)
Theorem command_line_launches_child (pending cmd : string) (rest : list string)
    (fi fo : option string) (amp : bool) (child : positive) :
  w_line w = Some pending ->
  tokens (read_line (sh_input s) pending)
  = ((cmd :: rest) ++ redirection "<" fi ++ redirection ">" fo
       ++ (if amp then ["&"] else []))%list ->
  Forall plain (cmd :: rest) -> length (cmd :: rest) < MAX_ARGS - 1 ->
  (forall k, w_heap w k = true) ->
  starts_with "#"%char (expand_word pid cmd) = false ->
  is_builtin (expand_word pid cmd) = false ->
  sh_inputFile s = None -> sh_outputFile s = None ->
  mode_ok (sh_globals s) ->
  w_fork w = Some child ->
  exists tr s',
    main_iteration pid s w = Some ((round_prefix s w ++ tr)%list, Continue s')
    /\ spawned tr
       = [ {| sp_sigint_ignored := runs_in_background s w amp;
              sp_stdin := stream_of fi (runs_in_background s w amp);
              sp_stdout := stream_of fo (runs_in_background s w amp);
              sp_argv := map (fun x => Some (expand_word pid x)) (cmd :: rest) |} ]
    /\ sh_inputFile s' = None /\ sh_outputFile s' = None
    /\ sh_background s' = 0%Z
    /\ fgOnlyMode (sh_globals s')
       = ((fgOnlyMode (globals_at_dispatch s w)
           + Z.of_nat (length (raw_writes tr))) mod 2)%Z
    /\ if left_in_background s w amp then
         waited tr = []
         /\ printed tr = ["background pid is " +:+ format_d (Z.pos child) +:+ nl]
         /\ lastStatus (sh_globals s') = lastStatus (sh_globals s)
       else
         waited tr = [Z.pos child]
         /\ printed tr
            = (if WIFSIGNALED (wstatus (w_fate w)) then
                 ["terminated by signal "
                  +:+ format_d (WTERMSIG (wstatus (w_fate w))) +:+ nl]
               else [])
         /\ lastStatus (sh_globals s') = wstatus (w_fate w).
Proof.
  intros Hline Htok Hplain Hlen Hheap Hhash Hbuiltin Hin Hout Hmode Hfork.
  destruct (launch_round pid s w pending cmd rest fi fo amp
              Hline Htok Hplain Hlen Hheap Hhash Hbuiltin Hin Hout)
    as (r & tr & o & He & Hm).
  rewrite Hm. clear Hm. rewrite Hfork in He.
  destruct (executeCommand_own (globals_at_dispatch s w) (w_tstp_launch w)
              (map (fun x => Some (expand_word pid x)) (cmd :: rest)) fi fo
              (if amp && (fgOnlyMode (globals_at_read s w) =? 0)%Z then 1 else 0)
              child (w_fate w)) as (tr0 & g' & He' & Hown).
  rewrite He' in He. injection He as <- <-.
  pose proof (executeCommand_parity _ _ _ _ _ _ _ _ _ _
                (globals_at_dispatch_mode s w Hmode) He') as (_ & Hpar).
  rewrite (effective_background_runs s w amp Hmode), child_setup_streams in Hown.
  exists tr0, (shell_reset g' r). split; [reflexivity|].
  rewrite spawned_own, waited_own, printed_own.
  cbn [shell_reset sh_inputFile sh_outputFile sh_background sh_globals].
  rewrite <- (globals_at_dispatch_frame s w).
  unfold left_in_background.
  destruct (runs_in_background s w amp); cbn [Z.eqb negb andb] in Hown |- *.
  - destruct (fgOnlyMode (globals_at_parent _ _) =? 0)%Z;
      destruct Hown as (-> & Hl).
    + auto 10.
    + destruct (WIFSIGNALED _); auto 10.
  - destruct Hown as (-> & Hl). destruct (WIFSIGNALED _); auto 10.
Qed.

End Launch.

Lemma command_line_launches_child_witness :
  exists tr s',
    main_iteration 4242 (initial_shell blank)
      (typed_during_launch "sort -r < in$$ &" [[]; [true]] (Exited 0))
    = Some ((round_prefix (initial_shell blank)
               (typed_during_launch "sort -r < in$$ &" [[]; [true]] (Exited 0))
             ++ tr)%list, Continue s')
    /\ spawned tr
       = [ {| sp_sigint_ignored := true; sp_stdin := FromPath "in$$";
              sp_stdout := DevNull; sp_argv := [Some "sort"; Some "-r"] |} ]
    /\ waited tr = [4243%Z]
    /\ printed tr = []
    /\ fgOnlyMode (sh_globals s') = 1%Z.
Proof.
  destruct (command_line_launches_child 4242 (initial_shell blank)
              (typed_during_launch "sort -r < in$$ &" [[]; [true]] (Exited 0))
              ("sort -r < in$$ &" +:+ nl) "sort" ["-r"] (Some "in$$") None true
              4243%positive)
    as (tr & s' & Hm & Hs & _ & _ & _ & Hmode & Hbg).
  - reflexivity.
  - vm_compute. reflexivity.
  - repeat constructor.
  - unfold MAX_ARGS. cbn. lia.
  - reflexivity.
  - reflexivity.
  - reflexivity.
  - reflexivity.
  - reflexivity.
  - left. reflexivity.
  - reflexivity.
  - exists tr, s'. split; [exact Hm|]. split; [exact Hs|].
    assert (Htr : raw_writes tr = [(STDOUT_FILENO, msg_entering)]).
    { vm_compute in Hm. injection Hm as <- _. reflexivity. }
    split; [exact (proj1 Hbg)|]. split; [exact (proj1 (proj2 Hbg))|].
    rewrite Hmode, Htr. reflexivity.
Defined.

(** A round that reads the one word [status]. *)
Lemma status_round (pid : Z) (s : shell) (w : world) (pending : string) :
  w_line w = Some pending ->
  tokens (read_line (sh_input s) pending) = ["status"] ->
  w_heap w 0 = true ->
  exists s',
    main_iteration pid s w
    = Some ((round_prefix s w
             ++ [Printf ("exit value "
                         +:+ format_d (WEXITSTATUS (lastStatus (sh_globals s)))
                         +:+ nl)])%list,
            Continue s')
    /\ sh_globals s' = globals_at_dispatch s w.
Proof.
  intros Hline Htok Hheap.
  destruct (round_parse_words pid s w pending []
              {| ws_args := [Some "status"]; ws_in := Kept; ws_out := Kept;
                 ws_bg := 0 |} Hline)
    as (r & Hp & Ha & _ & Hv & _).
  { rewrite Htok. cbn [parse_words].
    rewrite limit_open by (cbn; unfold MAX_ARGS; lia).
    change (streq "status" "<") with false. change (streq "status" ">") with false.
    change (streq "status" "&") with false. cbv iota.
    cbn [initial_words ws_args length].
    rewrite Hheap, expandPID_ok. reflexivity. }
  cbn [ws_args] in Ha, Hv.
  rewrite (parse_verdict_command "status" [] eq_refl) in Hv.
  assert (Hcmd : arg (r_args r) 0 = Some "status") by (rewrite Ha; reflexivity).
  rewrite (command_round pid s w r _ Hp ltac:(lia) Hcmd).
  rewrite <- (globals_at_dispatch_frame s w).
  eexists. split; reflexivity.
Qed.

(** X9: [status] after a foreground command.  A round reads a command
    line in the documented form without the ampersand (plain words,
    fewer than [MAX_ARGS - 1] of them, each redirection optional, the
    command no builtin and no comment), its allocations and its [fork]
    succeed, and the child exits with [code]; the next round reads the
    one word [status], and the allocation for it succeeds.  Then the
    shell goes on, the last thing it has printed is [exit value code],
    and the only child it has waited for is that one.  This holds
    wherever the path pointers of the shell point, whichever children
    the two sweeps reap, and whatever is delivered at any point of
    interruption of the two rounds: during the sweeps, the reads, the
    fork or the wait. *)
Theorem status_reports_foreground_exit (pid : Z) (s : shell) (w1 w2 : world)
    (p1 p2 cmd : string) (rest : list string) (fi fo : option string)
    (child : positive) (code : Z) :
  w_line w1 = Some p1 ->
  tokens (read_line (sh_input s) p1)
  = ((cmd :: rest) ++ redirection "<" fi ++ redirection ">" fo)%list ->
  Forall plain (cmd :: rest) -> length (cmd :: rest) < MAX_ARGS - 1 ->
  (forall k, w_heap w1 k = true) ->
  starts_with "#"%char (expand_word pid cmd) = false ->
  is_builtin (expand_word pid cmd) = false ->
  w_fork w1 = Some child -> w_fate w1 = Exited code -> valid_exit_code code ->
  w_line w2 = Some p2 -> tokens (read_line blank p2) = ["status"] ->
  w_heap w2 0 = true ->
  exists tr s2,
    run pid s [w1; w2] = Some (tr, Continue s2)
    /\ last (printed tr) = Some ("exit value " +:+ format_d code +:+ nl)
    /\ waited tr = [Z.pos child].
Proof.
  intros Hline Htok Hplain Hlen Hheap Hhash Hbuiltin Hfork Hfate Hcode
    Hline2 Htok2 Hheap2.
  destruct (parsed_round pid s w1 p1 cmd rest fi fo false Hline)
    as (r & Hp & Ha & Hb & Hv & _); auto.
  { rewrite Htok, app_nil_r. reflexivity. }
  cbn [andb] in Hb.
  assert (Hcmd : arg (r_args r) 0 = Some (expand_word pid cmd)).
  { rewrite Ha. reflexivity. }
  pose proof (command_round pid s w1 r _ Hp ltac:(lia) Hcmd) as Hm1.
  rewrite (dispatch_external _ _ _ _ Hbuiltin), Hb, Hfork, Hfate in Hm1.
  destruct (executeCommand_own (globals_at_dispatch s w1) (w_tstp_launch w1)
              (r_args r) (deref (r_input r) (r_inputFile r))
              (deref (r_input r) (r_outputFile r)) 0 child (Exited code))
    as (tr1 & g1 & He & Hown).
  rewrite He in Hm1. cbn [fst snd] in Hm1.
  assert (Hfg : effective_background (globals_at_dispatch s w1) 0 = 0%Z).
  { unfold effective_background. destruct (_ =? 1)%Z; reflexivity. }
  rewrite Hfg in Hown. cbn [Z.eqb negb andb] in Hown.
  destruct (exited_status code Hcode) as (_ & Hsig & Hexit).
  rewrite Hsig in Hown. destruct Hown as (Hown & Hlast).
  destruct (status_round pid (shell_reset g1 r) w2 p2 Hline2) as (s2 & Hm2 & _);
    [|exact Hheap2|].
  { rewrite (tokens_read_line _ blank). exact Htok2. }
  rewrite run_cons, Hm1, run_cons, Hm2, run_nil, app_nil_r.
  cbn [shell_reset sh_globals]. rewrite Hlast, Hexit.
  eexists _, s2. split; [reflexivity|]. split.
  - rewrite !List.app_assoc, printed_app. apply last_snoc.
  - rewrite !waited_app, !(waited_passive _ (round_prefix_passive _ _)),
      (waited_own tr1), Hown. reflexivity.
Qed.

Lemma status_reports_foreground_exit_witness :
  exists tr s2,
    run 4242 (initial_shell blank)
      [typed_during_launch "grep -c x < in" [[true]; [false]; [true; true]] (Exited 7);
       typed_under_signals "status" [true] [true]]
    = Some (tr, Continue s2)
    /\ last (printed tr) = Some ("exit value 7" +:+ nl)
    /\ length (raw_writes tr) = 6.
Proof.
  destruct (status_reports_foreground_exit 4242 (initial_shell blank)
              (typed_during_launch "grep -c x < in" [[true]; [false]; [true; true]]
                 (Exited 7))
              (typed_under_signals "status" [true] [true])
              ("grep -c x < in" +:+ nl) ("status" +:+ nl)
              "grep" ["-c"; "x"] (Some "in") None 4243%positive 7)
    as (tr & s2 & Hrun & Hlast & _).
  - reflexivity.
  - vm_compute. reflexivity.
  - repeat constructor.
  - unfold MAX_ARGS. cbn. lia.
  - reflexivity.
  - reflexivity.
  - reflexivity.
  - reflexivity.
  - reflexivity.
  - unfold valid_exit_code. lia.
  - reflexivity.
  - vm_compute. reflexivity.
  - reflexivity.
  - exists tr, s2. split; [exact Hrun|]. split; [exact Hlast|].
    vm_compute in Hrun. injection Hrun as <- _. reflexivity.
Defined.

(** ** The calls of a round *)

(** X10: the waits of a round.  Every [waitpid] for any child that a
    round makes passes the status pointer and [WNOHANG], so it returns at
    once; a [waitpid] for one child is made with no option, and only for
    the child that the round itself forked, at most once; and a round
    sends no signal.  So among the calls to [waitpid] and [kill] only
    the wait for the foreground child can hold the round up: no
    background child does. *)
Theorem round_waits_only_for_its_child (pid : Z) (s : shell) (w : world) tr st :
  main_iteration pid s w = Some (tr, st) ->
  Forall (fun e =>
            match e with
            | WaitpidAny want_status options _ =>
                want_status = true /\ options = WNOHANG
            | WaitpidChild p options =>
                options = 0%Z /\ exists child, w_fork w = Some child /\ p = Z.pos child
            | Kill _ _ => False
            | _ => True
            end) tr
  /\ length (waited tr) <= 1.
Proof.
  intros Hm. split.
  - apply main_iteration_calls in Hm. rewrite forallb_forall in Hm.
    apply List.Forall_forall. intros e Hin. specialize (Hm e Hin).
    destruct e as [ | | | | | want options ret | p options | | ]; try exact I.
    + cbn [round_call_ok] in Hm. apply andb_true_iff in Hm as (-> & Hm).
      apply Z.eqb_eq in Hm. auto.
    + cbn [round_call_ok] in Hm. apply andb_true_iff in Hm as (Ho & Hp).
      destruct (w_fork w) as [child|]; [|discriminate].
      apply Z.eqb_eq in Ho, Hp. eauto.
    + discriminate.
  - apply main_iteration_shape in Hm.
    destruct Hm as [Hline | Hp | r Hp Hr | r cmd tr st Hp Hr Hcmd Hd].
    + rewrite (waited_passive _ (round_head_passive s w)). cbn. lia.
    + rewrite waited_app, (waited_passive _ (round_head_passive s w)). cbn. lia.
    + rewrite (waited_passive _ (round_prefix_passive s w)). cbn. lia.
    + rewrite waited_app, (waited_passive _ (round_prefix_passive s w)).
      cbn [app]. pose proof (dispatch_waits w (globals_at_dispatch s w) r cmd) as H.
      rewrite Hd in H. exact H.
Qed.

Lemma round_waits_only_for_its_child_witness :
  exists tr st,
    main_iteration 4242 (initial_shell blank) (typed_with_job "sleep 5") = Some (tr, st)
    /\ waited tr = [4243%Z].
Proof.
  destruct (main_iteration 4242 (initial_shell blank) (typed_with_job "sleep 5"))
    as [[tr st]|] eqn:Hm; [|vm_compute in Hm; discriminate].
  exists tr, st. split; [reflexivity|].
  destruct (round_waits_only_for_its_child 4242 (initial_shell blank)
              (typed_with_job "sleep 5") tr st Hm) as (Hall & Hlen).
  vm_compute in Hm. injection Hm as <- _. reflexivity.
Defined.

(** X11: no run of the shell sends a signal to a child or polls without
    asking for the status: the two calls of [killBackgroundProcesses] do
    not occur, whatever the lines, the signals and the failures, and also
    when the run ends with [exit]. *)
Theorem run_never_signals_children (pid : Z) (ws : list world) :
  forall s tr st,
    run pid s ws = Some (tr, st) -> killed tr = [] /\ shutdown_calls tr = [].
Proof.
  induction ws as [|w rest IH]; intros s tr st.
  - rewrite run_nil. intros [= <- _]. split; reflexivity.
  - rewrite run_cons.
    destruct (main_iteration pid s w) as [[tr1 [s1|code]]|] eqn:Hm; [| |discriminate].
    + destruct (run pid s1 rest) as [[tr2 st2]|] eqn:Hrun; [|discriminate].
      intros [= <- _].
      destruct (calls_never_signal w tr1 (main_iteration_calls _ _ _ _ _ Hm))
        as (Hk & Hs).
      destruct (IH _ _ _ Hrun) as (Hk' & Hs').
      rewrite killed_app, shutdown_calls_app, Hk, Hs, Hk', Hs'. split; reflexivity.
    + intros [= <- _].
      exact (calls_never_signal w tr1 (main_iteration_calls _ _ _ _ _ Hm)).
Qed.

Lemma run_never_signals_children_witness :
  exists tr,
    run 4242 (initial_shell blank)
      [typed_with_job "sleep 100 &"; typed_with_job "exit"]
    = Some (tr, Terminated 0)
    /\ killed tr = [] /\ shutdown_calls tr = [].
Proof.
  destruct (run 4242 (initial_shell blank)
              [typed_with_job "sleep 100 &"; typed_with_job "exit"])
    as [[tr st]|] eqn:Hrun; [|vm_compute in Hrun; discriminate].
  exists tr. split.
  - vm_compute in Hrun. injection Hrun as _ <-. reflexivity.
  - exact (run_never_signals_children 4242 _ _ tr st Hrun).
Defined.

(** ** The two globals *)

(** X12: [lastStatus] changes only by waiting.  A round that goes on
    either waits for no child and leaves [lastStatus] as it was (whatever
    signals arrive and wherever in the round, whatever background
    children are reaped, whichever builtin runs), or waits for exactly
    the child it forked and leaves the status of that child in it. *)
Theorem lastStatus_changes_only_by_waiting (pid : Z) (s : shell) (w : world) tr s' :
  main_iteration pid s w = Some (tr, Continue s') ->
  (waited tr = [] /\ lastStatus (sh_globals s') = lastStatus (sh_globals s))
  \/ (exists child, w_fork w = Some child /\ waited tr = [Z.pos child]
                    /\ lastStatus (sh_globals s') = wstatus (w_fate w)).
Proof.
  intros H. apply main_iteration_shape in H.
  remember (Continue s') as st eqn:Hst.
  destruct H as [Hline | Hp | r Hp Hr | r cmd tr st Hp Hr Hcmd Hd].
  - injection Hst as <-. left. split.
    + apply waited_passive, round_head_passive.
    + apply globals_at_read_frame.
  - discriminate.
  - injection Hst as <-. left. split.
    + apply waited_passive, round_prefix_passive.
    + apply globals_at_dispatch_frame.
  - subst st. rewrite waited_app, (waited_passive _ (round_prefix_passive s w)).
    cbn [app]. rewrite <- (globals_at_dispatch_frame s w).
    exact (proj2 (dispatch_status _ _ _ _ _ _ Hd)).
Qed.

Lemma lastStatus_changes_only_by_waiting_witness :
  exists tr s',
    main_iteration 4242 (initial_shell blank)
      (typed_during_launch "sleep 100 &" [[true]; []; [true]] (Exited 3))
    = Some (tr, Continue s')
    /\ waited tr = [4243%Z] /\ lastStatus (sh_globals s') = wstatus (Exited 3).
Proof.
  destruct (main_iteration 4242 (initial_shell blank)
              (typed_during_launch "sleep 100 &" [[true]; []; [true]] (Exited 3)))
    as [[tr [s'|code]]|] eqn:Hm;
    [| vm_compute in Hm; discriminate | vm_compute in Hm; discriminate].
  exists tr, s'. split; [reflexivity|].
  destruct (lastStatus_changes_only_by_waiting 4242 _ _ tr s' Hm)
    as [(Hw & _) | (child & Hf & Hw & Hl)].
  - vm_compute in Hm. injection Hm as <- _. discriminate Hw.
  - injection Hf as <-. split; [exact Hw | exact Hl].
Defined.

(** The mode after a round, from the mode before it and the messages
    the handler wrote. *)
Lemma main_iteration_parity (pid : Z) (s : shell) (w : world) tr s' :
  mode_ok (sh_globals s) ->
  main_iteration pid s w = Some (tr, Continue s') ->
  fgOnlyMode (sh_globals s')
  = ((fgOnlyMode (sh_globals s) + Z.of_nat (length (raw_writes tr))) mod 2)%Z.
Proof.
  intros Hmode H. apply main_iteration_shape in H.
  pose proof (read_round_parity s w Hmode) as (Hrm & Hread).
  fold (globals_at_read s w) in Hrm, Hread. fold (round_head s w) in Hread.
  assert (Hdisp : fgOnlyMode (globals_at_dispatch s w)
                  = ((fgOnlyMode (sh_globals s)
                      + Z.of_nat (length (raw_writes (round_prefix s w)))) mod 2)%Z).
  { unfold round_prefix. rewrite raw_writes_app, length_app, Nat2Z.inj_add.
    unfold globals_at_dispatch.
    rewrite deliver_parity by exact Hrm.
    rewrite Hread, deliver_raw_writes, Z.add_mod_idemp_l by lia.
    f_equal; lia. }
  remember (Continue s') as st eqn:Hst.
  destruct H as [Hline | Hp | r Hp Hr | r cmd tr st Hp Hr Hcmd Hd].
  - injection Hst as <-. exact Hread.
  - discriminate.
  - injection Hst as <-. exact Hdisp.
  - subst st.
    destruct (proj1 (dispatch_status _ _ _ _ _ _ Hd)
                (globals_at_dispatch_mode s w Hmode)) as (_ & Hm).
    rewrite Hm, Hdisp, raw_writes_app, length_app, Nat2Z.inj_add.
    rewrite Z.add_mod_idemp_l by lia. f_equal; lia.
Qed.

(** X13: the mode follows the signals, and nothing else.  From a mode
    that is 0 or 1, after any number of rounds the mode is the one the
    shell started in when the handler has written an even number of
    messages, and the other one when that number is odd, wherever in the
    rounds the signals were delivered; no command, builtin or skipped
    line changes it. *)
Theorem mode_follows_signals (pid : Z) (ws : list world) :
  forall s tr s',
    mode_ok (sh_globals s) ->
    run pid s ws = Some (tr, Continue s') ->
    fgOnlyMode (sh_globals s')
    = ((fgOnlyMode (sh_globals s) + Z.of_nat (length (raw_writes tr))) mod 2)%Z
    /\ mode_ok (sh_globals s').
Proof.
  assert (Hok : forall m n g, fgOnlyMode g = (m mod 2)%Z -> n = lastStatus g -> mode_ok g).
  { intros m n [m' n'] Hm Hn. cbn in Hm, Hn. subst. apply parity_mode. }
  induction ws as [|w rest IH]; intros s tr s' Hmode.
  - rewrite run_nil. intros [= <- <-]. split; [|exact Hmode].
    cbn [raw_writes flat_map length Z.of_nat]. rewrite Z.add_0_r.
    destruct Hmode as [-> | ->]; reflexivity.
  - rewrite run_cons.
    destruct (main_iteration pid s w) as [[tr1 [s1|code]]|] eqn:Hm; [| |discriminate].
    + destruct (run pid s1 rest) as [[tr2 st2]|] eqn:Hrun; [|discriminate].
      intros [= <- ->].
      pose proof (main_iteration_parity _ _ _ _ _ Hmode Hm) as H1.
      destruct (IH _ _ _ (Hok _ _ _ H1 eq_refl) Hrun) as (H2 & Hmode').
      split; [|exact Hmode'].
      rewrite H2, H1, raw_writes_app, length_app, Nat2Z.inj_add.
      rewrite Z.add_mod_idemp_l by lia. f_equal; lia.
    + discriminate.
Qed.

Lemma mode_follows_signals_witness :
  exists tr s',
    run 4242 (initial_shell blank)
      [typed_during_launch "ls &" [[true]; []; [true]] (Exited 0);
       typed_under_signals "status" [true; false] [true]]
    = Some (tr, Continue s')
    /\ length (raw_writes tr) = 5 /\ fgOnlyMode (sh_globals s') = 1%Z.
Proof.
  destruct (run 4242 (initial_shell blank)
              [typed_during_launch "ls &" [[true]; []; [true]] (Exited 0);
               typed_under_signals "status" [true; false] [true]])
    as [[tr [s'|code]]|] eqn:Hrun;
    [| vm_compute in Hrun; discriminate | vm_compute in Hrun; discriminate].
  exists tr, s'. split; [reflexivity|].
  destruct (mode_follows_signals 4242 _ (initial_shell blank) tr s'
              (or_introl eq_refl) Hrun) as (Hparity & _).
  assert (Hlen : length (raw_writes tr) = 5).
  { vm_compute in Hrun. injection Hrun as <- _. reflexivity. }
  split; [exact Hlen|]. rewrite Hparity, Hlen. reflexivity.
Defined.

(** X14: successive deliveries of the signal.  From a mode that is 0 or
    1, [n] deliveries leave the mode the shell was in when [n] is even
    and the other one when [n] is odd, never touch [lastStatus], and
    write the two messages in alternation, starting with the one that
    suits the mode; a [write] that fails changes none of this. *)
Theorem signal_deliveries_alternate (writes : list bool) (g : globals) :
  mode_ok g ->
  fgOnlyMode (snd (deliver writes g))
  = ((fgOnlyMode g + Z.of_nat (length writes)) mod 2)%Z
  /\ lastStatus (snd (deliver writes g)) = lastStatus g
  /\ raw_writes (fst (deliver writes g))
     = map (fun text => (STDOUT_FILENO, text))
         (mode_messages (fgOnlyMode g) (length writes)).
Proof.
  intros Hg. split; [apply deliver_parity, Hg|]. split; [apply deliver_frame|].
  revert g Hg. induction writes as [|ok rest IH]; intros g Hg; [reflexivity|].
  cbn [deliver length mode_messages map].
  pose proof (handle_SIGTSTP_mode ok g) as Hg1.
  assert (Hh : fgOnlyMode (snd (handle_SIGTSTP ok g))
               = (if (fgOnlyMode g =? 0)%Z then 1 else 0)%Z
               /\ raw_writes (fst (handle_SIGTSTP ok g))
                  = [(STDOUT_FILENO,
                      if (fgOnlyMode g =? 0)%Z then msg_entering else msg_exiting)]).
  { unfold handle_SIGTSTP. destruct (fgOnlyMode g =? 0)%Z, ok; split; reflexivity. }
  destruct Hh as (Hmode & Hwrite).
  destruct (handle_SIGTSTP ok g) as [tr g1]. cbn [fst snd] in *.
  specialize (IH g1 Hg1). destruct (deliver rest g1) as [tr' g2]. cbn [fst] in *.
  rewrite raw_writes_app, Hwrite, IH, Hmode. reflexivity.
Qed.

Lemma signal_deliveries_alternate_witness :
  fgOnlyMode (snd (deliver [true; false; true] {| fgOnlyMode := 0; lastStatus := 256 |}))
  = 1%Z
  /\ map snd (raw_writes (fst (deliver [true; false; true]
                                 {| fgOnlyMode := 0; lastStatus := 256 |})))
     = [msg_entering; msg_exiting; msg_entering].
Proof.
  destruct (signal_deliveries_alternate [true; false; true]
              {| fgOnlyMode := 0; lastStatus := 256 |} (or_introl eq_refl))
    as (Hmode & _ & Hwrites).
  split; [exact Hmode|]. rewrite Hwrites. reflexivity.
Defined.

(** ** The end of the input *)

Lemma eof_round (pid : Z) (s : shell) (w : world) :
  at_eof w ->
  main_iteration pid s w = Some (round_head s w, Continue (shell_at_eof s w)).
Proof.
  unfold at_eof, main_iteration, round_head, shell_at_eof, globals_at_read.
  intros ->. destruct (read_round s w) as [tr g]. reflexivity.
Qed.

(** X15: the end of the input does not end the shell.  When [fgets]
    finds nothing to read, the round ends after the prompt and the loop
    starts over: over any number of such rounds the shell is still
    running, it has printed at least one prompt per round, it has made no
    call other than output and non-blocking polls, and the line buffer,
    the two path pointers, [background] and [lastStatus] are as they
    were. *)
Theorem end_of_input_does_not_end_the_shell (pid : Z) (ws : list world) :
  forall s,
    Forall at_eof ws ->
    exists tr s',
      run pid s ws = Some (tr, Continue s')
      /\ length ws <= length (printed tr)
      /\ forallb passive tr = true
      /\ sh_input s' = sh_input s
      /\ sh_inputFile s' = sh_inputFile s /\ sh_outputFile s' = sh_outputFile s
      /\ sh_background s' = sh_background s
      /\ lastStatus (sh_globals s') = lastStatus (sh_globals s).
Proof.
  induction ws as [|w rest IH]; intros s Hall.
  - exists [], s. rewrite run_nil. cbn. auto 10.
  - inversion Hall as [|? ? Hw Hrest]; subst.
    rewrite run_cons, (eof_round pid s w Hw).
    destruct (IH (shell_at_eof s w) Hrest)
      as (tr & s' & -> & Hlen & Hpass & Hbuf & Hi & Ho & Hb & Hl).
    exists (round_head s w ++ tr)%list, s'. split; [reflexivity|].
    rewrite printed_app, length_app, forallb_app, round_head_passive, Hpass.
    rewrite Hbuf, Hi, Ho, Hb, Hl. cbn [shell_at_eof sh_input sh_inputFile
      sh_outputFile sh_background sh_globals length].
    rewrite globals_at_read_frame.
    pose proof (read_round_prompt s w) as Hprompt. fold (round_head s w) in Hprompt.
    repeat (split; [first [reflexivity | lia]|]). reflexivity.
Qed.

Lemma end_of_input_does_not_end_the_shell_witness :
  exists tr s',
    run 4242 (initial_shell blank)
      [end_of_input [] []; end_of_input [(77%positive, Exited 0)] [true];
       end_of_input [] []]
    = Some (tr, Continue s')
    /\ 3 <= length (printed tr).
Proof.
  destruct (end_of_input_does_not_end_the_shell 4242
              [end_of_input [] []; end_of_input [(77%positive, Exited 0)] [true];
               end_of_input [] []] (initial_shell blank))
    as (tr & s' & Hrun & Hlen & _).
  - repeat constructor.
  - exists tr, s'. split; [exact Hrun | exact Hlen].
Defined.

(** ** The helpers that [main] does not call *)

(** X16: [killBackgroundProcesses].  It sends [SIGKILL] to exactly the
    children that its non-blocking poll hands out, in that order: these
    are children that have already terminated, and a child that still
    runs is never signalled.  It stops at the first poll that finds
    none, never blocks and prints nothing. *)
Theorem shutdown_signals_reaped_children (zombies : list positive)
    (no_children : bool) :
  killed (killBackgroundProcesses zombies no_children)
  = map (fun p => (Z.pos p, SIGKILL)) zombies
  /\ poll_answers (killBackgroundProcesses zombies no_children)
     = (map Z.pos zombies ++ [idle_answer no_children])%list
  /\ forallb (fun e => negb (may_block e)) (killBackgroundProcesses zombies no_children)
     = true
  /\ printed (killBackgroundProcesses zombies no_children) = [].
Proof.
  induction zombies as [|p rest (Hk & Hp & Hb & Hpr)].
  - repeat split; reflexivity.
  - cbn [killBackgroundProcesses]. unfold killed, poll_answers, printed in *.
    cbn [flat_map app map forallb may_block negb Z.eqb WNOHANG Pos.eqb andb].
    rewrite Hk, Hp, Hb, Hpr. repeat split; reflexivity.
Qed.

(** X17: [displayStatus].  When [lastStatus] holds the status of a child
    that exited, it prints the exit value; when the child was killed by a
    signal, it prints the number of the signal; then it flushes. *)
Theorem displayStatus_reports_termination (g : globals) (t : termination) :
  valid_termination t -> lastStatus g = wstatus t ->
  displayStatus g = [Printf (outcome_text t); Fflush].
Proof.
  intros Hvalid Hlast. unfold displayStatus. rewrite Hlast.
  destruct t as [code | sig core]; cbn [valid_termination] in Hvalid.
  - destruct (exited_status code Hvalid) as (-> & _ & ->). reflexivity.
  - destruct (signaled_status sig core Hvalid) as (-> & _ & -> & _). reflexivity.
Qed.

Lemma displayStatus_reports_termination_witness :
  displayStatus {| fgOnlyMode := 0; lastStatus := 2 |}
  = [Printf ("terminated by signal 2" +:+ nl); Fflush].
Proof.
  apply (displayStatus_reports_termination {| fgOnlyMode := 0; lastStatus := 2 |}
           (Signaled 2 false)).
  - unfold valid_termination, valid_signal. lia.
  - reflexivity.
Defined.

(** X18: [changeDirectory] against the [cd] of [main].  Both make the
    same single call of [chdir], with the argument when there is one and
    with [HOME] otherwise; [changeDirectory] reports with [perror]
    exactly when an argument was given and the call failed, and never
    when it falls back on [HOME]. *)
Theorem changeDirectory_agrees_with_cd (w : world) (g : globals) (r : parsed) :
  List.filter is_chdir (changeDirectory (w_dirs w) (w_home w) (r_args r))
  = fst (dispatch w g r "cd")
  /\ (In (Perror "smallsh") (changeDirectory (w_dirs w) (w_home w) (r_args r))
      <-> exists d, arg (r_args r) 1 = Some d /\ w_dirs w d = false).
Proof.
  unfold changeDirectory, dispatch.
  change (streq "cd" "exit") with false. change (streq "cd" "cd") with true.
  cbv iota. cbn [fst].
  destruct (arg (r_args r) 1) as [d|].
  - cbn [chdir]. destruct (w_dirs w d) eqn:Hd; cbn; split; try reflexivity.
    + split; [intros [H|[]]; discriminate H | intros (d' & [= <-] & H); congruence].
    + split; [intros _; exists d; auto | auto].
  - cbn. split; [reflexivity|].
    split; [intros [H|[]]; discriminate H | intros (d' & H & _); discriminate H].
Qed.

(** ** Edges of the parser *)

Lemma parse_words_tail (fg pid : Z) (heap : nat -> bool) (ws tail : list string)
    (st : words_state -> words_state) :
  (forall k, heap k = true) -> Forall plain ws -> length ws < MAX_ARGS - 1 ->
  (forall st0, length (ws_args st0) < MAX_ARGS - 1 ->
               parse_words fg pid heap tail st0 = ([], Returns (st st0))) ->
  parse_words fg pid heap (ws ++ tail) initial_words
  = ([], Returns (st {| ws_args := map (fun w => Some (expand_word pid w)) ws;
                        ws_in := Kept; ws_out := Kept; ws_bg := 0 |})).
Proof.
  intros Hheap Hplain Hlen Htail.
  rewrite parse_words_plain by (auto; cbn [initial_words ws_args length]; lia).
  cbn [initial_words ws_args ws_in ws_out ws_bg app].
  apply Htail. cbn [ws_args]. rewrite length_map. exact Hlen.
Qed.

Section Edges.

Variable fg : Z.
Variable pid : Z.
Variable heap : nat -> bool.
Variables inF outF : option nat.
Variable input : list ascii.
Variable background : Z.

(** X19: operators without a path, repeated redirections, and the
    limit of the array.  The allocations succeed and the line starts
    with the plain words [ws].  When these are fewer than [MAX_ARGS - 1]:
    a ["<"] or [">"] that ends the line behind them stores [NULL] in its
    pointer, without any message, and leaves the other pointer alone;
    and of two redirections of the same stream the second one wins.
    When they are [MAX_ARGS - 1] or more, the loop of line 154 stops
    behind the first [MAX_ARGS - 1] of them: whatever follows, operators
    included, is not read, and both pointers are left as they were. *)
Theorem dangling_and_repeated_redirections (ws : list string) :
  (forall k, heap k = true) -> Forall plain ws ->
  (length ws < MAX_ARGS - 1 ->
   (tokens input = (ws ++ ["<"])%list ->
    exists r,
      parseInput fg pid heap input inF outF background = Some ([], Returns r)
      /\ r_args r = map (fun w => Some (expand_word pid w)) ws
      /\ r_inputFile r = None /\ r_outputFile r = outF)
   /\ (tokens input = (ws ++ [">"])%list ->
       exists r,
         parseInput fg pid heap input inF outF background = Some ([], Returns r)
         /\ r_args r = map (fun w => Some (expand_word pid w)) ws
         /\ r_inputFile r = inF /\ r_outputFile r = None)
   /\ (forall a b,
         tokens input = (ws ++ ["<"; a; "<"; b])%list ->
         exists r,
           parseInput fg pid heap input inF outF background = Some ([], Returns r)
           /\ deref (r_input r) (r_inputFile r) = Some b)
   /\ (forall a b,
         tokens input = (ws ++ [">"; a; ">"; b])%list ->
         exists r,
           parseInput fg pid heap input inF outF background = Some ([], Returns r)
           /\ deref (r_input r) (r_outputFile r) = Some b))
  /\ (MAX_ARGS - 1 <= length ws ->
      forall tail,
        tokens input = (ws ++ tail)%list ->
        exists r,
          parseInput fg pid heap input inF outF background = Some ([], Returns r)
          /\ r_args r
             = map (fun w => Some (expand_word pid w)) (take (MAX_ARGS - 1) ws)
          /\ r_inputFile r = inF /\ r_outputFile r = outF).
Proof.
  intros Hheap Hplain.
  assert (Hopen : forall st0 : words_state,
             length (ws_args st0) < MAX_ARGS - 1 ->
             negb (length (ws_args st0) <? MAX_ARGS - 1)%nat = false)
    by (intros; apply limit_open; assumption).
  split; [intros Hlen; split; [|split; [|split]]|].
  - intros Htok.
    destruct (parseInput_from_words fg pid heap inF outF input background []
                (with_in Null {| ws_args := map (fun w => Some (expand_word pid w)) ws;
                                 ws_in := Kept; ws_out := Kept; ws_bg := 0 |}))
      as (r & Hp & Ha & _ & _ & Hi & Ho).
    { rewrite Htok. apply (parse_words_tail fg pid heap ws ["<"] (with_in Null)); auto.
      intros st0 H0. cbn [parse_words]. rewrite (Hopen st0 H0). reflexivity. }
    exists r. cbn in Ha, Hi, Ho. auto.
  - intros Htok.
    destruct (parseInput_from_words fg pid heap inF outF input background []
                (with_out Null {| ws_args := map (fun w => Some (expand_word pid w)) ws;
                                  ws_in := Kept; ws_out := Kept; ws_bg := 0 |}))
      as (r & Hp & Ha & _ & _ & Hi & Ho).
    { rewrite Htok. apply (parse_words_tail fg pid heap ws [">"] (with_out Null)); auto.
      intros st0 H0. cbn [parse_words]. rewrite (Hopen st0 H0). reflexivity. }
    exists r. cbn in Ha, Hi, Ho. auto.
  - intros a b Htok.
    destruct (parseInput_from_words fg pid heap inF outF input background []
                (with_in (Points b)
                   (with_in (Points a)
                      {| ws_args := map (fun w => Some (expand_word pid w)) ws;
                         ws_in := Kept; ws_out := Kept; ws_bg := 0 |})))
      as (r & Hp & _ & _ & _ & (off & Hi & Hb) & _).
    { rewrite Htok.
      apply (parse_words_tail fg pid heap ws ["<"; a; "<"; b]
               (fun st0 => with_in (Points b) (with_in (Points a) st0))); auto.
      intros st0 H0. cbn [parse_words]. rewrite (Hopen st0 H0).
      cbn [streq String.eqb Ascii.eqb Bool.eqb andb with_in ws_args].
      rewrite (Hopen st0 H0). reflexivity. }
    exists r. split; [exact Hp|]. rewrite Hi. cbn [deref option_map]. rewrite Hb.
    reflexivity.
  - intros a b Htok.
    destruct (parseInput_from_words fg pid heap inF outF input background []
                (with_out (Points b)
                   (with_out (Points a)
                      {| ws_args := map (fun w => Some (expand_word pid w)) ws;
                         ws_in := Kept; ws_out := Kept; ws_bg := 0 |})))
      as (r & Hp & _ & _ & _ & _ & (off & Ho & Hb)).
    { rewrite Htok.
      apply (parse_words_tail fg pid heap ws [">"; a; ">"; b]
               (fun st0 => with_out (Points b) (with_out (Points a) st0))); auto.
      intros st0 H0. cbn [parse_words]. rewrite (Hopen st0 H0).
      cbn [streq String.eqb Ascii.eqb Bool.eqb andb with_out ws_args].
      rewrite (Hopen st0 H0). reflexivity. }
    exists r. split; [exact Hp|]. rewrite Ho. cbn [deref option_map]. rewrite Hb.
    reflexivity.
  - intros Hfull tail Htok.
    destruct (parseInput_from_words fg pid heap inF outF input background []
                {| ws_args := map (fun w => Some (expand_word pid w))
                                (take (MAX_ARGS - 1) ws);
                   ws_in := Kept; ws_out := Kept; ws_bg := 0 |})
      as (r & Hp & Ha & _ & _ & Hi & Ho).
    { rewrite Htok.
      replace (ws ++ tail)%list
        with (take (MAX_ARGS - 1) ws ++ (drop (MAX_ARGS - 1) ws ++ tail))%list
        by (rewrite List.app_assoc, take_drop; reflexivity).
      rewrite parse_words_plain;
        [| exact Hheap | apply Forall_take, Hplain
         | cbn [initial_words ws_args length]; rewrite length_take; lia].
      apply parse_words_full. cbn [initial_words ws_args app].
      rewrite length_map, length_take. lia. }
    exists r. cbn [ws_args ws_in ws_out denotes] in Ha, Hi, Ho. auto.
Qed.

(** X20: a copy of the command word that cannot be allocated.  When the
    first word holds no marker and its [strdup] fails, [args[0]] is
    [NULL]: whenever [parseInput] returns it returns 0, and the line is
    dropped like a blank one, without a message. *)
Theorem failed_copy_of_command_skips_line (w : string) (rest : list string) tr r :
  tokens input = w :: rest -> plain w -> strstr w "$$" = None -> heap 0 = false ->
  parseInput fg pid heap input inF outF background = Some (tr, Returns r) ->
  r_ret r = 0%Z /\ arg (r_args r) 0 = None /\ tr = [].
Proof.
  intros Htok Hw Hmark Hheap Hp.
  pose proof (parseInput_trace _ _ _ _ _ _ _ _ _ Hp) as Htr. cbn beta iota in Htr.
  apply parseInput_to_words in Hp as (st & Hws & -> & _ & -> & _).
  rewrite Htok in Hws. cbn [parse_words] in Hws.
  rewrite limit_open in Hws by (cbn; unfold MAX_ARGS; lia).
  destruct (plain_tests w Hw) as (E1 & E2 & E3). rewrite E1, E2, E3 in Hws.
  cbn [initial_words ws_args length] in Hws. rewrite Hheap in Hws.
  unfold expandPID in Hws. rewrite Hmark in Hws.
  destruct (parse_words fg pid heap rest _) as [tr1 o1] eqn:Hrest.
  injection Hws as _ ->.
  assert (Hgrow : exists more, ws_args st = None :: more).
  { apply (parse_words_invariant fg pid heap
             (fun st => exists more, ws_args st = None :: more))
      with (toks := rest) (st := with_arg None {| ws_args := []; ws_in := Kept;
                                                   ws_out := Kept; ws_bg := 0 |})
           (tr := tr1); auto.
    - intros st0 a (more & Hm) _. exists (more ++ [a])%list. cbn. rewrite Hm. reflexivity.
    - exists []. reflexivity. }
  destruct Hgrow as (more & ->).
  split; [apply parse_verdict_null; reflexivity | split; [reflexivity | exact Htr]].
Qed.

End Edges.

(** ** From the typed text to the parse *)

Lemma tokens_space (t : list ascii) : tokens (SPACE :: t) = tokens t.
Proof. reflexivity. Qed.

Lemma word_char_tests (c : ascii) :
  word_char c = true ->
  is_nul c = false /\ Ascii.eqb c SPACE = false /\ Ascii.eqb c LF = false.
Proof.
  unfold word_char.
  destruct (is_nul c), (Ascii.eqb c SPACE), (Ascii.eqb c LF); cbn; auto; discriminate.
Qed.

(** A word in front of the end of the text or of a space is the first
    token. *)
Lemma tokens_word_app (w : string) (t : list ascii) :
  is_word w -> t = [] \/ (exists t', t = SPACE :: t') ->
  tokens (list_ascii_of_string w ++ t) = w :: tokens t.
Proof.
  intros (Hne & Hall) Ht. destruct w as [|c w]; [contradiction|]. clear Hne.
  revert c Hall. induction w as [|c' w IH]; intros c Hall.
  - cbn [all_chars] in Hall. apply andb_true_iff in Hall as (Hc & _).
    apply word_char_tests in Hc as (Hn & Hs & _).
    cbn [list_ascii_of_string app].
    destruct Ht as [-> | (t' & ->)].
    + cbn [tokens]. rewrite Hn, Hs. reflexivity.
    + rewrite tokens_cons_word by assumption. reflexivity.
  - cbn [all_chars] in Hall. apply andb_true_iff in Hall as (Hc & Hall).
    apply word_char_tests in Hc as (Hn & Hs & _).
    specialize (IH c' Hall).
    assert (Hc' : is_nul c' || Ascii.eqb c' SPACE = false).
    { cbn [all_chars] in Hall. apply andb_true_iff in Hall as (Hc' & _).
      apply word_char_tests in Hc' as (-> & -> & _). reflexivity. }
    cbn [list_ascii_of_string app] in *.
    rewrite tokens_cons_word by assumption. rewrite Hc', IH. reflexivity.
Qed.

Lemma list_ascii_app (a b : string) :
  list_ascii_of_string (a +:+ b)
  = (list_ascii_of_string a ++ list_ascii_of_string b)%list.
Proof.
  induction a as [|c a IH]; [rewrite app_nil; reflexivity|].
  rewrite app_cons. cbn [list_ascii_of_string app]. f_equal. exact IH.
Qed.

Lemma tokens_unwords (ws : list string) :
  Forall is_word ws -> tokens (list_ascii_of_string (unwords ws)) = ws.
Proof.
  induction ws as [|w rest IH]; intros Hall; [reflexivity|].
  inversion Hall as [|? ? Hw Hrest]; subst. specialize (IH Hrest).
  destruct rest as [|w2 rest'].
  - cbn [unwords]. rewrite <- (app_nil_r (list_ascii_of_string w)).
    rewrite tokens_word_app by auto. reflexivity.
  - change (unwords (w :: w2 :: rest')) with (w +:+ " " +:+ unwords (w2 :: rest')).
    rewrite !list_ascii_app. change (list_ascii_of_string " ") with [SPACE].
    cbn [app]. rewrite tokens_word_app by eauto.
    rewrite tokens_space, IH. reflexivity.
Qed.

Lemma all_chars_app (p : ascii -> bool) (a b : string) :
  all_chars p (a +:+ b) = all_chars p a && all_chars p b.
Proof.
  induction a as [|c a IH]; [rewrite app_nil; reflexivity|].
  rewrite app_cons. cbn [all_chars]. rewrite IH, andb_assoc. reflexivity.
Qed.

Lemma word_chars_line (w : string) :
  all_chars word_char w = true -> all_chars line_char w = true.
Proof.
  induction w as [|c w IH]; [reflexivity|]. cbn [all_chars].
  intros H. apply andb_true_iff in H as (Hc & Hw). rewrite (IH Hw), andb_true_r.
  apply word_char_tests in Hc as (Hn & _ & Hl). unfold line_char.
  rewrite Hn, Hl. reflexivity.
Qed.

Lemma unwords_line_chars (ws : list string) :
  Forall is_word ws -> all_chars line_char (unwords ws) = true.
Proof.
  induction ws as [|w rest IH]; intros Hall; [reflexivity|].
  inversion Hall as [|? ? (_ & Hw) Hrest]; subst. specialize (IH Hrest).
  destruct rest as [|w2 rest'].
  - apply word_chars_line, Hw.
  - change (unwords (w :: w2 :: rest')) with (w +:+ " " +:+ unwords (w2 :: rest')).
    rewrite !all_chars_app, (word_chars_line _ Hw), IH. reflexivity.
Qed.

Lemma line_of_id (s : string) : all_chars line_char s = true -> line_of s = s.
Proof.
  induction s as [|c s IH]; [reflexivity|]. cbn [all_chars line_of].
  intros H. apply andb_true_iff in H as (Hc & Hs). unfold line_char in Hc.
  apply negb_true_iff in Hc. rewrite Hc, (IH Hs). reflexivity.
Qed.

(** The words of the buffer after the read of a typed line are the
    words typed. *)
Lemma tokens_typed (buf : list ascii) (ws : list string) :
  Forall is_word ws -> String.length (unwords ws) <= MAX_CMD_LEN - 2 ->
  tokens (read_line buf (unwords ws +:+ nl)) = ws.
Proof.
  intros Hall Hlen. rewrite tokens_c_str, read_line_text.
  unfold MAX_CMD_LEN in *. rewrite string_take_more by lia.
  destruct (2048 - 1 - String.length (unwords ws)) as [|k] eqn:Hk; [lia|].
  unfold nl. cbn [string_take].
  rewrite line_of_plain by (apply line_of_id, unwords_line_chars, Hall).
  apply tokens_unwords, Hall.
Qed.

Lemma Forall_redirection (P : string -> Prop) (op : string) (path : option string) :
  P op -> (forall f, path = Some f -> P f) -> Forall P (redirection op path).
Proof.
  intros Hop Hpath. destruct path as [f|]; cbn [redirection]; auto.
Qed.

Section Typed.

Variable fg : Z.
Variable pid : Z.
Variable heap : nat -> bool.
Variables inF outF : option nat.
Variable buf : list ascii.
Variable background : Z.

(** X21: from the typed text to the parse.  The line typed is words
    separated by single spaces in the documented form
    [cmd args < in > out &], each tail optional, at most
    [MAX_CMD_LEN - 2] characters before the line feed; the words are no
    operators and fewer than [MAX_ARGS - 1]; the allocations succeed.
    Whatever the buffer held before the read, [parseInput] returns the
    words expanded as the arguments, pointers that denote the two paths
    typed (or are left as they were), and [background] 1 exactly when
    the ampersand was typed and the flag read is 0. *)
Theorem typed_line_is_parsed (ws : list string) (fi fo : option string) (amp : bool) :
  Forall is_word ws -> Forall plain ws -> length ws < MAX_ARGS - 1 ->
  (forall f, fi = Some f -> is_word f) -> (forall f, fo = Some f -> is_word f) ->
  String.length
    (unwords (ws ++ redirection "<" fi ++ redirection ">" fo
                ++ (if amp then ["&"] else [])))
  <= MAX_CMD_LEN - 2 ->
  (forall k, heap k = true) ->
  exists r,
    parseInput fg pid heap
      (read_line buf
         (unwords (ws ++ redirection "<" fi ++ redirection ">" fo
                      ++ (if amp then ["&"] else [])) +:+ nl))
      inF outF background
    = Some ([], Returns r)
    /\ r_args r = map (fun w => Some (expand_word pid w)) ws
    /\ denotes (r_input r) inF (r_inputFile r)
         (match fi with Some f => Points f | None => Kept end)
    /\ denotes (r_input r) outF (r_outputFile r)
         (match fo with Some f => Points f | None => Kept end)
    /\ r_background r = (if amp && (fg =? 0)%Z then 1 else 0)%Z.
Proof.
  intros Hwords Hplain Hlen Hfi Hfo Hsize Hheap.
  assert (Hop : forall op, op = "<" \/ op = ">" \/ op = "&" -> is_word op).
  { intros op [-> | [-> | ->]]; split; (discriminate || reflexivity). }
  assert (Hall : Forall is_word
                   (ws ++ redirection "<" fi ++ redirection ">" fo
                       ++ (if amp then ["&"] else []))%list).
  { rewrite !Forall_app. split; [exact Hwords|]. split; [|split].
    - apply Forall_redirection; auto.
    - apply Forall_redirection; auto.
    - destruct amp; auto. }
  destruct (parseInput_from_words fg pid heap inF outF
              (read_line buf
                 (unwords (ws ++ redirection "<" fi ++ redirection ">" fo
                              ++ (if amp then ["&"] else [])) +:+ nl))
              background []
              {| ws_args := map (fun w => Some (expand_word pid w)) ws;
                 ws_in := match fi with Some f => Points f | None => Kept end;
                 ws_out := match fo with Some f => Points f | None => Kept end;
                 ws_bg := if amp && (fg =? 0)%Z then 1 else 0 |})
    as (r & Hp & Ha & Hb & _ & Hi & Ho).
  { rewrite (tokens_typed buf _ Hall Hsize).
    rewrite parse_words_grammar by (auto; cbn; lia). reflexivity. }
  exists r. cbn [ws_args ws_in ws_out ws_bg] in *. auto.
Qed.

End Typed.

Lemma typed_line_is_parsed_witness :
  exists r,
    parseInput 0 4242 (fun _ => true)
      (read_line (read_line blank ("an earlier and longer line > elsewhere" +:+ nl))
         ("wc -l < notes$$ > count &" +:+ nl)) None None 0
    = Some ([], Returns r)
    /\ r_args r = [Some "wc"; Some "-l"]
    /\ deref (r_input r) (r_inputFile r) = Some "notes$$"
    /\ deref (r_input r) (r_outputFile r) = Some "count"
    /\ r_background r = 1%Z.
Proof.
  destruct (typed_line_is_parsed 0 4242 (fun _ => true) None None
              (read_line blank ("an earlier and longer line > elsewhere" +:+ nl)) 0
              ["wc"; "-l"] (Some "notes$$") (Some "count") true)
    as (r & Hp & Ha & (oi & Hi & Hci) & (oo & Ho & Hco) & Hb).
  - repeat constructor; discriminate.
  - repeat constructor.
  - unfold MAX_ARGS. cbn. lia.
  - intros f [= <-]. split; [discriminate | reflexivity].
  - intros f [= <-]. split; [discriminate | reflexivity].
  - apply Nat.leb_le. vm_compute. reflexivity.
  - reflexivity.
  - exists r. rewrite Hi, Ho. cbn [deref option_map]. rewrite Hci, Hco.
    repeat split; assumption.
Defined.

(** ** Forks *)

(** X22: a round calls [fork] at most once, and exactly when the line
    parses to a command that is no builtin: then the one child is given
    exactly the arguments [parseInput] returned.  The end of the input,
    a failed parse, a skipped line (blank, or a comment whatever follows
    the [#]) and a builtin (whatever else is on its line) fork
    nothing. *)
Theorem round_forks_only_for_external_command (pid : Z) (s : shell) (w : world)
    tr st :
  main_iteration pid s w = Some (tr, st) ->
  (spawned tr = []
   \/ (exists r cmd child,
         round_parse pid s w = Some ([], Returns r)
         /\ r_ret r <> 0%Z
         /\ arg (r_args r) 0 = Some cmd /\ is_builtin cmd = false
         /\ spawned tr = [child] /\ sp_argv child = r_args r))
  /\ (at_eof w -> spawned tr = [])
  /\ (forall tr_p code,
        round_parse pid s w = Some (tr_p, Exits code) -> spawned tr = [])
  /\ (forall tr_p r,
        round_parse pid s w = Some (tr_p, Returns r) ->
        (r_ret r = 0%Z -> spawned tr = [])
        /\ (forall cmd, arg (r_args r) 0 = Some cmd -> is_builtin cmd = true ->
              spawned tr = [])
        /\ (forall cmd, r_ret r <> 0%Z -> arg (r_args r) 0 = Some cmd ->
              is_builtin cmd = false ->
              exists child, spawned tr = [child] /\ sp_argv child = r_args r)).
Proof.
  intros H. apply main_iteration_shape in H.
  destruct H as [Hline | Hp | r Hp Hr | r cmd tr st Hp Hr Hcmd Hd].
  - assert (Hs : spawned (round_head s w) = [])
      by apply spawned_passive, round_head_passive.
    assert (Hnone : round_parse pid s w = None)
      by (unfold round_parse; rewrite Hline; reflexivity).
    rewrite Hnone. split; [left; exact Hs|]. split; [auto|].
    split; [discriminate|]. discriminate.
  - assert (Hs : spawned (round_head s w ++ [Perror "malloc"]) = []).
    { rewrite spawned_app, (spawned_passive _ (round_head_passive s w)). reflexivity. }
    rewrite Hp. split; [left; exact Hs|]. split; [auto|].
    split; [auto|]. discriminate.
  - assert (Hs : spawned (round_prefix s w) = [])
      by apply spawned_passive, round_prefix_passive.
    rewrite Hp. split; [left; exact Hs|]. split; [auto|].
    split; [discriminate|]. intros tr_p r' [= <- <-].
    split; [auto|]. split; [auto|]. intros cmd Hr'. contradiction.
  - rewrite spawned_app, (spawned_passive _ (round_prefix_passive s w)). cbn [app].
    rewrite Hp.
    destruct (dispatch_spawn w (globals_at_dispatch s w) r cmd)
      as [(Hb & Hs) | (Hb & child & Hs & _ & _ & Hargv)];
      rewrite Hd in Hs; cbn [fst] in Hs.
    + split; [left; exact Hs|]. split; [auto|].
      split; [discriminate|]. intros tr_p r' [= <- <-].
      split; [auto|]. split; [auto|].
      intros cmd' _ Hcmd' Hb'. congruence.
    + split; [right; exists r, cmd, child; auto 10|].
      split; [unfold at_eof; intros Hline; unfold round_parse in Hp;
              rewrite Hline in Hp; discriminate|].
      split; [discriminate|]. intros tr_p r' [= <- <-].
      split; [contradiction|]. split; [intros cmd' Hcmd' Hb'; congruence|].
      intros cmd' _ _ _. eauto.
Qed.

Lemma round_forks_only_for_external_command_witness :
  exists tr st,
    main_iteration 4242 (initial_shell blank) (typed "# ls > out &" (Exited 0))
    = Some (tr, st)
    /\ spawned tr = [].
Proof.
  pose (s := initial_shell blank).
  pose (w := typed "# ls > out &" (Exited 0)).
  destruct (main_iteration 4242 s w) as [[tr st]|] eqn:Hm;
    [|vm_compute in Hm; discriminate Hm].
  exists tr, st. split; [exact Hm|].
  destruct (parsed_of (round_parse 4242 s w)) as [r|] eqn:Hr;
    [|vm_compute in Hr; discriminate Hr].
  assert (Hret : r_ret r = 0%Z).
  { assert (Hc : option_map r_ret (parsed_of (round_parse 4242 s w)) = Some 0%Z)
      by (vm_compute; reflexivity).
    rewrite Hr in Hc. injection Hc as ->. reflexivity. }
  destruct (round_forks_only_for_external_command 4242 s w tr st Hm)
    as (_ & _ & _ & Hparsed).
  revert Hr. unfold parsed_of.
  destruct (round_parse 4242 s w) as [[tr_p [r'|c]]|];
    [|intros Hr; discriminate Hr|intros Hr; discriminate Hr].
  intros [= ->]. exact (proj1 (Hparsed tr_p r eq_refl) Hret).
Defined.

Lemma dangling_and_repeated_redirections_witness :
  (exists r,
     parseInput 0 4242 (fun _ => true) (read_line blank ("cat <" +:+ nl))
       (Some 7) None 0 = Some ([], Returns r)
     /\ r_inputFile r = None)
  /\ (exists r,
        parseInput 0 4242 (fun _ => true) (read_line blank ("cat < a < b" +:+ nl))
          None None 0 = Some ([], Returns r)
        /\ deref (r_input r) (r_inputFile r) = Some "b")
  /\ (exists r,
        parseInput 0 4242 (fun _ => true)
          (read_line blank (repeat_word 511 "a" +:+ "<" +:+ nl))
          (Some 7) None 0 = Some ([], Returns r)
        /\ r_inputFile r = Some 7).
Proof.
  split; [|split].
  - destruct (dangling_and_repeated_redirections 0 4242 (fun _ => true) (Some 7) None
                (read_line blank ("cat <" +:+ nl)) 0 ["cat"])
      as (Hopen & _).
    + reflexivity.
    + repeat constructor.
    + destruct Hopen as (Hdangling & _); [unfold MAX_ARGS; cbn; lia|].
      destruct Hdangling as (r & Hp & _ & Hi & _); [vm_compute; reflexivity|].
      exists r. auto.
  - destruct (dangling_and_repeated_redirections 0 4242 (fun _ => true) None None
                (read_line blank ("cat < a < b" +:+ nl)) 0 ["cat"])
      as (Hopen & _).
    + reflexivity.
    + repeat constructor.
    + destruct Hopen as (_ & _ & Hrepeated & _); [unfold MAX_ARGS; cbn; lia|].
      apply (Hrepeated "a" "b"). vm_compute. reflexivity.
  - destruct (dangling_and_repeated_redirections 0 4242 (fun _ => true) (Some 7) None
                (read_line blank (repeat_word 511 "a" +:+ "<" +:+ nl)) 0
                (replicate 511 "a"))
      as (_ & Hfull).
    + reflexivity.
    + apply Forall_replicate. reflexivity.
    + destruct (Hfull ltac:(rewrite length_replicate; unfold MAX_ARGS; lia) ["<"])
        as (r & Hp & _ & Hi & _); [vm_compute; reflexivity|].
      exists r. auto.
Defined.

Lemma failed_copy_of_command_skips_line_witness :
  exists tr r,
    parseInput 0 4242 (fun k => negb (k =? 0)%nat) (read_line blank ("ls -l" +:+ nl))
      None None 0 = Some (tr, Returns r)
    /\ r_ret r = 0%Z /\ arg (r_args r) 0 = None /\ tr = [].
Proof.
  destruct (parseInput 0 4242 (fun k => negb (k =? 0)%nat)
              (read_line blank ("ls -l" +:+ nl)) None None 0)
    as [[tr [r|code]]|] eqn:Hp;
    [| vm_compute in Hp; discriminate | vm_compute in Hp; discriminate].
  exists tr, r. split; [reflexivity|].
  apply (failed_copy_of_command_skips_line 0 4242 (fun k => negb (k =? 0)%nat)
           None None (read_line blank ("ls -l" +:+ nl)) 0 "ls" ["-l"] tr r).
  - vm_compute. reflexivity.
  - reflexivity.
  - reflexivity.
  - reflexivity.
  - exact Hp.
Defined.

(** ** The ways out of the shell *)





